(** * Retrieval pipeline of intelligent-graph-agent-ts: a shallow embedding

    The development follows the TypeScript sources:
    - [Chunker]          services/enhanced-text-chunker (EnhancedTextChunker)
    - [EmbeddingManager] services/embedding-manager (cache and retry wrapper)
    - [GraphWriter]      GraphStructureBuilder / BaseGraphService
    - [VectorSearch]     services/vector-index/vector-search.ts
    - [UnifiedSearch]    search/unified-search.ts
    - [GraphService]              services/graph-service.ts, the writer that
                                  extends BaseGraphService
    - [DocumentProcessor]         services/document-processor.ts (chunks of
                                  words)
    - [EnhancedDocumentProcessor] the DocumentProcessor built on the text
                                  chunker and the embedding manager

    JavaScript strings are sequences of UTF-16 code units; they are modelled
    as lists of [N].  Lengths, positions and sizes are natural numbers. *)

From Stdlib Require Import ZArith NArith QArith List Lia Bool String Ascii Sorted.
From stdpp Require Import gmap strings list sorting.

Local Open Scope nat_scope.

(** ** JavaScript strings *)

Module Js.

Abbreviation JsString := (list N).

(** Code units of an ASCII literal, used to write inputs down. *)
Definition js (s : string) : JsString :=
  map (fun a => N_of_ascii a) (list_ascii_of_string s).

(** [WhiteSpace] and [LineTerminator] of ECMAScript: what [trim] removes
    and what the regular expression class \s matches. *)
Definition isWhiteSpace (c : N) : bool :=
  ((9 <=? c) && (c <=? 13))%N
  || (c =? 32)%N || (c =? 160)%N || (c =? 5760)%N
  || ((8192 <=? c) && (c <=? 8202))%N
  || (c =? 8232)%N || (c =? 8233)%N || (c =? 8239)%N
  || (c =? 8287)%N || (c =? 12288)%N || (c =? 65279)%N.

Fixpoint trimStart (s : JsString) : JsString :=
  match s with
  | [] => []
  | c :: r => if isWhiteSpace c then trimStart r else s
  end.

Definition trimEnd (s : JsString) : JsString := rev (trimStart (rev s)).

Definition trim (s : JsString) : JsString := trimEnd (trimStart s).

(** [s.slice(b, e)] for non-negative integer [b] and [e]. *)
Definition slice (s : JsString) (b e : nat) : JsString :=
  take (e - b) (drop b s).

(** [s.substring(0, n)]. *)
Definition substring0 (s : JsString) (n : nat) : JsString := take n s.

(** A string used as a condition is true when it is not empty. *)
Definition truthy (s : JsString) : bool :=
  match s with [] => false | _ => true end.

End Js.

(** ** EnhancedTextChunker *)

Module Chunker.
Import Js.

Record ChunkingOptions := {
  chunkSize : nat;
  overlap : nat;
  maxTextLength : nat;
  preserveSentences : bool;
  multilingualSupport : bool
}.

Section WithOptions.
Variable options : ChunkingOptions.

(** [/[.!?]/], or [/[。！？.!?]/] with multilingual support. *)
Definition isSentenceEnding (c : N) : bool :=
  ((c =? 46) || (c =? 33) || (c =? 63))%N
  || (multilingualSupport options
      && ((c =? 12290) || (c =? 65281) || (c =? 65311))%N).

Fixpoint scanSentenceEnd (rest : JsString) (i : nat) : nat :=
  match rest with
  | [] => i
  | c :: r => if isSentenceEnding c then S i else scanSentenceEnd r (S i)
  end.

Definition findNextSentenceEnd (text : JsString) (startPos : nat) : nat :=
  if startPos <? length text
  then scanSentenceEnd (drop startPos text) startPos
  else length text.

Fixpoint skipWhiteSpace (rest : JsString) (nextPos : nat) : nat :=
  match rest with
  | [] => nextPos
  | c :: r => if isWhiteSpace c then skipWhiteSpace r (S nextPos) else nextPos
  end.

Fixpoint findPreviousSentenceStart (text : JsString) (startPos : nat) : nat :=
  match startPos with
  | 0 => 0
  | S i =>
      match text !! i with
      | Some c =>
          if isSentenceEnding c
          then skipWhiteSpace (drop (S i) text) (S i)
          else findPreviousSentenceStart text i
      | None => findPreviousSentenceStart text i
      end
  end.

(** Right edge of the window that starts at [startPos]. *)
Definition windowEnd (text : JsString) (startPos : nat) : nat :=
  let endPos := Nat.min (startPos + chunkSize options) (length text) in
  if (endPos <? length text) && preserveSentences options then
    let sentenceEnd := findNextSentenceEnd text endPos in
    if sentenceEnd <=? startPos + chunkSize options + 100
    then sentenceEnd else endPos
  else endPos.

(** Start of the next window, computed at the end of an iteration. *)
Definition nextStart (text : JsString) (startPos endPos : nat) : nat :=
  let overlapStart := Nat.max startPos (endPos - overlap options) in
  let candidate :=
    if preserveSentences options then
      let nextSentenceStart := findPreviousSentenceStart text overlapStart in
      if (startPos <? nextSentenceStart) && (nextSentenceStart <? endPos)
      then nextSentenceStart else overlapStart
    else overlapStart in
  if endPos <=? candidate then endPos else candidate.

Definition pushChunk (chunks : list JsString) (chunk : JsString) :=
  if truthy chunk then chunks ++ [chunk] else chunks.

(** The [while (startPos < text.length)] loop; [None] when the
    iterations allowed by [fuel] do not reach the end of the loop. *)
Fixpoint chunkLoop (fuel : nat) (text : JsString) (startPos : nat)
    (chunks : list JsString) : option (list JsString) :=
  match fuel with
  | 0 => None
  | S fuel' =>
      if startPos <? length text then
        let endPos := windowEnd text startPos in
        let chunks' := pushChunk chunks (trim (slice text startPos endPos)) in
        if length text <=? endPos then Some chunks'
        else chunkLoop fuel' text (nextStart text startPos endPos) chunks'
      else Some chunks
  end.

Definition chunkSingleSegment (fuel : nat) (text : JsString)
    : option (list JsString) :=
  if negb (truthy text) || (length (trim text) =? 0) then Some []
  else if length text <=? chunkSize options then Some [trim text]
  else chunkLoop fuel text 0 [].

(** *** Pre-splitting of large texts *)

(** [Math.min(maxTextLength, Math.max(10000, maxTextLength / 2))] is a
    half-integer when [maxTextLength] is odd and above 20000, so the
    target size is kept doubled and lengths are doubled before they are
    compared with it. *)
Definition targetSegmentSize2 : nat :=
  Nat.min (2 * maxTextLength options) (Nat.max 20000 (maxTextLength options)).

(** The [for (i = 0; i < text.length; i += maxSize)] loop; [i2] is the
    doubled index, and [slice] truncates its arguments to integers. *)
Fixpoint splitByFixedLengthFrom (fuel : nat) (text : JsString)
    (maxSize2 i2 : nat) : option (list JsString) :=
  match fuel with
  | 0 => None
  | S fuel' =>
      if i2 <? 2 * length text then
        rest ← splitByFixedLengthFrom fuel' text maxSize2 (i2 + maxSize2);
        Some (slice text (i2 / 2) ((i2 + maxSize2) / 2) :: rest)
      else Some []
  end.

(** The index grows by [maxSize2] each turn, so [2 * length + 1] turns
    are enough unless [maxSize2] is 0, where the source loops forever. *)
Definition splitByFixedLength (text : JsString) (maxSize2 : nat)
    : option (list JsString) :=
  splitByFixedLengthFrom (2 * length text + 1) text maxSize2 0.

(** The class of [text.split(/([。！？.!?])/)]. *)
Definition isSentencePunctuation (c : N) : bool :=
  ((c =? 46) || (c =? 33) || (c =? 63)
   || (c =? 12290) || (c =? 65281) || (c =? 65311))%N.

(** Split with a capturing group: texts and separators alternate. *)
Fixpoint splitCapture (s cur : JsString) : list JsString :=
  match s with
  | [] => [cur]
  | c :: r =>
      if isSentencePunctuation c then cur :: [c] :: splitCapture r []
      else splitCapture r (cur ++ [c])
  end.

Fixpoint joinSentenceParts (parts : list JsString) : list JsString :=
  match parts with
  | sentence :: punctuation :: rest =>
      (if truthy (trim sentence) then [sentence ++ punctuation] else [])
      ++ joinSentenceParts rest
  | [lastPart] => if truthy (trim lastPart) then [lastPart] else []
  | [] => []
  end.

Definition splitIntoSentences (text : JsString) : list JsString :=
  if negb (preserveSentences options) then [text]
  else joinSentenceParts (splitCapture text []).

Definition flush (segments : list JsString) (currentSegment : JsString) :=
  if truthy currentSegment then segments ++ [currentSegment] else segments.

Definition splitLongStep (maxSize2 : nat)
    (st : list JsString * JsString) (sentence : JsString)
    : option (list JsString * JsString) :=
  let '(segments, currentSegment) := st in
  if maxSize2 <? 2 * length sentence then
    splitSentences ← splitByFixedLength sentence maxSize2;
    Some (flush segments currentSegment ++ splitSentences, [])
  else if maxSize2 <? 2 * (length currentSegment + length sentence) then
    Some (flush segments currentSegment, sentence)
  else Some (segments, currentSegment ++ sentence).

Fixpoint foldOpt {A B : Type} (f : A -> B -> option A) (l : list B) (a : A)
    : option A :=
  match l with
  | [] => Some a
  | b :: r => a' ← f a b; foldOpt f r a'
  end.

Definition splitLongParagraph (text : JsString) (maxSize2 : nat)
    : option (list JsString) :=
  if 2 * length text <=? maxSize2 then Some [text]
  else
    let sentences := splitIntoSentences text in
    if length sentences =? 0 then splitByFixedLength text maxSize2
    else
      st ← foldOpt (splitLongStep maxSize2) sentences ([], []);
      Some (flush st.1 st.2).

(** [text.split(/\n\s*\n/)]: a separator is a line feed, the longest run
    of white space after it, cut back to the last line feed of the run.
    [skip] counts the code units of a separator still to be dropped. *)
Fixpoint lastLineFeed (run : JsString) (i : nat) (found : option nat)
    : option nat :=
  match run with
  | [] => found
  | c :: r => lastLineFeed r (S i) (if (c =? 10)%N then Some i else found)
  end.

Fixpoint whiteSpaceRun (s : JsString) : JsString :=
  match s with
  | [] => []
  | c :: r => if isWhiteSpace c then c :: whiteSpaceRun r else []
  end.

Fixpoint splitParagraphs (s : JsString) (skip : nat) (cur : JsString)
    : list JsString :=
  match s with
  | [] => [cur]
  | c :: r =>
      match skip with
      | S k => splitParagraphs r k cur
      | 0 =>
          if (c =? 10)%N then
            match lastLineFeed (whiteSpaceRun r) 0 None with
            | Some j => cur :: splitParagraphs r (S j) []
            | None => splitParagraphs r 0 (cur ++ [c])
            end
          else splitParagraphs r 0 (cur ++ [c])
      end
  end.

(** [text.split('\n')]. *)
Fixpoint splitLines (s cur : JsString) : list JsString :=
  match s with
  | [] => [cur]
  | c :: r =>
      if (c =? 10)%N then cur :: splitLines r [] else splitLines r (cur ++ [c])
  end.

Definition preprocessStep (st : list JsString * JsString) (para : JsString)
    : option (list JsString * JsString) :=
  let '(processedSegments, currentSegment) := st in
  let trimmedPara := trim para in
  if negb (truthy trimmedPara) then Some st
  else if targetSegmentSize2 <? 2 * length trimmedPara then
    splitParas ← splitLongParagraph trimmedPara targetSegmentSize2;
    Some (flush processedSegments currentSegment ++ splitParas, [])
  else if targetSegmentSize2
            <? 2 * (length currentSegment + length trimmedPara + 2) then
    Some (flush processedSegments currentSegment, trimmedPara)
  else if truthy currentSegment then
    Some (processedSegments, currentSegment ++ [10%N; 10%N] ++ trimmedPara)
  else Some (processedSegments, trimmedPara).

Definition preprocessLargeText (text : JsString) : option (list JsString) :=
  if length text <=? maxTextLength options then Some [text]
  else
    let byParagraph := splitParagraphs text 0 [] in
    let paragraphs :=
      if length byParagraph <? 5 then splitLines text [] else byParagraph in
    st ← foldOpt preprocessStep paragraphs ([], []);
    Some (flush st.1 st.2).

Definition chunkSegments (fuel : nat) (segments : list JsString)
    : option (list JsString) :=
  foldOpt (fun allChunks segment =>
             segmentChunks ← chunkSingleSegment fuel segment;
             Some (allChunks ++ segmentChunks)) segments [].

(** [text.length < chunkSize / 10] is compared as [10 * length < chunkSize]. *)
Definition chunkText (fuel : nat) (text : JsString) : option (list JsString) :=
  if negb (truthy text) || (length (trim text) =? 0) then Some []
  else if 10 * length text <? chunkSize options then Some [trim text]
  else
    textSegments ← preprocessLargeText text;
    chunkSegments fuel textSegments.

End WithOptions.
End Chunker.

(** ** Reference definitions and sample inputs for the chunker *)

Module ChunkerSpec.
Import Js Chunker.

(** The bound on the length of a chunk. *)
Definition within_slack (o : ChunkingOptions) (chunk : JsString) : Prop :=
  length chunk <= chunkSize o + 100.

(** Length of the longest segment. *)
Definition longest (segments : list JsString) : nat :=
  foldr (fun segment m => Nat.max (length segment) m) 0 segments.

Definition sampleOptions : ChunkingOptions :=
  {| chunkSize := 20; overlap := 5; maxTextLength := 1000;
     preserveSentences := true; multilingualSupport := false |}.

Definition sampleText : JsString :=
  js "One short sentence. Another one follows here! And a third, longer one?".

Definition sampleChunks : list JsString :=
  Eval vm_compute in default [] (chunkText sampleOptions 100 sampleText).

(** The options of the failing run: the overlap equals the chunk size. *)
Definition stuckOptions : ChunkingOptions :=
  {| chunkSize := 10; overlap := 10; maxTextLength := 1000;
     preserveSentences := false; multilingualSupport := false |}.

Definition stuckText : JsString := js "aaaaaaaaaaaa".

End ChunkerSpec.

(** ** EmbeddingManager: cache and retry around the embedding provider *)

Module EmbeddingManager.
Import Js.

(** An embedding, [number[]]. *)
Definition Vector : Type := list Q.

(** A promise settles with a value or with an error. *)
Inductive Outcome (A : Type) : Type :=
| Resolved (value : A)
| Rejected (error : JsString).
Arguments Resolved {A} value.
Arguments Rejected {A} error.

(** [Buffer.from(text)]: the UTF-8 bytes of a string of UTF-16 code units;
    a surrogate that is not part of a pair becomes U+FFFD. *)
Fixpoint utf8 (text : JsString) : list N :=
  match text with
  | [] => []
  | c :: r =>
      if (c <? 128)%N then c :: utf8 r
      else if (c <? 2048)%N then
        (192 + c / 64)%N :: (128 + c mod 64)%N :: utf8 r
      else if ((55296 <=? c) && (c <=? 56319))%N then
        match r with
        | d :: r' =>
            if ((56320 <=? d) && (d <=? 57343))%N then
              let cp := (65536 + (c - 55296) * 1024 + (d - 56320))%N in
              (240 + cp / 262144)%N :: (128 + (cp / 4096) mod 64)%N
                :: (128 + (cp / 64) mod 64)%N :: (128 + cp mod 64)%N :: utf8 r'
            else 239%N :: 191%N :: 189%N :: utf8 r
        | [] => [239%N; 191%N; 189%N]
        end
      else if ((56320 <=? c) && (c <=? 57343))%N then
        239%N :: 191%N :: 189%N :: utf8 r
      else
        (224 + c / 4096)%N :: (128 + (c / 64) mod 64)%N
          :: (128 + c mod 64)%N :: utf8 r
  end.

(** The base64 alphabet, by 6-bit value. *)
Definition base64Digit (v : N) : N :=
  if (v <? 26)%N then (65 + v)%N
  else if (v <? 52)%N then (97 + (v - 26))%N
  else if (v <? 62)%N then (48 + (v - 52))%N
  else if (v =? 62)%N then 43%N
  else 47%N.

(** [buffer.toString('base64')]: three bytes give four digits, the tail is
    padded with [=]. *)
Fixpoint base64 (bytes : list N) : JsString :=
  match bytes with
  | a :: b :: c :: r =>
      base64Digit (a / 4) :: base64Digit ((a mod 4) * 16 + b / 16)
        :: base64Digit ((b mod 16) * 4 + c / 64) :: base64Digit (c mod 64)
        :: base64 r
  | [a; b] =>
      [base64Digit (a / 4); base64Digit ((a mod 4) * 16 + b / 16);
       base64Digit ((b mod 16) * 4); 61%N]
  | [a] => [base64Digit (a / 4); base64Digit ((a mod 4) * 16); 61%N; 61%N]
  | [] => []
  end.

Definition generateCacheKey (text : JsString) : JsString :=
  js "embedding:" ++ substring0 (base64 (utf8 text)) 32.

(** An entry of the cache object.  [embedding] is [None] when the stored
    value is [undefined]. *)
Record CacheEntry := {
  embedding : option Vector;
  timestamp : Z;
  ttl : Z
}.

Definition cacheTTL : Z := 24 * 60 * 60 * 1000.

Record EmbeddingConfig := {
  retryAttempts : option nat;
  retryDelay : option nat
}.

(** [x || d] on an optional number: [undefined] and 0 give the default. *)
Definition orDefault (x : option nat) (d : nat) : nat :=
  match x with
  | Some (S n) => S n
  | _ => d
  end.

(** What the manager cannot decide: the value of each reading of
    [Date.now()] and the answer of each call to the provider, both by their
    rank in the run. *)
Record World := {
  dateNow : nat -> Z;
  providerEmbedQuery : nat -> JsString -> Outcome Vector;
  providerEmbedDocuments : nat -> list JsString -> Outcome (list Vector)
}.

Inductive ProviderCall :=
| EmbedQueryCall (text : JsString)
| EmbedDocumentsCall (texts : list JsString).

Record State := {
  cache : gmap JsString CacheEntry;
  clockReads : nat;
  providerCalls : list ProviderCall;
  delays : list nat
}.

Definition withCache (st : State) (c : gmap JsString CacheEntry) : State :=
  {| cache := c; clockReads := clockReads st;
     providerCalls := providerCalls st; delays := delays st |}.

(** State monad of the manager. *)
Definition M (A : Type) : Type := State -> A * State.

Definition ret {A} (a : A) : M A := fun st => (a, st).

Definition bind {A B} (m : M A) (k : A -> M B) : M B :=
  fun st => let '(a, st') := m st in k a st'.

Notation "x <- m ;; k" := (bind m (fun x => k))
  (at level 200, m at level 99, k at level 200, right associativity).

Section WithWorld.
Variable world : World.
Variable config : EmbeddingConfig.

Definition readClock : M Z :=
  fun st =>
    (dateNow world (clockReads st),
     {| cache := cache st; clockReads := S (clockReads st);
        providerCalls := providerCalls st; delays := delays st |}).

Definition callEmbedQuery (text : JsString) : M (Outcome Vector) :=
  fun st =>
    (providerEmbedQuery world (length (providerCalls st)) text,
     {| cache := cache st; clockReads := clockReads st;
        providerCalls := providerCalls st ++ [EmbedQueryCall text];
        delays := delays st |}).

Definition callEmbedDocuments (texts : list JsString)
    : M (Outcome (list Vector)) :=
  fun st =>
    (providerEmbedDocuments world (length (providerCalls st)) texts,
     {| cache := cache st; clockReads := clockReads st;
        providerCalls := providerCalls st ++ [EmbedDocumentsCall texts];
        delays := delays st |}).

Definition delay (ms : nat) : M unit :=
  fun st =>
    (tt, {| cache := cache st; clockReads := clockReads st;
            providerCalls := providerCalls st; delays := delays st ++ [ms] |}).

(** The clock is read only when the key has an entry. *)
Definition getFromCache (key : JsString) : M (option Vector) :=
  fun st =>
    match cache st !! key with
    | Some cached =>
        (current <- readClock ;;
         if (current - timestamp cached <? ttl cached)%Z
         then ret (embedding cached)
         else fun st' => (None, withCache st' (delete key (cache st')))) st
    | None => (None, st)
    end.

Definition setCache (key : JsString) (value : option Vector) : M unit :=
  current <- readClock ;;
  fun st =>
    (tt, withCache st
           (<[key := {| embedding := value; timestamp := current;
                        ttl := cacheTTL |}]> (cache st))).

(** [embedWithRetry(text, attempt)]; [remaining] is
    [(retryAttempts || 3) - attempt], so that [attempt < retryAttempts || 3]
    is [remaining > 0]. *)
Fixpoint embedWithRetryFrom (remaining : nat) (text : JsString)
    : M (Outcome Vector) :=
  answer <- callEmbedQuery text ;;
  match answer with
  | Resolved v => ret (Resolved v)
  | Rejected error =>
      match remaining with
      | S remaining' =>
          _ <- delay (orDefault (retryDelay config) 1000) ;;
          embedWithRetryFrom remaining' text
      | 0 => ret (Rejected error)
      end
  end.

Definition embedWithRetry (text : JsString) (attempt : nat)
    : M (Outcome Vector) :=
  embedWithRetryFrom (orDefault (retryAttempts config) 3 - attempt) text.

Definition embedQuery (text : JsString) : M (Outcome Vector) :=
  let cacheKey := generateCacheKey text in
  cached <- getFromCache cacheKey ;;
  match cached with
  | Some v => ret (Resolved v)
  | None =>
      answer <- embedWithRetry text 1 ;;
      match answer with
      | Resolved v => _ <- setCache cacheKey (Some v) ;; ret (Resolved v)
      | Rejected error => ret (Rejected error)
      end
  end.

(** [results[i] = v] on a JavaScript array: a write past the end extends
    the array with holes. *)
Definition arraySet {A} (arr : list (option A)) (i : nat) (v : option A)
    : list (option A) :=
  if i <? length arr then <[i := v]> arr
  else arr ++ replicate (i - length arr) None ++ [v].

(** First loop of [embedDocuments]: texts answered by the cache are written
    at their index, the others are collected with their index. *)
Fixpoint checkCache (texts : list JsString) (i : nat)
    (acc : list (option Vector) * list JsString * list nat)
    : M (list (option Vector) * list JsString * list nat) :=
  match texts with
  | [] => ret acc
  | text :: rest =>
      let '(results, uncachedTexts, uncachedIndices) := acc in
      cached <- getFromCache (generateCacheKey text) ;;
      match cached with
      | Some v => checkCache rest (S i) (arraySet results i (Some v),
                                        uncachedTexts, uncachedIndices)
      | None => checkCache rest (S i) (results, uncachedTexts ++ [text],
                                      uncachedIndices ++ [i])
      end
  end.

(** Second loop: the [i]-th new embedding goes to the index recorded for
    the [i]-th uncached text and into the cache under that text's key. *)
Fixpoint writeBack (uncachedIndices : list nat) (i : nat)
    (uncachedTexts : list JsString) (newEmbeddings : list Vector)
    (results : list (option Vector)) : M (list (option Vector)) :=
  match uncachedIndices with
  | [] => ret results
  | originalIndex :: rest =>
      let embedding := newEmbeddings !! i in
      let results' := arraySet results originalIndex embedding in
      _ <- setCache (generateCacheKey (default [] (uncachedTexts !! i)))
             embedding ;;
      writeBack rest (S i) uncachedTexts newEmbeddings results'
  end.

Definition embedDocuments (texts : list JsString)
    : M (Outcome (list (option Vector))) :=
  partition <- checkCache texts 0 ([], [], []) ;;
  let '(results, uncachedTexts, uncachedIndices) := partition in
  if 0 <? length uncachedTexts then
    answer <- callEmbedDocuments uncachedTexts ;;
    match answer with
    | Resolved newEmbeddings =>
        results' <- writeBack uncachedIndices 0 uncachedTexts newEmbeddings
                      results ;;
        ret (Resolved results')
    | Rejected error => ret (Rejected error)
    end
  else ret (Resolved results).

End WithWorld.
End EmbeddingManager.

(** ** Reference functions for the batch embedding results *)

Module EmbeddingSpec.
Import Js EmbeddingManager.

(** The cache lookups of a batch, one per text and in input order. *)
Fixpoint cacheLookups (world : World) (texts : list JsString)
    : M (list (option Vector)) :=
  match texts with
  | [] => ret []
  | text :: rest =>
      cached <- getFromCache world (generateCacheKey text) ;;
      others <- cacheLookups world rest ;;
      ret (cached :: others)
  end.

(** The texts whose lookup found nothing, in input order. *)
Fixpoint uncachedOf (texts : list JsString) (hits : list (option Vector))
    : list JsString :=
  match texts, hits with
  | text :: ts, None :: hs => text :: uncachedOf ts hs
  | _ :: ts, Some _ :: hs => uncachedOf ts hs
  | _, _ => []
  end.

(** Their positions, counted from [i]. *)
Fixpoint uncachedIndicesOf (i : nat) (hits : list (option Vector)) : list nat :=
  match hits with
  | [] => []
  | None :: hs => i :: uncachedIndicesOf (S i) hs
  | Some _ :: hs => uncachedIndicesOf (S i) hs
  end.


(** An array read as a list of [n] slots: slots past its end are empty. *)
Definition pad (n : nat) (arr : list (option Vector)) : list (option Vector) :=
  arr ++ replicate (n - length arr) None.


(** Some text in positions [j .. j + count - 1] of the uncached texts has
    this key. *)
Definition keyWritten (uncachedTexts : list JsString) (j count : nat)
    (key : JsString) (k : nat) : Prop :=
  j <= k < j + count
  /\ exists text, uncachedTexts !! k = Some text /\ generateCacheKey text = key.

(** Sample worlds, configuration and texts. *)
Definition flakyWorld : World :=
  {| dateNow := fun k => (1000 + Z.of_nat k)%Z;
     providerEmbedQuery := fun k _ =>
       if k <? 2 then Rejected (js "503 Service Unavailable")
       else Resolved [1 # 2; 1 # 4];
     providerEmbedDocuments := fun _ texts =>
       Resolved (map (fun _ => [1 # 2; 1 # 4]) texts) |}.

Definition steadyWorld : World :=
  {| dateNow := fun k => (1000 + Z.of_nat k)%Z;
     providerEmbedQuery := fun _ _ => Resolved [1 # 2; 1 # 4];
     providerEmbedDocuments := fun _ texts =>
       Resolved (map (fun _ => [1 # 2; 1 # 4]) texts) |}.

Definition threeAttempts : EmbeddingConfig :=
  {| retryAttempts := Some 3; retryDelay := Some 1000 |}.

Definition emptyState : State :=
  {| cache := ∅; clockReads := 0; providerCalls := []; delays := [] |}.

Definition reportA : JsString :=
  js "Annual sustainability report 2023: emissions".

Definition reportB : JsString :=
  js "Annual sustainability report 2024: water use".

(** A provider whose vector for a text is the length of the text, and a
    state in which one text of the batch is already cached. *)
Definition lengthWorld : World :=
  {| dateNow := fun k => (1000 + Z.of_nat k)%Z;
     providerEmbedQuery := fun _ text =>
       Resolved [inject_Z (Z.of_nat (length text))];
     providerEmbedDocuments := fun _ texts =>
       Resolved (map (fun text => [inject_Z (Z.of_nat (length text))]) texts) |}.

Definition batchTexts : list JsString :=
  [js "first"; js "cached text"; js "third one"].




End EmbeddingSpec.

(** ** Graph writer: GraphStructureBuilder over the graph store *)

Module GraphWriter.
Import Js.

(** The properties of a [ChunkNode] that the builder reads. *)
Record ChunkNode := {
  text : JsString;
  chunk_length : nat;
  tokens : nat
}.

Record ProcessedDocument := {
  filename : JsString;
  filePath : JsString;
  chunks : list ChunkNode
}.

(** Nodes and relationships of the store, as far as the builder writes
    them.  Documents are keyed by [fileName], chunks by [id]; a relationship
    is the pair of the keys of its source and its target. *)
Record DocumentProperties := {
  d_type : JsString;
  d_uri : JsString;
  d_domain : JsString
}.

Record ChunkProperties := {
  c_text : JsString;
  c_position : nat;
  c_length : nat;
  c_fileName : JsString;
  c_content_offset : nat;
  c_tokens : nat;
  c_chunk_index : nat;
  c_embedding : option (list Q)
}.

Record Graph := {
  documentNodes : gmap JsString DocumentProperties;
  chunkNodes : gmap JsString ChunkProperties;
  partOf : gset (JsString * JsString);
  firstChunk : gset (JsString * JsString);
  nextChunk : gset (JsString * JsString)
}.

Definition emptyGraph : Graph :=
  {| documentNodes := ∅; chunkNodes := ∅; partOf := ∅; firstChunk := ∅;
     nextChunk := ∅ |}.

(** Rows sent to the store. *)
Record ChunkData := {
  id : JsString;
  pg_content : JsString;
  position : nat;
  data_length : nat;
  f_name : JsString;
  previous_id : JsString;
  content_offset : nat;
  data_tokens : nat;
  data_embedding : option (list Q)
}.

Record FirstRelationship := { chunk_id : JsString }.

Record NextRelationship := {
  previous_chunk_id : JsString;
  current_chunk_id : JsString
}.

(** [MERGE (d:__Document__ {fileName}) SET ...]. *)
Definition createDocument (type uri fileName domain : JsString) (g : Graph)
    : Graph :=
  {| documentNodes :=
       <[fileName := {| d_type := type; d_uri := uri; d_domain := domain |}]>
         (documentNodes g);
     chunkNodes := chunkNodes g; partOf := partOf g;
     firstChunk := firstChunk g; nextChunk := nextChunk g |}.

(** One row of [MERGE (c:__Chunk__ {id: data.id}) SET ... WITH c, data
    MATCH (d:__Document__ {fileName: data.f_name}) MERGE (c)-[:PART_OF]->(d)]:
    the node is written in any case, the relationship only when the
    document is matched. *)
Definition mergeChunk (g : Graph) (data : ChunkData) : Graph :=
  {| documentNodes := documentNodes g;
     chunkNodes :=
       <[id data := {| c_text := pg_content data; c_position := position data;
                       c_length := data_length data;
                       c_fileName := f_name data;
                       c_content_offset := content_offset data;
                       c_tokens := data_tokens data;
                       c_chunk_index := position data;
                       c_embedding := data_embedding data |}]> (chunkNodes g);
     partOf :=
       if decide (is_Some (documentNodes g !! f_name data))
       then {[ (id data, f_name data) ]} ∪ partOf g else partOf g;
     firstChunk := firstChunk g; nextChunk := nextChunk g |}.

(** One row of [MATCH (d {fileName: $f_name}) MATCH (c {id: chunkId})
    MERGE (d)-[:FIRST_CHUNK]->(c)]. *)
Definition mergeFirstChunk (fileName : JsString) (g : Graph)
    (relationship : FirstRelationship) : Graph :=
  if decide (is_Some (documentNodes g !! fileName)
             /\ is_Some (chunkNodes g !! chunk_id relationship))
  then {| documentNodes := documentNodes g; chunkNodes := chunkNodes g;
          partOf := partOf g;
          firstChunk := {[ (fileName, chunk_id relationship) ]} ∪ firstChunk g;
          nextChunk := nextChunk g |}
  else g.

(** One row of [MATCH (c {id: currentChunkId}) MATCH (pc {id:
    previousChunkId}) MERGE (pc)-[:NEXT_CHUNK]->(c)]. *)
Definition mergeNextChunk (g : Graph) (relationship : NextRelationship)
    : Graph :=
  if decide (is_Some (chunkNodes g !! current_chunk_id relationship)
             /\ is_Some (chunkNodes g !! previous_chunk_id relationship))
  then {| documentNodes := documentNodes g; chunkNodes := chunkNodes g;
          partOf := partOf g; firstChunk := firstChunk g;
          nextChunk :=
            {[ (previous_chunk_id relationship,
                current_chunk_id relationship) ]} ∪ nextChunk g |}
  else g.

Definition createChunksAndRelationshipsOptimized (fileName : JsString)
    (batchData : list ChunkData) (firstRelationships : list FirstRelationship)
    (nextRelationships : list NextRelationship) (g : Graph) : Graph :=
  match batchData with
  | [] => g
  | _ =>
      let g1 := foldl mergeChunk g batchData in
      let g2 :=
        match firstRelationships with
        | [] => g1
        | _ => foldl (mergeFirstChunk fileName) g1 firstRelationships
        end in
      match nextRelationships with
      | [] => g2
      | _ => foldl mergeNextChunk g2 nextRelationships
      end
  end.

Section WithBuilder.
(** [crypto.createHash('md5').update(content).digest('hex')]. *)
Variable generateHash : JsString -> JsString.
Variable batchSize : nat.

(** The variables of the loop of [createRelationBetweenChunks]. *)
Record BuilderState := {
  lstChunksIncludingHash : list (JsString * ChunkNode);
  batchData : list ChunkData;
  firstRelationships : list FirstRelationship;
  nextRelationships : list NextRelationship;
  offset : nat;
  graph : Graph
}.

Definition lastChunkId (lst : list (JsString * ChunkNode)) : JsString :=
  match last lst with
  | Some entry => entry.1
  | None => []
  end.

(** First part of a turn of the loop, for [chunks[i] = chunk]: the rows of
    the chunk are pushed to the pending arrays. *)
Definition pushRows (fileName : JsString) (allChunks : list ChunkNode)
    (i : nat) (chunk : ChunkNode) (st : BuilderState) : BuilderState :=
  let pageContent := text chunk in
  let currentChunkId := generateHash pageContent in
  let position := i + 1 in
  let previousChunkId :=
    if i =? 0 then currentChunkId
    else lastChunkId (lstChunksIncludingHash st) in
  let offset' :=
    if 0 <? i then
      offset st + match allChunks !! (i - 1) with
                  | Some lastChunk => length (text lastChunk)
                  | None => 0
                  end
    else offset st in
  let chunkData :=
    {| id := currentChunkId; pg_content := pageContent; position := position;
       data_length := chunk_length chunk; f_name := fileName;
       previous_id := previousChunkId; content_offset := offset';
       data_tokens := tokens chunk; data_embedding := None |} in
  {| lstChunksIncludingHash :=
       lstChunksIncludingHash st ++ [(currentChunkId, chunk)];
     batchData := batchData st ++ [chunkData];
     firstRelationships :=
       if i =? 0
       then firstRelationships st ++ [{| chunk_id := currentChunkId |}]
       else firstRelationships st;
     nextRelationships :=
       if i =? 0 then nextRelationships st
       else nextRelationships st
              ++ [{| previous_chunk_id := previousChunkId;
                     current_chunk_id := currentChunkId |}];
     offset := offset';
     graph := graph st |}.

(** Second part: the pending rows are written and the arrays cleared. *)
Definition flushBatch (fileName : JsString) (st : BuilderState) : BuilderState :=
  {| lstChunksIncludingHash := lstChunksIncludingHash st;
     batchData := []; firstRelationships := []; nextRelationships := [];
     offset := offset st;
     graph := createChunksAndRelationshipsOptimized fileName (batchData st)
                (firstRelationships st) (nextRelationships st) (graph st) |}.

Definition processChunk (fileName : JsString) (allChunks : list ChunkNode)
    (i : nat) (chunk : ChunkNode) (st : BuilderState) : BuilderState :=
  let st' := pushRows fileName allChunks i chunk st in
  if batchSize <=? length (batchData st') then flushBatch fileName st'
  else st'.

Fixpoint processChunks (fileName : JsString) (allChunks : list ChunkNode)
    (i : nat) (rest : list ChunkNode) (st : BuilderState) : BuilderState :=
  match rest with
  | [] => st
  | chunk :: rest' =>
      processChunks fileName allChunks (S i) rest'
        (processChunk fileName allChunks i chunk st)
  end.

Definition createRelationBetweenChunks (fileName : JsString)
    (allChunks : list ChunkNode) (g : Graph)
    : list (JsString * ChunkNode) * Graph :=
  let st := processChunks fileName allChunks 0 allChunks
              {| lstChunksIncludingHash := []; batchData := [];
                 firstRelationships := []; nextRelationships := [];
                 offset := 0; graph := g |} in
  (lstChunksIncludingHash st,
   match batchData st with
   | [] => graph st
   | _ => createChunksAndRelationshipsOptimized fileName (batchData st)
            (firstRelationships st) (nextRelationships st) (graph st)
   end).

Definition processDocument (document : ProcessedDocument) (g : Graph) : Graph :=
  (createRelationBetweenChunks (filename document) (chunks document)
     (createDocument (js "document") (filePath document) (filename document)
        (js "general") g)).2.

End WithBuilder.
End GraphWriter.

(** ** Reading the order chain back from the graph *)

Module GraphSpec.
Import Js GraphWriter.

(** Targets of the relationships of a set that leave [source]. *)
Definition targetsFrom (edges : gset (JsString * JsString)) (source : JsString)
    : list JsString :=
  (elements (filter (fun edge => edge.1 = source) edges)).*2.

(** Follow NEXT_CHUNK from [current]: the walk ends at a chunk without a
    successor; [None] when the walk branches or does not end within [fuel]
    steps. *)
Fixpoint followChain (fuel : nat) (g : Graph) (current : JsString)
    : option (list JsString) :=
  match fuel with
  | 0 => None
  | S fuel' =>
      match targetsFrom (nextChunk g) current with
      | [] => Some [current]
      | [next] => (current ::.) <$> followChain fuel' g next
      | _ => None
      end
  end.

(** Chain integrity of a document with [n] chunks: one FIRST_CHUNK
    relationship, and the walk from its target ends after [n] different
    chunks. *)
Definition ChainIntegrity (g : Graph) (fileName : JsString) (n : nat) : Prop :=
  exists firstId fuel visited,
    targetsFrom (firstChunk g) fileName = [firstId]
    /\ followChain fuel g firstId = Some visited
    /\ length visited = n
    /\ NoDup visited.

(** The relationships between neighbours of a list of chunk ids. *)
Fixpoint consecutive (ids : list JsString) : gset (JsString * JsString) :=
  match ids with
  | a :: (b :: _) as rest => {[ (a, b) ]} ∪ consecutive rest
  | _ => ∅
  end.

(** The relationships asked for by pending rows. *)
Definition firstEdges (fileName : JsString) (rels : list FirstRelationship)
    : gset (JsString * JsString) :=
  list_to_set (map (fun r => (fileName, chunk_id r)) rels).

Definition nextEdges (rels : list NextRelationship)
    : gset (JsString * JsString) :=
  list_to_set (map (fun r => (previous_chunk_id r, current_chunk_id r)) rels).

Definition firstEdgeOf (fileName : JsString) (ids : list JsString)
    : gset (JsString * JsString) :=
  match ids with
  | firstId :: _ => {[ (fileName, firstId) ]}
  | [] => ∅
  end.

(** What holds of the loop variables of [createRelationBetweenChunks] when
    the chunks with ids [done] have been processed, starting from graph
    [g0]: written and pending relationships together are those of [done],
    and every pending row refers to chunks that exist or are pending. *)
Record BuilderInvariant (fileName : JsString) (g0 : Graph)
    (done : list JsString) (st : BuilderState) : Prop := {
  inv_lst : (lstChunksIncludingHash st).*1 = done;
  inv_next : nextChunk (graph st) ∪ nextEdges (nextRelationships st)
             = nextChunk g0 ∪ consecutive done;
  inv_first : firstChunk (graph st)
                ∪ firstEdges fileName (firstRelationships st)
              = firstChunk g0 ∪ firstEdgeOf fileName done;
  inv_document : is_Some (documentNodes (graph st) !! fileName);
  inv_nodes : forall x, x ∈ done ->
              is_Some (chunkNodes (graph st) !! x)
              \/ x ∈ map id (batchData st);
  inv_first_rows : forall r, r ∈ firstRelationships st -> chunk_id r ∈ done;
  inv_next_rows : forall r, r ∈ nextRelationships st ->
                  previous_chunk_id r ∈ done /\ current_chunk_id r ∈ done;
  inv_pending : batchData st = [] ->
                firstRelationships st = [] /\ nextRelationships st = []
}.

(** A document whose first and third chunk have the same text. *)
Definition repeatingDocument : ProcessedDocument :=
  {| filename := js "report.md"; filePath := js "docs/report.md";
     chunks := [ {| text := js "Scope 1"; chunk_length := 7; tokens := 2 |};
                 {| text := js "Scope 2"; chunk_length := 7; tokens := 2 |};
                 {| text := js "Scope 1"; chunk_length := 7; tokens := 2 |} ] |}.

Definition plainDocument : ProcessedDocument :=
  {| filename := js "report.md"; filePath := js "docs/report.md";
     chunks := [ {| text := js "Scope 1"; chunk_length := 7; tokens := 2 |};
                 {| text := js "Scope 2"; chunk_length := 7; tokens := 2 |};
                 {| text := js "Scope 3"; chunk_length := 7; tokens := 2 |} ] |}.

End GraphSpec.

(** ** JavaScript numbers, as far as scores need them *)

Module Numbers.

Inductive JsNumber :=
| Finite (q : Q)
| PosInfinity
| NegInfinity
| NaN.

(** [Math.min(a, b)] and [Math.max(a, b)]. *)
Definition mathMin (a b : JsNumber) : JsNumber :=
  match a, b with
  | NaN, _ | _, NaN => NaN
  | NegInfinity, _ | _, NegInfinity => NegInfinity
  | PosInfinity, x | x, PosInfinity => x
  | Finite x, Finite y => if Qle_bool x y then Finite x else Finite y
  end.

Definition mathMax (a b : JsNumber) : JsNumber :=
  match a, b with
  | NaN, _ | _, NaN => NaN
  | PosInfinity, _ | _, PosInfinity => PosInfinity
  | NegInfinity, x | x, NegInfinity => x
  | Finite x, Finite y => if Qle_bool x y then Finite y else Finite x
  end.

(** [a / 100]. *)
Definition divideBy100 (a : JsNumber) : JsNumber :=
  match a with
  | Finite x => Finite (x / 100)
  | other => other
  end.

(** [a - b]. *)
Definition subtract (a b : JsNumber) : JsNumber :=
  match a, b with
  | NaN, _ | _, NaN => NaN
  | Finite x, Finite y => Finite (x - y)
  | PosInfinity, PosInfinity | NegInfinity, NegInfinity => NaN
  | PosInfinity, _ | _, NegInfinity => PosInfinity
  | NegInfinity, _ | _, PosInfinity => NegInfinity
  end.

(** [a > 0]. *)
Definition isPositive (a : JsNumber) : bool :=
  match a with
  | Finite x => negb (Qle_bool x 0)
  | PosInfinity => true
  | _ => false
  end.

(** [a >= b]. *)
Definition greaterOrEqual (a b : JsNumber) : bool :=
  match a, b with
  | NaN, _ | _, NaN => false
  | PosInfinity, _ | _, NegInfinity => true
  | NegInfinity, _ | _, PosInfinity => false
  | Finite x, Finite y => Qle_bool y x
  end.

(** [array.sort(compare)] for a comparator that orders consistently: the
    sort is stable, and [after a b] says that [compare(a, b) > 0], that is,
    that [a] belongs after [b].  An element is inserted before the first
    element that belongs after it. *)
Fixpoint insertSorted {A} (after : A -> A -> bool) (x : A) (sorted : list A)
    : list A :=
  match sorted with
  | [] => [x]
  | y :: rest =>
      if after y x then x :: sorted else y :: insertSorted after x rest
  end.

Definition sortWith {A} (after : A -> A -> bool) (l : list A) : list A :=
  foldl (fun sorted x => insertSorted after x sorted) [] l.

(** [array.slice(0, limit)] for an integer [limit]: a negative limit counts
    from the end. *)
Definition slice0 {A} (l : list A) (limit : Z) : list A :=
  if (limit <? 0)%Z then take (length l - Z.to_nat (- limit)) l
  else take (Z.to_nat limit) l.

(** [x || d] on optional numbers: [undefined] and 0 give the default. *)
Definition orZ (x : option Z) (d : Z) : Z :=
  match x with
  | Some v => if (v =? 0)%Z then d else v
  | None => d
  end.

Definition orQ (x : option Q) (d : Q) : Q :=
  match x with
  | Some v => if Qeq_bool v 0 then d else v
  | None => d
  end.

End Numbers.

(** ** The graph store as the search queries read it *)

Module Store.
Import Js Numbers EmbeddingManager.

Record ChunkRow := {
  c_id : JsString;
  c_text : JsString;
  c_chunk_index : nat;
  c_fileName : option JsString;
  c_document_id : option JsString;
  c_embedding : option Vector
}.

(** Chunk nodes in the order a scan returns them, and the NEXT_CHUNK
    relationships as pairs of chunk ids. *)
Record Store := {
  chunkRows : list ChunkRow;
  nextChunkEdges : list (JsString * JsString)
}.

(** [LIMIT $n]: the store rejects a negative limit. *)
Definition limitRows {A} (limit : Z) (rows : list A) : Outcome (list A) :=
  if (limit <? 0)%Z then Rejected (js "LIMIT: invalid input")
  else Resolved (take (Z.to_nat limit) rows).

Definition findChunk (store : Store) (chunkId : JsString) : option ChunkRow :=
  find (fun row => bool_decide (c_id row = chunkId)) (chunkRows store).

(** Chunks one NEXT_CHUNK hop after (or, with [backward], before) one of
    the chunks of [frontier]. *)
Definition hop (edges : list (JsString * JsString)) (backward : bool)
    (frontier : list JsString) : list JsString :=
  flat_map (fun current =>
              flat_map (fun edge =>
                          if backward
                          then if bool_decide (edge.2 = current)
                               then [edge.1] else []
                          else if bool_decide (edge.1 = current)
                               then [edge.2] else [])
                       edges)
           frontier.

(** Ends of the variable-length pattern [-[:NEXT_CHUNK*1..n]->]: the chunks
    1 to [n] hops away. *)
Fixpoint withinHops (edges : list (JsString * JsString)) (backward : bool)
    (n : nat) (frontier : list JsString) : list JsString :=
  match n with
  | 0 => []
  | S n' =>
      let next := hop edges backward frontier in
      next ++ withinHops edges backward n' next
  end.

(** [String.prototype.includes] / Cypher [CONTAINS]: literal substring. *)
Fixpoint startsWith (s prefix : JsString) : bool :=
  match prefix, s with
  | [], _ => true
  | p :: prefix', c :: s' => (p =? c)%N && startsWith s' prefix'
  | _ :: _, [] => false
  end.

Fixpoint contains (s part : JsString) : bool :=
  startsWith s part
  || match s with
     | [] => false
     | _ :: s' => contains s' part
     end.

(** Lower-casing of the letters A to Z, code unit by code unit: what
    Cypher's [toLower] does on ASCII text. *)
Definition toLowerUnit (c : N) : N :=
  if ((65 <=? c) && (c <=? 90))%N then (c + 32)%N else c.

Definition toLower (s : JsString) : JsString := map toLowerUnit s.

End Store.

(** ** VectorSearchService *)

Module VectorSearch.
Import Js Numbers EmbeddingManager Store.

Record Metadata := {
  fileName : option JsString;
  documentId : option JsString;
  chunkIndex : nat
}.

Record SearchResult := {
  id : JsString;
  text : JsString;
  score : Q;
  metadata : Metadata
}.

Record SearchOptions := {
  topK : option Z;
  threshold : option Q;
  includeAdjacentChunks : bool;
  contextWindow : option Z
}.

Definition ensureIntegerTopK (topK : option Z) (defaultValue : Z) : Z :=
  match topK with
  | None => defaultValue
  | Some k => k
  end.

(** [compare(a, b) = b.score - a.score > 0]. *)
Definition lowerScore (a b : SearchResult) : bool :=
  negb (Qle_bool (score b) (score a)).

Section WithProvider.
(** The embedding model and the similarity function of the store;
    [cosine] is [None] where the store computes no number. *)
Variable embedQuery : JsString -> Outcome Vector.
Variable cosine : Vector -> Vector -> option Q.
Variable store : Store.

Definition toResult (row : ChunkRow) (rowScore : Q) : SearchResult :=
  {| id := c_id row; text := c_text row; score := rowScore;
     metadata := {| fileName := c_fileName row;
                    documentId := c_document_id row;
                    chunkIndex := c_chunk_index row |} |}.

(** Rows of [WHERE c.embedding IS NOT NULL WITH c,
    gds.similarity.cosine(c.embedding, $queryVector) AS similarity WHERE
    similarity >= $threshold]. *)
Definition similarRows (queryVector : Vector) (minimum : Q)
    : list SearchResult :=
  flat_map (fun row =>
              match c_embedding row with
              | Some vector =>
                  match cosine vector queryVector with
                  | Some similarity =>
                      if Qle_bool minimum similarity
                      then [toResult row similarity] else []
                  | None => []
                  end
              | None => []
              end)
           (chunkRows store).

Definition searchSimilarVectors (queryVector : Vector) (options : SearchOptions)
    : Outcome (list SearchResult) :=
  let k := ensureIntegerTopK (topK options) 10 in
  let minimum := orQ (threshold options) (1 # 2) in
  limitRows k (sortWith lowerScore (similarRows queryVector minimum)).

Definition search (query : JsString) (options : SearchOptions)
    : Outcome (list SearchResult) :=
  match embedQuery query with
  | Resolved queryVector => searchSimilarVectors queryVector options
  | Rejected error => Rejected error
  end.

(** The fixed score of a neighbour row. *)
Definition adjacentScore : Q := 8 # 10.

Definition adjacentRow (chunkId : JsString) : list SearchResult :=
  match findChunk store chunkId with
  | Some row => [toResult row adjacentScore]
  | None => []
  end.

(** [UNION] keeps one copy of equal rows; rows of one chunk are equal. *)
Fixpoint distinctIds (ids seen : list JsString) : list JsString :=
  match ids with
  | [] => []
  | x :: rest =>
      if bool_decide (x ∈ seen) then distinctIds rest seen
      else x :: distinctIds rest (x :: seen)
  end.

(** A failing query (a negative bound in the pattern) is caught and gives
    no rows, as does a bound of 0. *)
Definition getAdjacentChunks (chunkId : JsString) (window : Z)
    : list SearchResult :=
  match findChunk store chunkId with
  | None => []
  | Some _ =>
      let n := Z.to_nat window in
      let forward := withinHops (nextChunkEdges store) false n [chunkId] in
      let backward := withinHops (nextChunkEdges store) true n [chunkId] in
      flat_map adjacentRow (distinctIds (forward ++ backward) [])
  end.

Fixpoint removeDuplicatesFrom (results : list SearchResult)
    (seen : list JsString) : list SearchResult :=
  match results with
  | [] => []
  | result :: rest =>
      if bool_decide (id result ∈ seen) then removeDuplicatesFrom rest seen
      else result :: removeDuplicatesFrom rest (id result :: seen)
  end.

Definition removeDuplicates (results : list SearchResult) : list SearchResult :=
  removeDuplicatesFrom results [].

(** The list built by the [for (const result of results)] loop. *)
Definition expand (window : Z) (results : list SearchResult)
    : list SearchResult :=
  flat_map (fun result => result :: getAdjacentChunks (id result) window)
           results.

Definition searchWithContext (query : JsString) (options : SearchOptions)
    : Outcome (list SearchResult) :=
  match search query options with
  | Rejected error => Rejected error
  | Resolved results =>
      if negb (includeAdjacentChunks options) || (length results =? 0)
      then Resolved results
      else
        let window := orZ (contextWindow options) 2 in
        Resolved (sortWith lowerScore
                    (removeDuplicates (expand window results)))
  end.

End WithProvider.
End VectorSearch.

(** ** UnifiedSearch *)

Module UnifiedSearch.
Import Js Numbers EmbeddingManager Store.

(** A raw score: a number, an object with optional numeric fields [low] and
    [high] (the integer objects of the store driver), or anything else. *)
Inductive JsValue :=
| JsNum (n : JsNumber)
| JsObject (low high : option JsNumber)
| JsOther.

Record ResultMetadata := {
  type : JsString;
  chunkId : JsString;
  documentId : JsString;
  chunkIndex : nat;
  searchMethod : JsString
}.

Record SearchResult := {
  content : JsString;
  source : JsString;
  score : JsValue;
  metadata : ResultMetadata
}.

(** [{...result, normalizedScore}]. *)
Record ScoredResult := {
  result : SearchResult;
  normalizedScore : JsNumber
}.

Record SearchQuery := {
  query : JsString;
  limit : option Z
}.

Record VectorSearchOptions := {
  topK : option Z;
  threshold : option Q;
  includeAdjacentChunks : option bool;
  contextWindow : option Z
}.

Record TextSearchOptions := { textLimit : option Z }.

Record SearchStrategy := {
  name : JsString;
  description : JsString;
  useVectorSearch : bool;
  useTextSearch : bool;
  vectorSearchOptions : option VectorSearchOptions;
  textSearchOptions : option TextSearchOptions
}.

Record UnifiedSearchOptions := {
  strategy : option (JsString + SearchStrategy);
  fallbackToText : option bool
}.

Definition vectorOnly : SearchStrategy :=
  {| name := js "vector-only";
     description := js "Only use vector search, suitable for semantic queries";
     useVectorSearch := true; useTextSearch := false;
     vectorSearchOptions :=
       Some {| topK := Some 8%Z; threshold := Some (5 # 10);
               includeAdjacentChunks := Some false;
               contextWindow := Some 2%Z |};
     textSearchOptions := None |}.

Definition hybridVectorHeavy : SearchStrategy :=
  {| name := js "hybrid-vector-heavy";
     description :=
       js ("Hybrid search with vector search as primary, "
           ++ "suitable for complex semantic queries")%string;
     useVectorSearch := true; useTextSearch := true;
     vectorSearchOptions :=
       Some {| topK := Some 8%Z; threshold := Some (5 # 10);
               includeAdjacentChunks := Some true;
               contextWindow := Some 2%Z |};
     textSearchOptions := Some {| textLimit := Some 2%Z |} |}.

Definition vectorWithContext : SearchStrategy :=
  {| name := js "vector-with-context";
     description :=
       js ("Vector search + context expansion, "
           ++ "provides more complete answer context (default strategy)")%string;
     useVectorSearch := true; useTextSearch := false;
     vectorSearchOptions :=
       Some {| topK := Some 8%Z; threshold := Some (5 # 10);
               includeAdjacentChunks := Some true;
               contextWindow := Some 2%Z |};
     textSearchOptions := None |}.

(** The map of predefined strategies. *)
Definition searchStrategies : gmap JsString SearchStrategy :=
  <[js "vector-only" := vectorOnly]>
    (<[js "hybrid-vector-heavy" := hybridVectorHeavy]>
       (<[js "vector-with-context" := vectorWithContext]> ∅)).

(** [normalizeScore]. *)
Definition clamp01 (n : JsNumber) : JsNumber :=
  mathMax (Finite 0) (mathMin (Finite 1) n).

Definition normalizeScore (raw : JsValue) : JsNumber :=
  match raw with
  | JsNum n => clamp01 n
  | JsObject (Some low) _ => clamp01 (divideBy100 low)
  | JsObject None (Some high) => clamp01 (divideBy100 high)
  | _ => Finite (5 # 10)
  end.

(** [compare(a, b) = b.normalizedScore - a.normalizedScore > 0]. *)
Definition lowerNormalizedScore (a b : ScoredResult) : bool :=
  isPositive (subtract (normalizedScore b) (normalizedScore a)).

Definition isValid (r : SearchResult) : bool :=
  truthy (content r) && (0 <? length (trim (content r))).

Definition orUnknown (s : JsString) : JsString :=
  if truthy s then s else js "unknown".

(** The deduplication key: source, an underscore, and the first 100 code
    units of the content. *)
Definition dedupKey (r : ScoredResult) : JsString :=
  orUnknown (source (result r)) ++ js "_"
    ++ (if truthy (content (result r))
        then substring0 (content (result r)) 100 else []).

Fixpoint deduplicate (results : list ScoredResult) (seen : list JsString)
    : list ScoredResult :=
  match results with
  | [] => []
  | r :: rest =>
      if bool_decide (dedupKey r ∈ seen) then deduplicate rest seen
      else r :: deduplicate rest (dedupKey r :: seen)
  end.

Definition qualityThreshold : Q := 1 # 100.

Definition passesQuality (r : ScoredResult) : bool :=
  greaterOrEqual (normalizedScore r) (Finite qualityThreshold).

(** Steps 2 to 5 of [optimizeResults], on the valid results. *)
Definition fuse (validResults : list SearchResult) : list ScoredResult :=
  let normalizedResults :=
    map (fun r => {| result := r; normalizedScore := normalizeScore (score r) |})
        validResults in
  let sorted := sortWith lowerNormalizedScore normalizedResults in
  let uniqueResults := deduplicate sorted [] in
  filter (fun r => passesQuality r = true) uniqueResults.

Definition optimizeResults (results : list SearchResult) (resultLimit : Z)
    : list ScoredResult :=
  let validResults := filter (fun r => isValid r = true) results in
  if length validResults =? 0 then []
  else slice0 (fuse validResults) resultLimit.

Section WithServices.
Variable embedQuery : JsString -> Outcome Vector.
Variable cosine : Vector -> Vector -> option Q.
Variable store : Store.
Variable strategies : gmap JsString SearchStrategy.

Definition resolveStrategy (requested : option (JsString + SearchStrategy))
    : SearchStrategy :=
  let defaultStrategy :=
    default vectorWithContext (strategies !! js "vector-with-context") in
  match requested with
  | Some (inl strategyName) =>
      match strategies !! strategyName with
      | Some found => found
      | None => defaultStrategy
      end
  | Some (inr custom) => custom
  | None => defaultStrategy
  end.

Definition noVectorOptions : VectorSearchOptions :=
  {| topK := None; threshold := None; includeAdjacentChunks := None;
     contextWindow := None |}.

Definition fromVector (r : VectorSearch.SearchResult) : SearchResult :=
  {| content := VectorSearch.text r;
     source :=
       match VectorSearch.fileName (VectorSearch.metadata r) with
       | Some fileName =>
           if truthy fileName then fileName else orUnknown (VectorSearch.id r)
       | None => orUnknown (VectorSearch.id r)
       end;
     score := JsNum (Finite (VectorSearch.score r));
     metadata :=
       {| type := js "vector_chunk";
          chunkId := orUnknown (VectorSearch.id r);
          documentId :=
            orUnknown (default [] (VectorSearch.documentId
                                     (VectorSearch.metadata r)));
          chunkIndex := VectorSearch.chunkIndex (VectorSearch.metadata r);
          searchMethod := js "vector" |} |}.

Definition performVectorSearch (q : SearchQuery)
    (given : option VectorSearchOptions) : Outcome (list SearchResult) :=
  let options := default noVectorOptions given in
  let adjacent := default false (includeAdjacentChunks options) in
  let k0 := orZ (topK options) 10 in
  let k := if adjacent then Z.max k0 8 else orZ (limit q) k0 in
  let serviceOptions :=
    {| VectorSearch.topK := Some k;
       VectorSearch.threshold := Some (orQ (threshold options) (5 # 10));
       VectorSearch.includeAdjacentChunks := adjacent;
       VectorSearch.contextWindow := Some (orZ (contextWindow options) 2) |} in
  let answer :=
    if adjacent
    then VectorSearch.searchWithContext embedQuery cosine store (query q)
           serviceOptions
    else VectorSearch.search embedQuery cosine store (query q) serviceOptions in
  match answer with
  | Rejected error => Rejected error
  | Resolved vectorResults =>
      let validResults :=
        filter (fun r => (truthy (VectorSearch.text r)
                          && (0 <? length (trim (VectorSearch.text r)))) = true)
               vectorResults in
      Resolved (map fromVector validResults)
  end.

(** A row of the text query: content, source ([c.id]), score and the chunk
    index used for ordering. *)
Record TextRow := {
  rowContent : JsString;
  rowSource : JsString;
  rowScore : Q;
  rowChunkIndex : nat
}.

Definition exactScore : Q := 8 # 10.
Definition weakScore : Q := 3 # 10.

(** [MATCH (c:__Chunk__) WHERE c.text CONTAINS $query] with the [CASE]
    score; [lower] is the [toLower] of the store. *)
Definition textRowsWith (lower : JsString -> JsString) (text : JsString)
    : list TextRow :=
  flat_map (fun row =>
              if contains (c_text row) text then
                [{| rowContent := c_text row; rowSource := c_id row;
                    rowScore :=
                      if contains (lower (c_text row)) (lower text)
                      then exactScore else weakScore;
                    rowChunkIndex := c_chunk_index row |}]
              else [])
           (chunkRows store).

(** [ORDER BY score DESC, c.chunk_index ASC]: [a] belongs after [b]. *)
Definition textRowAfter (a b : TextRow) : bool :=
  negb (Qle_bool (rowScore b) (rowScore a))
  || (Qeq_bool (rowScore a) (rowScore b)
      && (rowChunkIndex b <? rowChunkIndex a)).

Definition fromText (row : TextRow) : SearchResult :=
  {| content := rowContent row;
     source := orUnknown (rowSource row);
     score := JsNum (Finite (rowScore row));
     metadata :=
       {| type := js "text_chunk"; chunkId := orUnknown (rowSource row);
          documentId := []; chunkIndex := 0;
          searchMethod := js "text" |} |}.

Definition performTextSearchWith (lower : JsString -> JsString)
    (q : SearchQuery) (given : option TextSearchOptions)
    : Outcome (list SearchResult) :=
  let requested := match given with
                   | Some options => textLimit options
                   | None => None
                   end in
  let rowLimit := orZ requested (orZ (limit q) 10) in
  match limitRows rowLimit
          (sortWith textRowAfter (textRowsWith lower (query q))) with
  | Rejected error => Rejected error
  | Resolved results =>
      let validResults :=
        filter (fun row => (truthy (rowContent row)
                            && (0 <? length (trim (rowContent row)))
                            && truthy (rowSource row)) = true)
               results in
      Resolved (map fromText validResults)
  end.

(** The lexical branch over a store that lower-cases as [toLower] does. *)
Definition performTextSearch (q : SearchQuery)
    (given : option TextSearchOptions) : Outcome (list SearchResult) :=
  performTextSearchWith toLower q given.

(** The limit handed to [optimizeResults]. *)
Definition resultLimitOf (strategy : SearchStrategy) (q : SearchQuery) : Z :=
  let strategyTopK := match vectorSearchOptions strategy with
                      | Some options => topK options
                      | None => None
                      end in
  orZ strategyTopK (orZ (limit q) 10).

(** The results collected from the two branches; [Rejected] when the text
    search run as the fallback of a failed vector search fails too, which
    the outer [catch] turns into an empty answer. *)
Definition collect (q : SearchQuery) (options : UnifiedSearchOptions)
    (strategy : SearchStrategy) : Outcome (list SearchResult) :=
  let vectorPart :=
    if useVectorSearch strategy then
      match performVectorSearch q (vectorSearchOptions strategy) with
      | Resolved vectorResults => Resolved vectorResults
      | Rejected _ =>
          if negb (useTextSearch strategy)
             && negb (bool_decide (fallbackToText options = Some false))
          then performTextSearch q
                 (Some {| textLimit := Some (orZ (limit q) 10) |})
          else Resolved []
      end
    else Resolved [] in
  match vectorPart with
  | Rejected error => Rejected error
  | Resolved results =>
      if useTextSearch strategy then
        match performTextSearch q (textSearchOptions strategy) with
        | Resolved textResults => Resolved (results ++ textResults)
        | Rejected _ => Resolved results
        end
      else Resolved results
  end.

Definition search (q : SearchQuery) (options : UnifiedSearchOptions)
    : list ScoredResult :=
  let strategy := resolveStrategy (strategy options) in
  match collect q options strategy with
  | Resolved results => optimizeResults results (resultLimitOf strategy q)
  | Rejected _ => []
  end.

End WithServices.
End UnifiedSearch.

(** ** Reference predicates for search results *)

Module SearchSpec.
Import Js Numbers UnifiedSearch.

(** The normalized score is a number between 0 and 1. *)
Definition InUnitRange (r : ScoredResult) : Prop :=
  exists s, normalizedScore r = Finite s /\ (0 <= s)%Q /\ (s <= 1)%Q.

(** The clamp of a finite number, written out. *)
Definition clampQ (x : Q) : Q :=
  if Qle_bool 1 x then 1%Q else if Qle_bool 0 x then x else 0%Q.

End SearchSpec.

(** ** Sample stores and queries *)

Module SearchSamples.
Import Js Numbers EmbeddingManager Store UnifiedSearch.

(** Dot product; it is the cosine of the angle on vectors of length 1, which
    is what the sample stores hold. *)
Fixpoint dot (a b : Vector) : Q :=
  match a, b with
  | x :: a', y :: b' => (x * y + dot a' b')%Q
  | _, _ => 0%Q
  end.

Definition unitCosine (a b : Vector) : option Q := Some (Qred (dot a b)).

Definition queryEmbedding (text : JsString) : Outcome Vector :=
  Resolved [1%Q; 0%Q].

Definition failingEmbedding (text : JsString) : Outcome Vector :=
  Rejected (js "embedding provider unavailable").

(** Two chunks in document order.  The first has similarity 3/5 to the
    query vector, the second has no embedding. *)
Definition twoChunkStore : Store :=
  {| chunkRows :=
       [ {| c_id := js "c1"; c_text := js "Emission factors for lignite";
            c_chunk_index := 1; c_fileName := Some (js "factors.md");
            c_document_id := None; c_embedding := Some [3 # 5; 4 # 5] |};
         {| c_id := js "c2"; c_text := js "Table of Contents";
            c_chunk_index := 2; c_fileName := Some (js "factors.md");
            c_document_id := None; c_embedding := None |} ];
     nextChunkEdges := [ (js "c1", js "c2") ] |}.


Definition lowercaseQuery : SearchQuery :=
  {| query := js "emission"; limit := Some 10%Z |}.

Definition exactQuery : SearchQuery :=
  {| query := js "Emission"; limit := Some 10%Z |}.



Definition contextOptions : VectorSearch.SearchOptions :=
  {| VectorSearch.topK := Some 8%Z; VectorSearch.threshold := Some (5 # 10);
     VectorSearch.includeAdjacentChunks := true;
     VectorSearch.contextWindow := Some 2%Z |}.



End SearchSamples.

(** ** Reference description of the lexical branch *)

Module TextSearchSpec.
Import Js Numbers EmbeddingManager Store UnifiedSearch.

(** The chunks whose text contains the query as it is given. *)
Definition matchingChunks (store : Store) (text : JsString) : list ChunkRow :=
  filter (fun chunk => contains (c_text chunk) text = true) (chunkRows store).

(** The score that the [CASE] gives a chunk, with [lower] as [toLower]. *)
Definition caseScore (lower : JsString -> JsString) (text : JsString)
    (chunk : ChunkRow) : Q :=
  if contains (lower (c_text chunk)) (lower text)
  then exactScore else weakScore.

(** [ORDER BY score DESC, c.chunk_index ASC]: [a] does not come after
    [b]. *)
Definition RankedBefore (lower : JsString -> JsString) (text : JsString)
    (a b : ChunkRow) : Prop :=
  (caseScore lower text b < caseScore lower text a)%Q
  \/ ((caseScore lower text a == caseScore lower text b)%Q
      /\ c_chunk_index a <= c_chunk_index b).

(** A chunk whose row passes the check of the results: its text is not
    blank and its id is not empty. *)
Definition presentable (chunk : ChunkRow) : bool :=
  truthy (c_text chunk) && (0 <? length (trim (c_text chunk)))
  && truthy (c_id chunk).

(** The result made from a chunk. *)
Definition textResult (lower : JsString -> JsString) (text : JsString)
    (chunk : ChunkRow) : SearchResult :=
  {| content := c_text chunk; source := c_id chunk;
     score := JsNum (Finite (caseScore lower text chunk));
     metadata :=
       {| type := js "text_chunk"; chunkId := c_id chunk;
          documentId := []; chunkIndex := 0;
          searchMethod := js "text" |} |}.

(** The row of the query for a chunk, and the order of the rows on
    chunks. *)
Definition rowOf (lower : JsString -> JsString) (text : JsString)
    (chunk : ChunkRow) : TextRow :=
  {| rowContent := c_text chunk; rowSource := c_id chunk;
     rowScore := caseScore lower text chunk;
     rowChunkIndex := c_chunk_index chunk |}.

Definition chunkAfter (lower : JsString -> JsString) (text : JsString)
    (a b : ChunkRow) : bool :=
  textRowAfter (rowOf lower text a) (rowOf lower text b).

End TextSearchSpec.

(** ** Reference description of the context window *)

Module ContextSpec.
Import Js Numbers EmbeddingManager Store VectorSearch.





End ContextSpec.

(** ** EnhancedTextChunker: text statistics and overlapping chunks *)

Module ChunkerReports.
Import Js Numbers Chunker.

Record TextStats := {
  textLength : nat;
  needsPreprocessing : bool;
  estimatedChunks : JsNumber;
  paragraphs : nat;
  lines : nat;
  preprocessedSegments : option nat;
  maxSegmentLength : option JsNumber
}.

Definition ofNat (n : nat) : JsNumber := Finite (inject_Z (Z.of_nat n)).

(** [Math.floor(a / b)] for lengths [a] and [b]: the quotient by 0 is
    Infinity, or NaN when [a] is 0 too. *)
Definition floorDivide (a b : nat) : JsNumber :=
  match b, a with
  | 0, 0 => NaN
  | 0, S _ => PosInfinity
  | S _, _ => ofNat (a / b)
  end.

(** [Math.max(...lengths)]; the maximum of no numbers is -Infinity. *)
Definition maxOf (lengths : list nat) : JsNumber :=
  foldl (fun m n => mathMax m (ofNat n)) NegInfinity lengths.

Section WithOptions.
Variable options : ChunkingOptions.

Definition getTextStats (text : JsString) : option TextStats :=
  let needs := maxTextLength options <? length text in
  let stats :=
    {| textLength := length text;
       needsPreprocessing := needs;
       estimatedChunks :=
         mathMax (Finite 1) (floorDivide (length text) (chunkSize options));
       paragraphs := length (splitParagraphs text 0 []);
       lines := length (splitLines text []);
       preprocessedSegments := None;
       maxSegmentLength := None |} in
  if needs then
    segments ← preprocessLargeText options text;
    Some {| textLength := textLength stats;
            needsPreprocessing := needsPreprocessing stats;
            estimatedChunks := estimatedChunks stats;
            paragraphs := paragraphs stats;
            lines := lines stats;
            preprocessedSegments := Some (length segments);
            maxSegmentLength := Some (maxOf (map length segments)) |}
  else Some stats.

(** [s.slice(-n)] for a positive [n]: the last [n] code units. *)
Definition sliceLast (s : JsString) (n : nat) : JsString :=
  drop (length s - n) s.

(** The loop of [createOverlappingChunks] from chunk [currentChunk] on. *)
Fixpoint overlappingFrom (chunks : list JsString) : list JsString :=
  match chunks with
  | [] => []
  | currentChunk :: rest =>
      let overlapping :=
        match rest with
        | nextChunk :: _ =>
            let overlapSize :=
              Nat.min (overlap options)
                (Nat.min (length currentChunk) (length nextChunk)) in
            if 0 <? overlapSize
            then [sliceLast currentChunk overlapSize
                    ++ slice nextChunk 0 overlapSize]
            else []
        | [] => []
        end in
      currentChunk :: overlapping ++ overlappingFrom rest
  end.

Definition createOverlappingChunks (fuel : nat) (text : JsString)
    : option (list JsString) :=
  chunks ← chunkText options fuel text;
  Some (overlappingFrom chunks).

End WithOptions.
End ChunkerReports.

(** ** Reference predicates for chunks, segments and statistics *)

Module ChunkerViews.
Import Js Numbers Chunker ChunkerReports.

(** A string that starts and ends with a code unit that is not white
    space. *)
Definition Trimmed (s : JsString) : Prop :=
  exists first final,
    head s = Some first /\ last s = Some final
    /\ isWhiteSpace first = false /\ isWhiteSpace final = false.

(** Number of white-space code units at the start of a string. *)
Definition leadingWhiteSpace (s : JsString) : nat :=
  length s - length (trimStart s).

(** [chunk] is the piece of [text] from position [a] up to [b]. *)
Definition PieceOf (text chunk : JsString) (a b : nat) : Prop :=
  a < b <= length text /\ chunk = slice text a b.

(** Every code unit of [text] that is not white space lies in a piece of
    [text] that is one of the chunks. *)
Definition NoTextLost (text : JsString) (chunks : list JsString) : Prop :=
  forall p c, text !! p = Some c -> isWhiteSpace c = false ->
    exists chunk a b, chunk ∈ chunks /\ PieceOf text chunk a b /\ a <= p < b.

(** What holds of the chunks collected when the loop is at [startPos]:
    they are pieces of the text, and nothing before [startPos] is lost. *)
Definition CoveredUpTo (text : JsString) (chunks : list JsString)
    (startPos : nat) : Prop :=
  Forall (fun chunk => exists a b, PieceOf text chunk a b) chunks
  /\ forall p c, p < startPos -> text !! p = Some c -> isWhiteSpace c = false ->
       exists chunk a b, chunk ∈ chunks /\ PieceOf text chunk a b /\ a <= p < b.

(** The bound kept by the splitting loops, on doubled lengths: a segment
    is not empty and at most [maxSize2 / 2] long, rounded up. *)
Definition FitsSegment (maxSize2 : nat) (segment : JsString) : Prop :=
  segment <> [] /\ 2 * length segment <= maxSize2 + 1.

(** A string of white space only. *)
Definition Blank (s : JsString) : Prop :=
  Forall (fun c => isWhiteSpace c = true) s.

(** Number of line feeds of a string. *)
Definition lineFeeds (s : JsString) : nat :=
  length (filter (fun c => c = 10%N) s).

(** The chunk shared by two neighbours: the end of one and the start of
    the other, [k] code units each. *)
Definition bridge (k : nat) (current next : JsString) : JsString :=
  drop (length current - k) current ++ take k next.

(** Options with a small limit, so that a short text is pre-split. *)
Definition smallOptions : ChunkingOptions :=
  {| chunkSize := 12; overlap := 4; maxTextLength := 30;
     preserveSentences := true; multilingualSupport := false |}.

Definition twoParagraphs : JsString :=
  js "Scope 1 covers direct emissions." ++ [10%N; 10%N]
    ++ js "Scope 2 covers purchased energy.".

Definition blankText : JsString := replicate 40 32%N.

End ChunkerViews.

(** ** EmbeddingManager: clearing the cache and the health check *)

Module EmbeddingAdmin.
Import Js EmbeddingManager.

(** [this.cache = {}]. *)
Definition clearCache : M unit := fun st => (tt, withCache st ∅).

(** The report of [healthCheck], as far as it depends on the run: the
    length of the embedding and the number of cache keys, or the error. *)
Inductive HealthReport :=
| Healthy (embeddingSize cacheSize : nat)
| Unhealthy (error : JsString).

Section WithWorld.
Variable world : World.
Variable config : EmbeddingConfig.

Definition healthCheck : M HealthReport :=
  answer <- embedQuery world config (js "health check") ;;
  match answer with
  | Resolved embedding =>
      fun st => (Healthy (length embedding) (size (cache st)), st)
  | Rejected error => ret (Unhealthy error)
  end.

End WithWorld.
End EmbeddingAdmin.

(** ** Sample worlds for the cache *)

Module EmbeddingSamples.
Import Js EmbeddingManager EmbeddingSpec EmbeddingAdmin.

(** A provider that rejects every call. *)
Definition downWorld : World :=
  {| dateNow := fun k => (1000 + Z.of_nat k)%Z;
     providerEmbedQuery := fun _ _ => Rejected (js "503 Service Unavailable");
     providerEmbedDocuments := fun _ _ =>
       Rejected (js "503 Service Unavailable") |}.

(** A clock that jumps by two days at every reading. *)
Definition slowWorld : World :=
  {| dateNow := fun k => (Z.of_nat k * (2 * cacheTTL))%Z;
     providerEmbedQuery := fun k _ => Resolved [inject_Z (Z.of_nat k)];
     providerEmbedDocuments := fun _ texts =>
       Resolved (map (fun _ => [1 # 2]) texts) |}.

Definition twoAttempts : EmbeddingConfig :=
  {| retryAttempts := Some 2; retryDelay := Some 250 |}.

End EmbeddingSamples.

(** ** Reference predicates for ranked results *)

Module RankingSpec.
Import Js Numbers VectorSearch.

(** [r] is the first entry of [results] with its id. *)
Definition FirstWithId (results : list SearchResult) (r : SearchResult)
    : Prop :=
  exists i, results !! i = Some r
            /\ forall j x, j < i -> results !! j = Some x -> id x <> id r.

(** Descending order of scores. *)
Definition byScore (a b : SearchResult) : Prop := (score b <= score a)%Q.

(** Three chunks in a chain; the first and the second are vector hits with
    similarities 1 and 3/5. *)
Definition chainStore : Store.Store :=
  {| Store.chunkRows :=
       [ {| Store.c_id := js "c1"; Store.c_text := js "Emission factors";
            Store.c_chunk_index := 1; Store.c_fileName := Some (js "factors.md");
            Store.c_document_id := None;
            Store.c_embedding := Some [1%Q; 0%Q] |};
         {| Store.c_id := js "c2"; Store.c_text := js "for lignite";
            Store.c_chunk_index := 2; Store.c_fileName := Some (js "factors.md");
            Store.c_document_id := None;
            Store.c_embedding := Some [3 # 5; 4 # 5] |};
         {| Store.c_id := js "c3"; Store.c_text := js "and hard coal";
            Store.c_chunk_index := 3; Store.c_fileName := Some (js "factors.md");
            Store.c_document_id := None; Store.c_embedding := None |} ];
     Store.nextChunkEdges := [ (js "c1", js "c2"); (js "c2", js "c3") ] |}.

End RankingSpec.

(** ** UnifiedSearch: the registry of strategies *)

Module StrategyRegistry.
Import Js Numbers UnifiedSearch.

(** [this.searchStrategies.get(strategyName)]. *)
Definition getStrategy (strategies : gmap JsString SearchStrategy)
    (strategyName : JsString) : option SearchStrategy :=
  strategies !! strategyName.

(** [this.searchStrategies.set(strategy.name, strategy)]. *)
Definition addStrategy (strategy : SearchStrategy)
    (strategies : gmap JsString SearchStrategy)
    : gmap JsString SearchStrategy :=
  <[name strategy := strategy]> strategies.

End StrategyRegistry.

(** ** Reference predicates for fused results *)

Module FusionSpec.
Import Js Numbers EmbeddingManager Store UnifiedSearch.

(** The raw score is a finite number. *)
Definition FiniteScore (r : SearchResult) : Prop :=
  exists x, score r = JsNum (Finite x).

(** Descending order of normalized scores that are numbers. *)
Definition byNormalizedScore (a b : ScoredResult) : Prop :=
  exists x y, normalizedScore a = Finite x /\ normalizedScore b = Finite y
              /\ (y <= x)%Q.

(** The text search run when the vector search of a strategy without text
    search has failed. *)
Definition fallbackOptions (q : SearchQuery) : option TextSearchOptions :=
  Some {| textLimit := Some (orZ (limit q) 10) |}.

Definition vectorOnlyOptions : UnifiedSearchOptions :=
  {| strategy := Some (inl (js "vector-only")); fallbackToText := None |}.

Definition noFallback : UnifiedSearchOptions :=
  {| strategy := Some (inl (js "vector-only"));
     fallbackToText := Some false |}.

(** A strategy registered under the name of the default one. *)
Definition textFirst : SearchStrategy :=
  {| name := js "vector-with-context";
     description := js "Text search only";
     useVectorSearch := false; useTextSearch := true;
     vectorSearchOptions := None;
     textSearchOptions := Some {| textLimit := Some 5%Z |} |}.

End FusionSpec.

(** ** GraphService: the writer built on BaseGraphService *)

Module GraphService.
Import Js GraphWriter.

(** The properties of a [ChunkNode] that the service reads. *)
Record ChunkNode := {
  text : JsString;
  chunk_length : nat;
  tokens : nat;
  embedding : option (list Q)
}.

Record ProcessedDocument := {
  filename : JsString;
  filePath : JsString;
  chunks : list ChunkNode
}.

(** [chunk_doc] of an entry of [lstChunksIncludingHash]. *)
Definition chunkDoc (chunk : ChunkNode) : GraphWriter.ChunkNode :=
  {| GraphWriter.text := text chunk;
     GraphWriter.chunk_length := chunk_length chunk;
     GraphWriter.tokens := tokens chunk |}.

Section WithService.
(** [crypto.createHash('md5').update(content).digest('hex')]. *)
Variable generateHash : JsString -> JsString.
Variable batchSize : nat.

(** First part of a turn of the loop of [createRelationBetweenChunks], for
    [chunks[i] = chunk]: the rows of the chunk are pushed to the pending
    arrays.  The id of the previous chunk is the hash of the text of
    [chunks[i - 1]], which the loop reads for [i > 0] only. *)
Definition pushRows (fileName : JsString) (allChunks : list ChunkNode)
    (i : nat) (chunk : ChunkNode) (st : BuilderState) : BuilderState :=
  let pageContent := text chunk in
  let currentChunkId := generateHash pageContent in
  let position := i + 1 in
  let previousChunkId :=
    if i =? 0 then currentChunkId
    else match allChunks !! (i - 1) with
         | Some previous => generateHash (text previous)
         | None => []
         end in
  let offset' :=
    if 0 <? i then
      offset st + match allChunks !! (i - 1) with
                  | Some lastChunk => length (text lastChunk)
                  | None => 0
                  end
    else offset st in
  let chunkData :=
    {| id := currentChunkId; pg_content := pageContent; position := position;
       data_length := chunk_length chunk; f_name := fileName;
       previous_id := previousChunkId; content_offset := offset';
       data_tokens := tokens chunk; data_embedding := embedding chunk |} in
  {| lstChunksIncludingHash :=
       lstChunksIncludingHash st ++ [(currentChunkId, chunkDoc chunk)];
     batchData := batchData st ++ [chunkData];
     firstRelationships :=
       if i =? 0
       then firstRelationships st ++ [{| chunk_id := currentChunkId |}]
       else firstRelationships st;
     nextRelationships :=
       if i =? 0 then nextRelationships st
       else nextRelationships st
              ++ [{| previous_chunk_id := previousChunkId;
                     current_chunk_id := currentChunkId |}];
     offset := offset';
     graph := graph st |}.

(** Second part: the pending rows are written by the method of the base
    class and the arrays cleared. *)
Definition processChunk (fileName : JsString) (allChunks : list ChunkNode)
    (i : nat) (chunk : ChunkNode) (st : BuilderState) : BuilderState :=
  let st' := pushRows fileName allChunks i chunk st in
  if batchSize <=? length (batchData st') then flushBatch fileName st'
  else st'.

Fixpoint processChunks (fileName : JsString) (allChunks : list ChunkNode)
    (i : nat) (rest : list ChunkNode) (st : BuilderState) : BuilderState :=
  match rest with
  | [] => st
  | chunk :: rest' =>
      processChunks fileName allChunks (S i) rest'
        (processChunk fileName allChunks i chunk st)
  end.

Definition createRelationBetweenChunks (fileName : JsString)
    (allChunks : list ChunkNode) (g : Graph)
    : list (JsString * GraphWriter.ChunkNode) * Graph :=
  let st := processChunks fileName allChunks 0 allChunks
              {| lstChunksIncludingHash := []; batchData := [];
                 firstRelationships := []; nextRelationships := [];
                 offset := 0; graph := g |} in
  (lstChunksIncludingHash st,
   match batchData st with
   | [] => graph st
   | _ => createChunksAndRelationshipsOptimized fileName (batchData st)
            (firstRelationships st) (nextRelationships st) (graph st)
   end).

(** [processDocument]: the document node, then the chunks; the query of
    [debugEmbeddingStorage] that follows reads the graph only. *)
Definition processDocument (document : ProcessedDocument) (g : Graph) : Graph :=
  (createRelationBetweenChunks (filename document) (chunks document)
     (createDocument (js "document") (filePath document) (filename document)
        (js "general") g)).2.

End WithService.
End GraphService.

(** ** Reference description of the graph written for a document *)

Module GraphContents.
Import Js GraphWriter GraphSpec GraphService.

(** Sum of the lengths of the texts of the first [i] chunks. *)
Definition offsetOf (allChunks : list ChunkNode) (i : nat) : nat :=
  sum_list_with (fun chunk => length (text chunk)) (take i allChunks).

(** The properties of the node of the chunk at index [i]. *)
Definition nodeOf (fileName : JsString) (allChunks : list ChunkNode)
    (i : nat) (chunk : ChunkNode) : ChunkProperties :=
  {| c_text := text chunk; c_position := i + 1;
     c_length := chunk_length chunk; c_fileName := fileName;
     c_content_offset := offsetOf allChunks i; c_tokens := tokens chunk;
     c_chunk_index := i + 1; c_embedding := embedding chunk |}.

(** The ids of chunks. *)
Definition idsOf (generateHash : JsString -> JsString)
    (allChunks : list ChunkNode) : list JsString :=
  map (fun chunk => generateHash (text chunk)) allChunks.

(** The chunk nodes after the chunks from index [i] on have been merged, in
    order, into the nodes [nodes]. *)
Fixpoint mergedNodes (generateHash : JsString -> JsString)
    (fileName : JsString) (allChunks : list ChunkNode) (i : nat)
    (rest : list ChunkNode) (nodes : gmap JsString ChunkProperties)
    : gmap JsString ChunkProperties :=
  match rest with
  | [] => nodes
  | chunk :: rest' =>
      mergedNodes generateHash fileName allChunks (S i) rest'
        (<[generateHash (text chunk) := nodeOf fileName allChunks i chunk]>
           nodes)
  end.

(** The graph that holds a document and its chunks, added to [g]. *)
Definition withDocument (generateHash : JsString -> JsString)
    (document : ProcessedDocument) (g : Graph) : Graph :=
  let ids := idsOf generateHash (chunks document) in
  {| documentNodes :=
       <[filename document :=
           {| d_type := js "document"; d_uri := filePath document;
              d_domain := js "general" |}]> (documentNodes g);
     chunkNodes :=
       mergedNodes generateHash (filename document) (chunks document) 0
         (chunks document) (chunkNodes g);
     partOf :=
       partOf g ∪ list_to_set (map (fun x => (x, filename document)) ids);
     firstChunk := firstChunk g ∪ firstEdgeOf (filename document) ids;
     nextChunk := nextChunk g ∪ consecutive ids |}.

(** The node written by a row of a batch. *)
Definition nodeOfRow (data : ChunkData) : ChunkProperties :=
  {| c_text := pg_content data; c_position := position data;
     c_length := data_length data; c_fileName := f_name data;
     c_content_offset := content_offset data; c_tokens := data_tokens data;
     c_chunk_index := position data; c_embedding := data_embedding data |}.

Definition writeRows (rows : list ChunkData)
    (nodes : gmap JsString ChunkProperties) : gmap JsString ChunkProperties :=
  foldl (fun nodes data => <[id data := nodeOfRow data]> nodes) nodes rows.

(** What holds of the loop variables of [createRelationBetweenChunks] when
    the first [n] chunks have been processed: the nodes and PART_OF
    relationships written, together with those of the pending rows, are
    those of the first [n] chunks. *)
Record NodesInvariant (generateHash : JsString -> JsString)
    (fileName : JsString) (allChunks : list ChunkNode) (g0 : Graph)
    (n : nat) (st : BuilderState) : Prop := {
  nodes_document : documentNodes (graph st) = documentNodes g0;
  nodes_written :
    writeRows (batchData st) (chunkNodes (graph st))
    = mergedNodes generateHash fileName allChunks 0 (take n allChunks)
        (chunkNodes g0);
  nodes_partOf :
    partOf (graph st)
      ∪ list_to_set (map (fun data => (id data, fileName)) (batchData st))
    = partOf g0
        ∪ list_to_set
            (map (fun x => (x, fileName))
                 (idsOf generateHash (take n allChunks)));
  nodes_offset : offset st = offsetOf allChunks (n - 1);
  nodes_rows : Forall (fun data => f_name data = fileName) (batchData st)
}.

(** A document of three chunks, the second without an embedding. *)
Definition embeddedDocument : ProcessedDocument :=
  {| filename := js "report.md"; filePath := js "docs/report.md";
     chunks := [ {| text := js "Scope 1"; chunk_length := 7; tokens := 2;
                    embedding := Some [1 # 2; 1 # 4] |};
                 {| text := js "Scope 2"; chunk_length := 7; tokens := 2;
                    embedding := None |};
                 {| text := js "Scope 3"; chunk_length := 7; tokens := 2;
                    embedding := Some [1 # 3; 2 # 3] |} ] |}.

End GraphContents.

(** ** DocumentProcessor: chunks of words *)

Module DocumentProcessor.
Import Js EmbeddingManager.

(** The properties of a [ChunkNode]. *)
Record ChunkProperties := {
  p_id : JsString;
  p_text : JsString;
  n_tokens : nat;
  chunk_index : nat;
  document_id : JsString;
  position : nat;
  p_length : nat;
  content_offset : nat;
  fileName : JsString;
  tokens : nat;
  embedding : option Vector
}.

(** [content.split(/\s+/)]: the pieces between runs of white space; a run
    at the start or at the end gives an empty first or last piece.
    [inRun] says that the code unit before was white space. *)
Fixpoint splitWhiteSpace (s cur : JsString) (inRun : bool) : list JsString :=
  match s with
  | [] => [cur]
  | c :: r =>
      if isWhiteSpace c then
        if inRun then splitWhiteSpace r cur true
        else cur :: splitWhiteSpace r [] true
      else splitWhiteSpace r (cur ++ [c]) false
  end.

(** [words.join(' ')]. *)
Fixpoint joinWords (words : list JsString) : JsString :=
  match words with
  | [] => []
  | [word] => word
  | word :: rest => word ++ 32%N :: joinWords rest
  end.

(** [words.slice(b, e)]. *)
Definition sliceWords (words : list JsString) (b e : nat) : list JsString :=
  take (e - b) (drop b words).

Section WithConfig.
(** [crypto.createHash('md5').update(content).digest('hex')]. *)
Variable generateHash : JsString -> JsString.
(** [config.document.chunkSize] and [config.document.overlap]. *)
Variable chunkSize : nat.
Variable overlap : nat.

(** [Math.ceil(n / (chunkSize - overlap)) + 10] for a positive number [n]
    of words: the quotient is Infinity ([None]) when the two sizes are
    equal and negative when the overlap is the larger one. *)
Definition maxIterations (n : nat) : option Z :=
  if overlap <? chunkSize then
    Some (Z.of_nat ((n + (chunkSize - overlap) - 1) / (chunkSize - overlap))
          + 10)%Z
  else if overlap =? chunkSize then None
  else Some (10 - Z.of_nat (n / (overlap - chunkSize)))%Z.

Definition belowLimit (iterationCount : nat) (limit : option Z) : bool :=
  match limit with
  | Some m => (Z.of_nat iterationCount <? m)%Z
  | None => true
  end.

Definition makeChunk (filename chunkText : JsString) (wordCount : nat)
    (chunkIndex contentOffset : nat) : ChunkProperties :=
  {| p_id := generateHash chunkText; p_text := chunkText;
     n_tokens := wordCount; chunk_index := chunkIndex;
     document_id := generateHash filename; position := chunkIndex + 1;
     p_length := length chunkText; content_offset := contentOffset;
     fileName := filename; tokens := wordCount; embedding := None |}.

(** The [while] loop of [createChunks]; [None] when the iterations allowed
    by [fuel] do not reach its end. *)
Fixpoint chunkWords (fuel : nat) (filename : JsString) (words : list JsString)
    (limit : option Z) (startIndex chunkIndex contentOffset iterationCount : nat)
    (chunks : list ChunkProperties) : option (list ChunkProperties) :=
  match fuel with
  | 0 => None
  | S fuel' =>
      if (startIndex <? length words) && belowLimit iterationCount limit then
        let endIndex := Nat.min (startIndex + chunkSize) (length words) in
        if endIndex <=? startIndex then Some chunks
        else
          let window := sliceWords words startIndex endIndex in
          let chunkText := joinWords window in
          let nextStartIndex :=
            (* [endIndex - overlap <= startIndex], on integers *)
            if endIndex <=? startIndex + overlap then endIndex
            else endIndex - overlap in
          if truthy (trim chunkText) then
            chunkWords fuel' filename words limit nextStartIndex
              (chunkIndex + 1) (contentOffset + length chunkText)
              (iterationCount + 1)
              (chunks ++ [makeChunk filename chunkText (length window)
                            chunkIndex contentOffset])
          else
            chunkWords fuel' filename words limit nextStartIndex chunkIndex
              contentOffset (iterationCount + 1) chunks
      else Some chunks
  end.

Definition createChunks (fuel : nat) (content filename : JsString)
    : option (list ChunkProperties) :=
  let words := splitWhiteSpace content [] false in
  chunkWords fuel filename words (maxIterations (length words)) 0 0 0 0 [].

End WithConfig.
End DocumentProcessor.

(** ** Reference predicates for chunks of words *)

Module DocumentSpec.
Import Js DocumentProcessor.

(** Sum of the lengths of the texts of the first [i] chunks. *)
Definition lengthBefore (chunks : list ChunkProperties) (i : nat) : nat :=
  sum_list_with (fun chunk => length (p_text chunk)) (take i chunks).

(** A chunk with the index, position, offset and counts that belong to the
    [i]-th chunk of [chunks]. *)
Definition WellNumbered (generateHash : JsString -> JsString)
    (filename : JsString) (chunkSize : nat) (chunks : list ChunkProperties)
    (i : nat) (chunk : ChunkProperties) : Prop :=
  chunk_index chunk = i /\ position chunk = i + 1
  /\ content_offset chunk = lengthBefore chunks i
  /\ p_length chunk = length (p_text chunk)
  /\ p_id chunk = generateHash (p_text chunk)
  /\ document_id chunk = generateHash filename
  /\ fileName chunk = filename
  /\ n_tokens chunk = tokens chunk
  /\ 0 < tokens chunk <= chunkSize
  /\ trim (p_text chunk) <> [].

(** The chunk is made of the words from index [a] up to [b]. *)
Definition WordsOf (words : list JsString) (chunk : ChunkProperties)
    (a b : nat) : Prop :=
  a < b <= length words /\ p_text chunk = joinWords (sliceWords words a b)
  /\ tokens chunk = b - a.

(** Every word that is not empty is one of the words of a chunk. *)
Definition NoWordLost (words : list JsString) (chunks : list ChunkProperties)
    : Prop :=
  forall k word, words !! k = Some word -> word <> [] ->
    exists chunk a b, chunk ∈ chunks /\ WordsOf words chunk a b /\ a <= k < b.

(** What the loop keeps: the chunks collected are well numbered, and the
    two counters are the number of chunks and their total length. *)
Definition Numbered (generateHash : JsString -> JsString)
    (filename : JsString) (chunkSize : nat) (chunks : list ChunkProperties)
    (chunkIndex contentOffset : nat) : Prop :=
  chunkIndex = length chunks
  /\ contentOffset = lengthBefore chunks (length chunks)
  /\ forall i chunk, chunks !! i = Some chunk ->
       WellNumbered generateHash filename chunkSize chunks i chunk.

(** What the loop keeps for the words before [startIndex]. *)
Definition WordsCovered (words : list JsString)
    (chunks : list ChunkProperties) (startIndex : nat) : Prop :=
  forall k word, k < startIndex -> words !! k = Some word -> word <> [] ->
    exists chunk a b, chunk ∈ chunks /\ WordsOf words chunk a b /\ a <= k < b.

Definition tenWords : JsString :=
  js "one two three four five six seven eight nine ten".

End DocumentSpec.

(** ** DocumentProcessor with the text chunker and embeddings *)

Module EnhancedDocumentProcessor.
Import Js Chunker ChunkerReports EmbeddingManager DocumentProcessor.

(** [calculateContentOffset(textChunks, currentIndex)] for an index within
    the array. *)
Definition calculateContentOffset (textChunks : list JsString)
    (currentIndex : nat) : nat :=
  foldl (fun offset chunk => offset + length chunk) 0
        (take currentIndex textChunks).

(** [chunkText.split(/\s+/).filter(word => word.trim())]. *)
Definition wordsOf (chunkText : JsString) : list JsString :=
  filter (fun word => truthy (trim word) = true)
         (splitWhiteSpace chunkText [] false).

Section WithServices.
Variable world : World.
Variable config : EmbeddingConfig.
Variable options : ChunkingOptions.
Variable generateHash : JsString -> JsString.

(** The [try] block around [embeddingManager.embedQuery]: an empty vector
    and a rejection both leave the embedding [undefined]. *)
Definition embeddingFor (chunkText : JsString) : M (option Vector) :=
  answer <- embedQuery world config chunkText ;;
  ret match answer with
      | Resolved embedding =>
          if length embedding =? 0 then None else Some embedding
      | Rejected _ => None
      end.

Definition makeNode (filename : JsString) (textChunks : list JsString)
    (chunkIndex : nat) (chunkText : JsString) (embedding : option Vector)
    : ChunkProperties :=
  {| p_id := generateHash chunkText; p_text := chunkText;
     n_tokens := length (wordsOf chunkText); chunk_index := chunkIndex;
     document_id := generateHash filename; position := chunkIndex + 1;
     p_length := length chunkText;
     content_offset := calculateContentOffset textChunks chunkIndex;
     fileName := filename; tokens := length (wordsOf chunkText);
     embedding := embedding |}.

(** The [for] loop of [createChunks] over the chunks from [chunkIndex]
    on. *)
Fixpoint convert (filename : JsString) (textChunks rest : list JsString)
    (chunkIndex : nat) (chunks : list ChunkProperties)
    : M (list ChunkProperties) :=
  match rest with
  | [] => ret chunks
  | chunkText :: rest' =>
      if truthy (trim chunkText) then
        embedding <- embeddingFor chunkText ;;
        convert filename textChunks rest' (chunkIndex + 1)
          (chunks ++ [makeNode filename textChunks chunkIndex chunkText
                        embedding])
      else convert filename textChunks rest' (chunkIndex + 1) chunks
  end.

(** [None] when the chunker does not end within [fuel].  The statistics
    of the text are computed for the log only. *)
Definition createChunks (fuel : nat) (content filename : JsString)
    : option (M (list ChunkProperties)) :=
  textChunks ← chunkText options fuel content;
  _ ← getTextStats options content;
  Some (convert filename textChunks textChunks 0 []).

End WithServices.
End EnhancedDocumentProcessor.

(** ** Reference predicates for the nodes of the enhanced processor *)

Module EnhancedDocumentSpec.
Import Js Chunker ChunkerViews EmbeddingManager DocumentProcessor DocumentSpec
       EnhancedDocumentProcessor.

(** The node made for the [i]-th chunk of [textChunks]. *)
Definition NodeOf (generateHash : JsString -> JsString) (filename : JsString)
    (textChunks : list JsString) (i : nat) (node : ChunkProperties) : Prop :=
  exists chunkText,
    textChunks !! i = Some chunkText
    /\ p_text node = chunkText
    /\ chunk_index node = i /\ position node = i + 1
    /\ p_length node = length chunkText
    /\ content_offset node
       = sum_list_with (fun chunk : JsString => length chunk) (take i textChunks)
    /\ p_id node = generateHash chunkText
    /\ document_id node = generateHash filename
    /\ fileName node = filename.

(** What the loop keeps. *)
Definition Converted (generateHash : JsString -> JsString)
    (filename : JsString) (textChunks : list JsString) (chunkIndex : nat)
    (chunks : list ChunkProperties) : Prop :=
  length chunks = chunkIndex
  /\ forall i node, chunks !! i = Some node ->
       NodeOf generateHash filename textChunks i node.

Definition HasEmbedding (node : ChunkProperties) : Prop :=
  match DocumentProcessor.embedding node with
  | Some v => v <> []
  | None => True
  end.

End EnhancedDocumentSpec.

(* ================================================================== *)
(** * Properties *)

(** ** Facts about JavaScript strings *)

Module JsFacts.
Import Js.

Lemma trimStart_length s : length (trimStart s) <= length s.
Proof.
  induction s as [|c r IH]; simpl; [lia|].
  destruct (isWhiteSpace c); simpl; lia.
Qed.

Lemma trim_length s : length (trim s) <= length s.
Proof.
  unfold trim, trimEnd. rewrite length_rev.
  etransitivity; [apply trimStart_length|].
  rewrite length_rev. apply trimStart_length.
Qed.

Lemma slice_length s b e : length (slice s b e) <= e - b.
Proof. unfold slice. rewrite length_take. lia. Qed.

End JsFacts.

(** ** The chunker: window bound, progress, and the overlap defect *)

Module ChunkerFacts.
Import Js JsFacts Chunker ChunkerSpec.

Section WithOptions.
Variable o : ChunkingOptions.

Lemma windowEnd_slack text startPos :
  windowEnd o text startPos <= startPos + chunkSize o + 100.
Proof.
  unfold windowEnd.
  destruct (_ && _).
  - destruct (Nat.leb_spec (findNextSentenceEnd o text
        (Nat.min (startPos + chunkSize o) (length text)))
        (startPos + chunkSize o + 100)); lia.
  - lia.
Qed.

Lemma pushChunk_within chunks text startPos :
  Forall (within_slack o) chunks ->
  Forall (within_slack o)
    (pushChunk chunks (trim (slice text startPos (windowEnd o text startPos)))).
Proof.
  intros Hall. unfold pushChunk.
  destruct (truthy _); [|assumption].
  apply Forall_app. split; [assumption|].
  constructor; [|constructor].
  unfold within_slack.
  pose proof (trim_length (slice text startPos (windowEnd o text startPos))).
  pose proof (slice_length text startPos (windowEnd o text startPos)).
  pose proof (windowEnd_slack text startPos). lia.
Qed.

Lemma chunkLoop_within fuel : forall text startPos chunks out,
  Forall (within_slack o) chunks ->
  chunkLoop o fuel text startPos chunks = Some out ->
  Forall (within_slack o) out.
Proof.
  induction fuel as [|fuel IH]; intros text startPos chunks out Hall Hrun;
    simpl in Hrun; [discriminate|].
  destruct (startPos <? length text).
  - destruct (length text <=? windowEnd o text startPos).
    + inversion Hrun; subst. now apply pushChunk_within.
    + eapply IH; [|exact Hrun]. now apply pushChunk_within.
  - inversion Hrun; subst. assumption.
Qed.

Lemma chunkSingleSegment_within fuel text out :
  chunkSingleSegment o fuel text = Some out -> Forall (within_slack o) out.
Proof.
  unfold chunkSingleSegment. intros Hrun.
  destruct (_ || _).
  { inversion Hrun. constructor. }
  destruct (Nat.leb_spec (length text) (chunkSize o)).
  { inversion Hrun. constructor; [|constructor].
    unfold within_slack. pose proof (trim_length text). lia. }
  eapply chunkLoop_within; [|exact Hrun]. constructor.
Qed.

Lemma chunkSegments_within fuel segments : forall acc out,
  Forall (within_slack o) acc ->
  foldOpt (fun allChunks segment =>
             segmentChunks ← chunkSingleSegment o fuel segment;
             Some (allChunks ++ segmentChunks)) segments acc = Some out ->
  Forall (within_slack o) out.
Proof.
  induction segments as [|seg rest IH]; intros acc out Hacc Hrun; simpl in Hrun.
  - inversion Hrun; subst. assumption.
  - destruct (chunkSingleSegment o fuel seg) as [cs|] eqn:Hseg;
      simpl in Hrun; [|discriminate].
    eapply IH; [|exact Hrun].
    apply Forall_app. split; [assumption|].
    eapply chunkSingleSegment_within. exact Hseg.
Qed.

Lemma chunkText_within fuel text out :
  chunkText o fuel text = Some out -> Forall (within_slack o) out.
Proof.
  unfold chunkText. intros Hrun.
  destruct (_ || _).
  { inversion Hrun. constructor. }
  destruct (Nat.ltb_spec (10 * length text) (chunkSize o)).
  { inversion Hrun. constructor; [|constructor].
    unfold within_slack. pose proof (trim_length text). lia. }
  destruct (preprocessLargeText o text) as [segs|]; simpl in Hrun; [|discriminate].
  eapply chunkSegments_within; [|exact Hrun]. constructor.
Qed.

(** *** Progress when the overlap is smaller than the chunk size *)

Lemma scanSentenceEnd_ge rest : forall i, i <= scanSentenceEnd o rest i.
Proof.
  induction rest as [|c r IH]; intros i; simpl; [lia|].
  destruct (isSentenceEnding o c); [lia|]. specialize (IH (S i)). lia.
Qed.

Lemma findNextSentenceEnd_ge text pos :
  pos <= length text -> pos <= findNextSentenceEnd o text pos.
Proof.
  intros Hpos. unfold findNextSentenceEnd.
  destruct (pos <? length text); [apply scanSentenceEnd_ge | lia].
Qed.

Lemma windowEnd_ge text startPos :
  Nat.min (startPos + chunkSize o) (length text) <= windowEnd o text startPos.
Proof.
  unfold windowEnd.
  destruct (_ && _); [|lia].
  destruct (_ <=? _); [|lia].
  apply findNextSentenceEnd_ge. lia.
Qed.

Lemma nextStart_advances text startPos endPos :
  overlap o < chunkSize o ->
  startPos + chunkSize o <= endPos ->
  startPos < nextStart o text startPos endPos.
Proof.
  intros Hov Hend. unfold nextStart.
  set (overlapStart := Nat.max startPos (endPos - overlap o)).
  assert (startPos < overlapStart) by (unfold overlapStart; lia).
  destruct (preserveSentences o).
  - destruct (Nat.ltb_spec startPos (findPreviousSentenceStart o text overlapStart));
      simpl.
    + destruct (_ <? endPos); destruct (endPos <=? _); lia.
    + destruct (endPos <=? overlapStart); lia.
  - destruct (endPos <=? overlapStart); lia.
Qed.

Lemma chunkLoop_returns text :
  overlap o < chunkSize o ->
  forall fuel startPos chunks,
    length text - startPos < fuel ->
    is_Some (chunkLoop o fuel text startPos chunks).
Proof.
  intros Hov. induction fuel as [|fuel IH]; intros startPos chunks Hfuel; [lia|].
  simpl. destruct (Nat.ltb_spec startPos (length text)); [|eauto].
  destruct (Nat.leb_spec (length text) (windowEnd o text startPos)); [eauto|].
  apply IH.
  pose proof (windowEnd_ge text startPos).
  pose proof (nextStart_advances text startPos (windowEnd o text startPos) Hov).
  lia.
Qed.

Lemma chunkSingleSegment_returns text fuel :
  overlap o < chunkSize o -> length text < fuel ->
  is_Some (chunkSingleSegment o fuel text).
Proof.
  intros Hov Hfuel. unfold chunkSingleSegment.
  destruct (_ || _); [eauto|].
  destruct (_ <=? _); [eauto|].
  apply chunkLoop_returns; [assumption|lia].
Qed.

Lemma foldOpt_is_Some {A B} (f : A -> B -> option A) (P : B -> Prop) l :
  (forall a b, P b -> is_Some (f a b)) -> Forall P l ->
  forall a, is_Some (foldOpt f l a).
Proof.
  intros Hf. induction 1 as [|b r Hb Hr IH]; intros a; simpl; [eauto|].
  destruct (Hf a b Hb) as [a' ->]. simpl. apply IH.
Qed.

Lemma splitByFixedLengthFrom_returns text maxSize2 :
  0 < maxSize2 ->
  forall fuel i2, 0 < fuel -> 2 * length text < fuel + i2 ->
    is_Some (splitByFixedLengthFrom fuel text maxSize2 i2).
Proof.
  intros Hpos. induction fuel as [|fuel IH]; intros i2 Hnz Hfuel; [lia|].
  cbn [splitByFixedLengthFrom].
  destruct (Nat.ltb_spec i2 (2 * length text)); [|eauto].
  assert (Hrec : is_Some (splitByFixedLengthFrom fuel text maxSize2 (i2 + maxSize2)))
    by (apply IH; lia).
  destruct Hrec as [rest ->]. simpl. eauto.
Qed.

Lemma splitByFixedLength_returns text maxSize2 :
  0 < maxSize2 -> is_Some (splitByFixedLength text maxSize2).
Proof.
  intros Hpos. apply splitByFixedLengthFrom_returns; [assumption|lia|lia].
Qed.

Lemma splitLongParagraph_returns text maxSize2 :
  0 < maxSize2 -> is_Some (splitLongParagraph o text maxSize2).
Proof.
  intros Hpos. unfold splitLongParagraph.
  destruct (_ <=? _); [eauto|].
  destruct (_ =? 0); [now apply splitByFixedLength_returns|].
  match goal with |- context [foldOpt ?f0 ?l0 ?a0] =>
    destruct (foldOpt_is_Some f0 (fun _ => True) l0) with (a := a0) as [st ->] end.
  - intros [segments cur] sentence _. unfold splitLongStep.
    destruct (maxSize2 <? 2 * length sentence).
    + destruct (splitByFixedLength_returns sentence maxSize2 Hpos) as [x ->].
      simpl. eauto.
    + destruct (_ <? _); eauto.
  - apply Forall_forall. auto.
  - simpl. eauto.
Qed.

Lemma preprocessLargeText_returns text :
  0 < maxTextLength o -> is_Some (preprocessLargeText o text).
Proof.
  intros Hpos. unfold preprocessLargeText.
  destruct (_ <=? _); [eauto|].
  match goal with |- context [foldOpt ?f0 ?l0 ?a0] =>
    destruct (foldOpt_is_Some f0 (fun _ => True) l0) with (a := a0) as [st ->] end.
  - intros [segments cur] para _. unfold preprocessStep.
    destruct (negb _); [eauto|].
    destruct (targetSegmentSize2 o <? 2 * length (trim para)).
    + destruct (splitLongParagraph_returns (trim para) (targetSegmentSize2 o))
        as [x ->]; [unfold targetSegmentSize2; lia|]. simpl. eauto.
    + destruct (_ <? _); [eauto|]. destruct (truthy cur); eauto.
  - apply Forall_forall. auto.
  - simpl. eauto.
Qed.

Lemma longest_bound segments :
  Forall (fun segment => length segment < S (longest segments)) segments.
Proof.
  induction segments as [|seg rest IH]; simpl; constructor; [lia|].
  eapply Forall_impl; [exact IH|]. simpl. intros; lia.
Qed.

(** With an overlap below the chunk size and a positive segment bound the
    call returns: some number of iterations is enough. *)
Lemma chunkText_returns text :
  overlap o < chunkSize o -> 0 < maxTextLength o ->
  exists fuel chunks, chunkText o fuel text = Some chunks.
Proof.
  intros Hov Hmax.
  destruct (preprocessLargeText_returns text Hmax) as [segs Hsegs].
  exists (S (longest segs)).
  unfold chunkText. destruct (_ || _); [eauto|]. destruct (_ <? _); [eauto|].
  rewrite Hsegs. simpl. unfold chunkSegments.
  match goal with |- context [foldOpt ?f0 ?l0 ?a0] =>
    destruct (foldOpt_is_Some f0
      (fun segment => length segment < S (longest segs)) l0) with (a := a0)
      as [out ->] end; eauto using longest_bound.
  intros acc segment Hlen.
  destruct (chunkSingleSegment_returns segment (S (longest segs)) Hov Hlen)
    as [cs ->]. simpl. eauto.
Qed.

(** *** No progress when the overlap reaches the chunk size *)

Lemma chunkLoop_stuck text :
  0 < chunkSize o -> chunkSize o <= overlap o ->
  preserveSentences o = false -> chunkSize o < length text ->
  forall fuel chunks, chunkLoop o fuel text 0 chunks = None.
Proof.
  intros Hpos Hov Hpres Hlen.
  assert (Hend : windowEnd o text 0 = chunkSize o).
  { unfold windowEnd. rewrite Hpres, andb_false_r. simpl. lia. }
  assert (Hnext : nextStart o text 0 (chunkSize o) = 0).
  { unfold nextStart. rewrite Hpres.
    replace (Nat.max 0 (chunkSize o - overlap o)) with 0 by lia.
    destruct (Nat.leb_spec (chunkSize o) 0); lia. }
  induction fuel as [|fuel IH]; intros chunks; simpl; [reflexivity|].
  destruct (Nat.ltb_spec 0 (length text)); [|lia].
  rewrite Hend.
  destruct (Nat.leb_spec (length text) (chunkSize o)); [lia|].
  rewrite Hnext. apply IH.
Qed.

Lemma chunkSingleSegment_stuck text :
  0 < chunkSize o -> chunkSize o <= overlap o ->
  preserveSentences o = false -> chunkSize o < length text ->
  trim text <> [] ->
  forall fuel, chunkSingleSegment o fuel text = None.
Proof.
  intros Hpos Hov Hpres Hlen Htrim fuel.
  assert (Htext : truthy text = true) by (destruct text; [simpl in *; lia|reflexivity]).
  assert (Hnz : (length (trim text) =? 0) = false).
  { apply Nat.eqb_neq. destruct (trim text); [congruence|simpl; lia]. }
  unfold chunkSingleSegment. rewrite Htext, Hnz. cbn [negb orb].
  destruct (Nat.leb_spec (length text) (chunkSize o)); [lia|].
  now apply chunkLoop_stuck.
Qed.

Lemma chunkText_stuck text :
  0 < chunkSize o -> chunkSize o <= overlap o ->
  preserveSentences o = false -> chunkSize o < length text ->
  length text <= maxTextLength o -> trim text <> [] ->
  forall fuel, chunkText o fuel text = None.
Proof.
  intros Hpos Hov Hpres Hlen Hmax Htrim fuel.
  assert (Htext : truthy text = true) by (destruct text; [simpl in *; lia|reflexivity]).
  assert (Hnz : (length (trim text) =? 0) = false).
  { apply Nat.eqb_neq. destruct (trim text); [congruence|simpl; lia]. }
  unfold chunkText. rewrite Htext, Hnz. cbn [negb orb].
  destruct (Nat.ltb_spec (10 * length text) (chunkSize o)); [lia|].
  unfold preprocessLargeText.
  destruct (Nat.leb_spec (length text) (maxTextLength o)); [|lia].
  unfold chunkSegments. cbn [mbind option_bind foldOpt].
  now rewrite chunkSingleSegment_stuck.
Qed.

End WithOptions.

(** C8. With sentence preservation the right edge of a window moves to the
    next sentence end only when that end lies within [chunkSize + 100] of the
    window start, and every chunk returned by [chunkText] is at most
    [chunkSize + 100] code units long. *)
Theorem chunkText_chunks_within_slack o fuel text chunks :
  chunkText o fuel text = Some chunks ->
  (forall segment startPos,
     let endPos := Nat.min (startPos + chunkSize o) (length segment) in
     windowEnd o segment startPos = endPos
     \/ (preserveSentences o = true
         /\ windowEnd o segment startPos = findNextSentenceEnd o segment endPos
         /\ findNextSentenceEnd o segment endPos <= startPos + chunkSize o + 100))
  /\ Forall (fun chunk => length chunk <= chunkSize o + 100) chunks.
Proof.
  intros Hrun. split.
  - intros segment startPos endPos. unfold windowEnd. fold endPos.
    destruct (preserveSentences o); [|rewrite andb_false_r; now left].
    destruct (endPos <? length segment); simpl; [|now left].
    destruct (Nat.leb_spec (findNextSentenceEnd o segment endPos)
                (startPos + chunkSize o + 100)); [right; auto | now left].
  - exact (chunkText_within o fuel text chunks Hrun).
Qed.

Lemma chunkText_chunks_within_slack_witness :
  chunkText sampleOptions 100 sampleText = Some sampleChunks
  /\ Forall (fun chunk => length chunk <= chunkSize sampleOptions + 100)
       sampleChunks.
Proof.
  split; [vm_compute; reflexivity|].
  apply (chunkText_chunks_within_slack sampleOptions 100 sampleText sampleChunks).
  vm_compute; reflexivity.
Defined.

(** C9 (the code does not have the property). With [overlap = chunkSize = 10],
    no sentence preservation and a text of 12 code units, the next start
    computed after the first window is again 0, the guard
    [startPos >= endPos] does not fire, and no number of iterations ends the
    loop: [chunkText] never returns. *)
Theorem chunkText_overlap_never_returns :
  forall fuel, chunkText stuckOptions fuel stuckText = None.
Proof.
  apply chunkText_stuck; try (vm_compute; lia); try reflexivity.
  vm_compute. discriminate.
Qed.

End ChunkerFacts.

(** ** The embedding manager: retry, cache keys, batch order *)

Module EmbeddingFacts.
Import Js EmbeddingManager EmbeddingSpec.

(** *** Cache keys *)

Lemma base64_prefix n : forall bytes,
  take (4 * n) (base64 bytes) = take (4 * n) (base64 (take (3 * n) bytes)).
Proof.
  induction n as [|n IH]; intros bytes; [reflexivity|].
  replace (4 * S n) with (S (S (S (S (4 * n))))) by lia.
  replace (3 * S n) with (S (S (S (3 * n)))) by lia.
  destruct bytes as [|a [|b [|c r]]]; try reflexivity.
  cbn [take base64]. now rewrite IH.
Qed.

(** The key is a function of the first 24 bytes of the text. *)
Lemma generateCacheKey_prefix t1 t2 :
  take 24 (utf8 t1) = take 24 (utf8 t2) ->
  generateCacheKey t1 = generateCacheKey t2.
Proof.
  intros Hprefix. unfold generateCacheKey, substring0. f_equal.
  change 32 with (4 * 8).
  rewrite (base64_prefix 8 (utf8 t1)), (base64_prefix 8 (utf8 t2)).
  change (3 * 8) with 24. now rewrite Hprefix.
Qed.

(** *** Running the manager *)

Section WithWorld.
Variable w : World.
Variable cfg : EmbeddingConfig.

Lemma getFromCache_absent key st :
  cache st !! key = None -> getFromCache w key st = (None, st).
Proof. intros H. unfold getFromCache. now rewrite H. Qed.

Lemma getFromCache_fresh key st entry :
  cache st !! key = Some entry ->
  (dateNow w (clockReads st) - timestamp entry < ttl entry)%Z ->
  (getFromCache w key st).1 = embedding entry
  /\ providerCalls (getFromCache w key st).2 = providerCalls st
  /\ cache (getFromCache w key st).2 = cache st.
Proof.
  intros H Hfresh. unfold getFromCache. rewrite H.
  unfold bind, readClock, ret. cbn [cache clockReads providerCalls delays].
  destruct (Z.ltb_spec (dateNow w (clockReads st) - timestamp entry) (ttl entry));
    [|lia].
  repeat split.
Qed.

Lemma setCache_run key value st :
  setCache w key value st =
  (tt, {| cache := <[key := {| embedding := value;
                               timestamp := dateNow w (clockReads st);
                               ttl := cacheTTL |}]> (cache st);
          clockReads := S (clockReads st);
          providerCalls := providerCalls st;
          delays := delays st |}).
Proof. reflexivity. Qed.

Lemma embedWithRetryFrom_resolved remaining text st v :
  providerEmbedQuery w (length (providerCalls st)) text = Resolved v ->
  embedWithRetryFrom w cfg remaining text st =
  (Resolved v, {| cache := cache st; clockReads := clockReads st;
                  providerCalls := providerCalls st ++ [EmbedQueryCall text];
                  delays := delays st |}).
Proof.
  intros H. destruct remaining; cbn [embedWithRetryFrom];
    unfold bind, callEmbedQuery; now rewrite H.
Qed.

Lemma embedWithRetryFrom_rejected remaining text st error :
  providerEmbedQuery w (length (providerCalls st)) text = Rejected error ->
  embedWithRetryFrom w cfg (S remaining) text st =
  embedWithRetryFrom w cfg remaining text
    {| cache := cache st; clockReads := clockReads st;
       providerCalls := providerCalls st ++ [EmbedQueryCall text];
       delays := delays st ++ [orDefault (retryDelay cfg) 1000] |}.
Proof.
  intros H. cbn [embedWithRetryFrom].
  unfold bind at 1. unfold callEmbedQuery at 1. rewrite H.
  reflexivity.
Qed.

(** A text whose key is absent, answered at the first provider call. *)
Lemma embedQuery_miss_resolved text st v :
  cache st !! generateCacheKey text = None ->
  providerEmbedQuery w (length (providerCalls st)) text = Resolved v ->
  embedQuery w cfg text st =
  (Resolved v,
   {| cache := <[generateCacheKey text :=
                   {| embedding := Some v;
                      timestamp := dateNow w (clockReads st);
                      ttl := cacheTTL |}]> (cache st);
      clockReads := S (clockReads st);
      providerCalls := providerCalls st ++ [EmbedQueryCall text];
      delays := delays st |}).
Proof.
  intros Habsent Hprov. unfold embedQuery.
  unfold bind at 1. rewrite (getFromCache_absent _ _ Habsent).
  unfold bind at 1. unfold embedWithRetry.
  rewrite (embedWithRetryFrom_resolved _ _ _ _ Hprov).
  reflexivity.
Qed.

End WithWorld.

(** C5. The text has no cache entry and three attempts are configured.  A
    provider that rejects the first two calls and answers [v] at the third
    makes [embedQuery] return [v], as does a provider that answers [v] at
    once; afterwards the cache is the old cache with one entry added under
    the key of the text, holding [v]. *)
Theorem embedQuery_retries_then_caches_once w w' cfg text st e1 e2 v :
  retryAttempts cfg = Some 3 ->
  cache st !! generateCacheKey text = None ->
  providerEmbedQuery w (length (providerCalls st)) text = Rejected e1 ->
  providerEmbedQuery w (S (length (providerCalls st))) text = Rejected e2 ->
  providerEmbedQuery w (S (S (length (providerCalls st)))) text = Resolved v ->
  providerEmbedQuery w' (length (providerCalls st)) text = Resolved v ->
  (embedQuery w cfg text st).1 = Resolved v
  /\ (embedQuery w' cfg text st).1 = (embedQuery w cfg text st).1
  /\ (exists entry,
        cache (embedQuery w cfg text st).2
          = <[generateCacheKey text := entry]> (cache st)
        /\ embedding entry = Some v)
  /\ size (cache (embedQuery w cfg text st).2) = S (size (cache st))
  /\ providerCalls (embedQuery w cfg text st).2
       = providerCalls st ++ [EmbedQueryCall text; EmbedQueryCall text;
                              EmbedQueryCall text].
Proof.
  intros Hcfg Habsent H1 H2 H3 H'.
  rewrite (embedQuery_miss_resolved w' cfg text st v Habsent H').
  assert (Hrun : embedQuery w cfg text st =
    (Resolved v,
     {| cache := <[generateCacheKey text :=
                     {| embedding := Some v;
                        timestamp := dateNow w (clockReads st);
                        ttl := cacheTTL |}]> (cache st);
        clockReads := S (clockReads st);
        providerCalls := ((providerCalls st ++ [EmbedQueryCall text])
                            ++ [EmbedQueryCall text]) ++ [EmbedQueryCall text];
        delays := (delays st ++ [orDefault (retryDelay cfg) 1000])
                    ++ [orDefault (retryDelay cfg) 1000] |})).
  { unfold embedQuery.
    unfold bind at 1. rewrite (getFromCache_absent _ _ _ Habsent).
    unfold bind at 1. unfold embedWithRetry. rewrite Hcfg.
    change (orDefault (Some 3) 3 - 1) with 2.
    rewrite (embedWithRetryFrom_rejected w cfg 1 text st e1 H1).
    rewrite (embedWithRetryFrom_rejected w cfg 0 text _ e2);
      [|cbn [providerCalls]; rewrite length_app, Nat.add_1_r; exact H2].
    rewrite (embedWithRetryFrom_resolved w cfg 0 text _ v);
      [|cbn [providerCalls]; rewrite !length_app, !Nat.add_1_r; exact H3].
    reflexivity. }
  rewrite Hrun. cbn [fst snd cache providerCalls].
  repeat split.
  - eexists. split; reflexivity.
  - now apply map_size_insert_None.
  - now rewrite <- !app_assoc.
Qed.

Lemma embedQuery_retries_then_caches_once_witness :
  (embedQuery flakyWorld threeAttempts (js "what is LCA?") emptyState).1
    = Resolved [1 # 2; 1 # 4]
  /\ size (cache (embedQuery flakyWorld threeAttempts (js "what is LCA?")
                    emptyState).2) = 1.
Proof.
  destruct (embedQuery_retries_then_caches_once flakyWorld steadyWorld
              threeAttempts (js "what is LCA?") emptyState
              (js "503 Service Unavailable") (js "503 Service Unavailable")
              [1 # 2; 1 # 4])
    as (Hv & _ & _ & Hsize & _); try reflexivity.
  split; [exact Hv | exact Hsize].
Defined.

(** C10. Two different texts whose UTF-8 encodings agree on the first 24
    bytes have the same cache key; once [embedQuery] has stored the vector
    of the first, [embedQuery] on the second, while that entry has not
    expired, returns the first text's vector and does not call the
    provider. *)
Theorem cache_key_collision_returns_first_vector w cfg t1 t2 st v1 :
  t1 <> t2 ->
  take 24 (utf8 t1) = take 24 (utf8 t2) ->
  cache st !! generateCacheKey t1 = None ->
  providerEmbedQuery w (length (providerCalls st)) t1 = Resolved v1 ->
  (dateNow w (S (clockReads st)) - dateNow w (clockReads st) < cacheTTL)%Z ->
  generateCacheKey t1 = generateCacheKey t2
  /\ (embedQuery w cfg t1 st).1 = Resolved v1
  /\ (embedQuery w cfg t2 (embedQuery w cfg t1 st).2).1 = Resolved v1
  /\ providerCalls (embedQuery w cfg t2 (embedQuery w cfg t1 st).2).2
       = providerCalls (embedQuery w cfg t1 st).2.
Proof.
  intros _ Hprefix Habsent Hprov Hfresh.
  pose proof (generateCacheKey_prefix t1 t2 Hprefix) as Hkey.
  rewrite (embedQuery_miss_resolved w cfg t1 st v1 Habsent Hprov).
  cbn [fst snd]. split; [exact Hkey|]. split; [reflexivity|].
  set (st1 := {| cache := _; clockReads := S (clockReads st) |}).
  set (entry := {| embedding := Some v1; timestamp := dateNow w (clockReads st);
                   ttl := cacheTTL |}).
  assert (Hentry : cache st1 !! generateCacheKey t2 = Some entry).
  { unfold st1. cbn [cache]. rewrite <- Hkey. apply lookup_insert_eq. }
  destruct (getFromCache_fresh w (generateCacheKey t2) st1 entry Hentry Hfresh)
    as (Hval & Hcalls & _).
  unfold embedQuery, bind.
  destruct (getFromCache w (generateCacheKey t2) st1) as [cached st2].
  cbn [fst snd] in Hval, Hcalls. subst cached. cbn [embedding entry].
  unfold ret. cbn [fst snd]. split; [reflexivity | exact Hcalls].
Qed.

Lemma cache_key_collision_returns_first_vector_witness :
  generateCacheKey reportA = generateCacheKey reportB
  /\ (embedQuery steadyWorld threeAttempts reportB
        (embedQuery steadyWorld threeAttempts reportA emptyState).2).1
     = Resolved [1 # 2; 1 # 4].
Proof.
  assert (Hdiff : reportA <> reportB) by (vm_compute; discriminate).
  assert (Hprefix : take 24 (utf8 reportA) = take 24 (utf8 reportB))
    by (vm_compute; reflexivity).
  assert (Habsent : cache emptyState !! generateCacheKey reportA = None)
    by apply lookup_empty.
  assert (Hfresh : (dateNow steadyWorld (S (clockReads emptyState))
                    - dateNow steadyWorld (clockReads emptyState) < cacheTTL)%Z)
    by (vm_compute; reflexivity).
  destruct (cache_key_collision_returns_first_vector steadyWorld threeAttempts
              reportA reportB emptyState [1 # 2; 1 # 4]
              Hdiff Hprefix Habsent eq_refl Hfresh)
    as (Hkey & _ & Hsecond & _).
  split; [exact Hkey | exact Hsecond].
Defined.

End EmbeddingFacts.

(** ** The embedding manager: order of batch results *)

Module BatchFacts.
Import Js EmbeddingManager EmbeddingSpec EmbeddingFacts.

(** *** Arrays with holes *)

Lemma pad_length n arr : length arr <= n -> length (pad n arr) = n.
Proof. intros H. unfold pad. rewrite length_app, length_replicate. lia. Qed.

Lemma arraySet_length {A} (arr : list (option A)) i v :
  length (arraySet arr i v) = Nat.max (length arr) (S i).
Proof.
  unfold arraySet. destruct (Nat.ltb_spec i (length arr)).
  - rewrite length_insert. lia.
  - rewrite !length_app, length_replicate. simpl. lia.
Qed.

Lemma pad_arraySet n arr i v :
  length arr <= n -> i < n ->
  pad n (arraySet arr i v) = <[i := v]> (pad n arr).
Proof.
  intros Hlen Hi. unfold pad. rewrite arraySet_length.
  unfold arraySet. destruct (Nat.ltb_spec i (length arr)).
  - rewrite insert_app_l by assumption.
    now replace (Nat.max (length arr) (S i)) with (length arr) by lia.
  - rewrite insert_app_r_alt by assumption.
    rewrite <- !app_assoc. f_equal.
    replace (n - length arr) with ((i - length arr) + S (n - S i)) by lia.
    rewrite replicate_add. rewrite insert_app_r_alt by (rewrite length_replicate; lia).
    rewrite length_replicate, Nat.sub_diag. simpl.
    f_equal. f_equal. f_equal. lia.
Qed.


(** *** The two loops of [embedDocuments] *)

Section WithWorld.
Variable w : World.

Lemma getFromCache_calls key st :
  providerCalls (getFromCache w key st).2 = providerCalls st.
Proof.
  unfold getFromCache. destruct (cache st !! key) as [cached|]; [|reflexivity].
  unfold bind, readClock, ret. cbn [cache clockReads providerCalls delays].
  now destruct (_ <? _)%Z.
Qed.

Lemma cacheLookups_cons text rest st :
  cacheLookups w (text :: rest) st =
  ((getFromCache w (generateCacheKey text) st).1
     :: (cacheLookups w rest (getFromCache w (generateCacheKey text) st).2).1,
   (cacheLookups w rest (getFromCache w (generateCacheKey text) st).2).2).
Proof.
  cbn [cacheLookups]. unfold bind, ret.
  destruct (getFromCache w (generateCacheKey text) st) as [cached st1].
  cbn [fst snd]. now destruct (cacheLookups w rest st1).
Qed.

Lemma cacheLookups_calls texts : forall st,
  providerCalls (cacheLookups w texts st).2 = providerCalls st.
Proof.
  induction texts as [|text rest IH]; intros st; [reflexivity|].
  rewrite cacheLookups_cons. cbn [snd]. rewrite IH. apply getFromCache_calls.
Qed.

Lemma cacheLookups_length texts : forall st,
  length (cacheLookups w texts st).1 = length texts.
Proof.
  induction texts as [|text rest IH]; intros st; [reflexivity|].
  rewrite cacheLookups_cons. cbn [fst length]. now rewrite IH.
Qed.

Lemma checkCache_spec n texts : forall i results uncachedTexts uncachedIndices st,
  length results <= i -> i + length texts = n ->
  exists results',
    checkCache w texts i (results, uncachedTexts, uncachedIndices) st
    = ((results',
        uncachedTexts ++ uncachedOf texts (cacheLookups w texts st).1,
        uncachedIndices ++ uncachedIndicesOf i (cacheLookups w texts st).1),
       (cacheLookups w texts st).2)
    /\ length results' <= n
    /\ pad n results' = take i (pad n results) ++ (cacheLookups w texts st).1.
Proof.
  induction texts as [|text rest IH];
    intros i results uncachedTexts uncachedIndices st Hlen Hn.
  - exists results. cbn [checkCache cacheLookups uncachedOf uncachedIndicesOf].
    unfold ret. cbn [fst snd]. rewrite !app_nil_r. simpl in Hn.
    split; [reflexivity|]. split; [lia|].
    rewrite take_ge; [reflexivity|]. rewrite pad_length; lia.
  - rewrite cacheLookups_cons. cbn [checkCache fst snd]. unfold bind at 1.
    simpl in Hn.
    destruct (getFromCache w (generateCacheKey text) st) as [[v|] st1];
      cbn [fst snd].
    + destruct (IH (S i) (arraySet results i (Some v)) uncachedTexts
                  uncachedIndices st1) as (results' & Hrun & Hlen' & Hpad).
      { rewrite arraySet_length. lia. }
      { lia. }
      exists results'. rewrite Hrun. cbn [uncachedOf uncachedIndicesOf].
      split; [reflexivity|]. split; [assumption|].
      rewrite Hpad, pad_arraySet by lia.
      rewrite (take_S_r _ _ (Some v)).
      * rewrite take_insert_ge by lia. now rewrite <- app_assoc.
      * apply list_lookup_insert_eq. rewrite pad_length; lia.
    + destruct (IH (S i) results (uncachedTexts ++ [text])
                  (uncachedIndices ++ [i]) st1) as (results' & Hrun & Hlen' & Hpad);
        [lia|lia|].
      exists results'. rewrite Hrun. cbn [uncachedOf uncachedIndicesOf].
      rewrite <- !app_assoc. split; [reflexivity|]. split; [assumption|].
      rewrite Hpad. rewrite (take_S_r _ _ None).
      * now rewrite <- app_assoc.
      * unfold pad. rewrite lookup_app_r by lia.
        apply lookup_replicate. split; [reflexivity|lia].
Qed.



End WithWorld.

(** *** The answer list *)



Lemma uncachedIndicesOf_length texts : forall hits i,
  length texts = length hits ->
  length (uncachedIndicesOf i hits) = length (uncachedOf texts hits).
Proof.
  induction texts as [|text ts IH]; intros [|[v|] hs] i Hlen;
    try discriminate; cbn [uncachedIndicesOf uncachedOf length];
    [reflexivity | | f_equal]; apply IH; simpl in Hlen; lia.
Qed.



(** *** Answers by position *)








End BatchFacts.

(** ** The graph writer: the order chain *)

Module GraphFacts.
Import Js GraphWriter GraphSpec.

(** *** Writes of one batch *)

Lemma mergeChunks_other batch : forall g,
  documentNodes (foldl mergeChunk g batch) = documentNodes g
  /\ firstChunk (foldl mergeChunk g batch) = firstChunk g
  /\ nextChunk (foldl mergeChunk g batch) = nextChunk g.
Proof.
  induction batch as [|data rest IH]; intros g; [repeat split|].
  cbn [foldl]. destruct (IH (mergeChunk g data)) as (H1 & H2 & H3).
  rewrite H1, H2, H3. repeat split.
Qed.

Lemma mergeChunks_nodes batch : forall g x,
  is_Some (chunkNodes (foldl mergeChunk g batch) !! x)
  <-> is_Some (chunkNodes g !! x) \/ x ∈ map id batch.
Proof.
  induction batch as [|data rest IH]; intros g x; cbn [foldl map].
  - rewrite elem_of_nil. tauto.
  - rewrite IH, elem_of_cons. cbn [mergeChunk chunkNodes].
    rewrite lookup_insert_is_Some. destruct (decide (id data = x)); naive_solver.
Qed.

Lemma mergeFirstChunks fileName rels : forall g,
  is_Some (documentNodes g !! fileName) ->
  (forall r, r ∈ rels -> is_Some (chunkNodes g !! chunk_id r)) ->
  let g' := foldl (mergeFirstChunk fileName) g rels in
  documentNodes g' = documentNodes g /\ chunkNodes g' = chunkNodes g
  /\ nextChunk g' = nextChunk g
  /\ firstChunk g' = firstChunk g ∪ firstEdges fileName rels.
Proof.
  induction rels as [|r rest IH]; intros g Hdoc Hnodes; cbn [foldl].
  - repeat split. unfold firstEdges. cbn. set_solver.
  - assert (Hstep : mergeFirstChunk fileName g r =
      {| documentNodes := documentNodes g; chunkNodes := chunkNodes g;
         partOf := partOf g;
         firstChunk := {[ (fileName, chunk_id r) ]} ∪ firstChunk g;
         nextChunk := nextChunk g |}).
    { unfold mergeFirstChunk. rewrite decide_True; [reflexivity|].
      split; [assumption|]. apply Hnodes. set_solver. }
    rewrite Hstep.
    match goal with |- context [foldl _ ?g1 rest] =>
      destruct (IH g1) as (H1 & H2 & H3 & H4) end.
    { assumption. }
    { intros r' Hr'. apply Hnodes. set_solver. }
    cbn zeta. rewrite H1, H2, H3, H4. cbn [documentNodes chunkNodes nextChunk firstChunk].
    repeat split. unfold firstEdges. cbn [map list_to_set]. set_solver.
Qed.

Lemma mergeNextChunks rels : forall g,
  (forall r, r ∈ rels ->
     is_Some (chunkNodes g !! previous_chunk_id r)
     /\ is_Some (chunkNodes g !! current_chunk_id r)) ->
  let g' := foldl mergeNextChunk g rels in
  documentNodes g' = documentNodes g /\ chunkNodes g' = chunkNodes g
  /\ firstChunk g' = firstChunk g
  /\ nextChunk g' = nextChunk g ∪ nextEdges rels.
Proof.
  induction rels as [|r rest IH]; intros g Hnodes; cbn [foldl].
  - repeat split. unfold nextEdges. cbn. set_solver.
  - assert (Hstep : mergeNextChunk g r =
      {| documentNodes := documentNodes g; chunkNodes := chunkNodes g;
         partOf := partOf g; firstChunk := firstChunk g;
         nextChunk := {[ (previous_chunk_id r, current_chunk_id r) ]}
                        ∪ nextChunk g |}).
    { unfold mergeNextChunk. rewrite decide_True; [reflexivity|].
      destruct (Hnodes r); [set_solver|]. split; assumption. }
    rewrite Hstep.
    match goal with |- context [foldl _ ?g1 rest] =>
      destruct (IH g1) as (H1 & H2 & H3 & H4) end.
    { intros r' Hr'. apply Hnodes. set_solver. }
    cbn zeta. rewrite H1, H2, H3, H4. cbn [documentNodes chunkNodes nextChunk firstChunk].
    repeat split. unfold nextEdges. cbn [map list_to_set]. set_solver.
Qed.

(** A batch whose rows refer to chunks that exist or are in the batch
    writes every relationship it asks for. *)
Lemma createChunksAndRelationshipsOptimized_writes fileName batch firsts nexts g :
  is_Some (documentNodes g !! fileName) ->
  (forall r, r ∈ firsts ->
     is_Some (chunkNodes g !! chunk_id r) \/ chunk_id r ∈ map id batch) ->
  (forall r, r ∈ nexts ->
     (is_Some (chunkNodes g !! previous_chunk_id r)
      \/ previous_chunk_id r ∈ map id batch)
     /\ (is_Some (chunkNodes g !! current_chunk_id r)
         \/ current_chunk_id r ∈ map id batch)) ->
  batch <> [] ->
  let g' := createChunksAndRelationshipsOptimized fileName batch firsts nexts g in
  documentNodes g' = documentNodes g
  /\ (forall x, is_Some (chunkNodes g' !! x)
                <-> is_Some (chunkNodes g !! x) \/ x ∈ map id batch)
  /\ firstChunk g' = firstChunk g ∪ firstEdges fileName firsts
  /\ nextChunk g' = nextChunk g ∪ nextEdges nexts.
Proof.
  intros Hdoc Hfirsts Hnexts Hbatch g'. subst g'.
  unfold createChunksAndRelationshipsOptimized.
  destruct batch as [|data batch']; [congruence|].
  set (batch := data :: batch') in *.
  set (g1 := foldl mergeChunk g batch).
  destruct (mergeChunks_other batch g) as (Hd1 & Hf1 & Hn1). fold g1 in Hd1, Hf1, Hn1.
  pose proof (mergeChunks_nodes batch g) as Hc1. fold g1 in Hc1.
  destruct (mergeFirstChunks fileName firsts g1) as (Hd2 & Hc2 & Hn2 & Hf2).
  { now rewrite Hd1. }
  { intros r Hr. apply Hc1. auto. }
  set (g2 := match firsts with
             | [] => g1
             | _ => foldl (mergeFirstChunk fileName) g1 firsts
             end).
  assert (Hg2 : g2 = foldl (mergeFirstChunk fileName) g1 firsts)
    by (unfold g2; now destruct firsts).
  destruct (mergeNextChunks nexts g2) as (Hd3 & Hc3 & Hf3 & Hn3).
  { intros r Hr. rewrite Hg2, Hc2. destruct (Hnexts r Hr).
    split; apply Hc1; assumption. }
  assert (Hg3 : match nexts with
                | [] => g2
                | _ => foldl mergeNextChunk g2 nexts
                end = foldl mergeNextChunk g2 nexts) by now destruct nexts.
  rewrite Hg3, Hd3, Hc3, Hf3, Hn3, Hg2, Hd2, Hc2, Hf2, Hn2, Hd1, Hf1, Hn1.
  repeat split; try apply Hc1.
Qed.

(** *** The loop of [createRelationBetweenChunks] *)

Lemma consecutive_snoc ids x :
  consecutive (ids ++ [x])
  = consecutive ids ∪ match last ids with
                      | Some a => {[ (a, x) ]}
                      | None => ∅
                      end.
Proof.
  induction ids as [|a [|b rest] IH].
  - cbn. set_solver.
  - cbn. set_solver.
  - change (consecutive ((a :: b :: rest) ++ [x]))
      with ({[ (a, b) ]} ∪ consecutive ((b :: rest) ++ [x])).
    rewrite IH.
    change (consecutive (a :: b :: rest))
      with ({[ (a, b) ]} ∪ consecutive (b :: rest)).
    change (last (a :: b :: rest)) with (last (b :: rest)).
    set_solver.
Qed.

Section WithBuilder.
Variable generateHash : JsString -> JsString.
Variable batchSize : nat.
Variable fileName : JsString.
Variable allChunks : list ChunkNode.
Variable g0 : Graph.

Local Abbreviation Inv := (BuilderInvariant fileName g0).

Lemma pushRows_invariant done chunk st :
  Inv done st ->
  Inv (done ++ [generateHash (text chunk)])
      (pushRows generateHash fileName allChunks (length done) chunk st).
Proof.
  intros [Hlst Hnext Hfirst Hdoc Hnodes Hfrows Hnrows Hpending].
  assert (Hlast : lastChunkId (lstChunksIncludingHash st)
                  = match last done with Some a => a | None => [] end).
  { unfold lastChunkId. rewrite <- Hlst, fmap_last.
    now destruct (last (lstChunksIncludingHash st)). }
  split; cbn [pushRows lstChunksIncludingHash batchData firstRelationships
              nextRelationships graph].
  - now rewrite fmap_app, Hlst.
  - rewrite consecutive_snoc. destruct done as [|a done']; cbn [length Nat.eqb].
    + cbn in *. set_solver.
    + rewrite Hlast. unfold nextEdges in *. rewrite map_app, list_to_set_app_L.
      destruct (last (a :: done')) as [b|] eqn:Hb;
        [|now apply last_None in Hb].
      cbn [map list_to_set previous_chunk_id current_chunk_id]. set_solver.
  - destruct done as [|a done']; cbn [length Nat.eqb app firstEdgeOf] in *.
    + unfold firstEdges in *. rewrite map_app, list_to_set_app_L.
      cbn [map list_to_set chunk_id]. set_solver.
    + exact Hfirst.
  - exact Hdoc.
  - intros x Hx. apply elem_of_app in Hx as [Hx|Hx].
    + destruct (Hnodes x Hx); [now left|right]. rewrite map_app. set_solver.
    + right. rewrite map_app. cbn [map id]. set_solver.
  - intros r Hr. destruct done as [|a done']; cbn [length Nat.eqb] in Hr.
    + apply elem_of_app in Hr as [Hr|Hr]; [specialize (Hfrows r Hr); set_solver|].
      apply list_elem_of_singleton in Hr. subst r. cbn. set_solver.
    + specialize (Hfrows r Hr). set_solver.
  - intros r Hr. destruct done as [|a done']; cbn [length Nat.eqb] in Hr.
    + destruct (Hnrows r Hr). set_solver.
    + apply elem_of_app in Hr as [Hr|Hr]; [destruct (Hnrows r Hr); set_solver|].
      apply list_elem_of_singleton in Hr. subst r.
      cbn [previous_chunk_id current_chunk_id]. rewrite Hlast.
      destruct (last (a :: done')) as [b|] eqn:Hb;
        [|now apply last_None in Hb].
      apply last_Some_elem_of in Hb. set_solver.
  - intros Hempty. now apply app_nil in Hempty as [_ ?].
Qed.

Lemma flushBatch_invariant done st :
  Inv done st -> batchData st <> [] -> Inv done (flushBatch fileName st).
Proof.
  intros [Hlst Hnext Hfirst Hdoc Hnodes Hfrows Hnrows Hpending] Hbatch.
  destruct (createChunksAndRelationshipsOptimized_writes fileName
              (batchData st) (firstRelationships st) (nextRelationships st)
              (graph st)) as (Hd & Hc & Hf & Hn); auto.
  { intros r Hr. destruct (Hnrows r Hr). auto. }
  split; cbn [flushBatch lstChunksIncludingHash batchData firstRelationships
              nextRelationships graph].
  - exact Hlst.
  - rewrite Hn. unfold nextEdges at 2. cbn. rewrite <- Hnext. set_solver.
  - rewrite Hf. unfold firstEdges at 2. cbn. rewrite <- Hfirst. set_solver.
  - now rewrite Hd.
  - intros x Hx. left. apply Hc. auto.
  - intros r Hr. set_solver.
  - intros r Hr. set_solver.
  - auto.
Qed.

Lemma processChunk_invariant done chunk st :
  Inv done st ->
  Inv (done ++ [generateHash (text chunk)])
      (processChunk generateHash batchSize fileName allChunks (length done)
         chunk st).
Proof.
  intros Hinv. unfold processChunk.
  pose proof (pushRows_invariant done chunk st Hinv) as Hpush.
  destruct (_ <=? _); [|exact Hpush].
  apply flushBatch_invariant; [exact Hpush|].
  cbn [pushRows batchData]. now destruct (batchData st).
Qed.

Lemma processChunks_invariant rest : forall done st,
  Inv done st ->
  Inv (done ++ map (fun chunk => generateHash (text chunk)) rest)
      (processChunks generateHash batchSize fileName allChunks (length done)
         rest st).
Proof.
  induction rest as [|chunk rest IH]; intros done st Hinv; cbn [processChunks map].
  - now rewrite app_nil_r.
  - specialize (IH (done ++ [generateHash (text chunk)])
                   (processChunk generateHash batchSize fileName allChunks
                      (length done) chunk st)
                   (processChunk_invariant done chunk st Hinv)).
    rewrite length_app, Nat.add_1_r, <- app_assoc in IH. exact IH.
Qed.

(** The graph after the loop and the last batch. *)
Lemma createRelationBetweenChunks_graph :
  is_Some (documentNodes g0 !! fileName) ->
  let ids := map (fun chunk => generateHash (text chunk)) allChunks in
  let g := (createRelationBetweenChunks generateHash batchSize fileName
              allChunks g0).2 in
  nextChunk g = nextChunk g0 ∪ consecutive ids
  /\ firstChunk g = firstChunk g0 ∪ firstEdgeOf fileName ids
  /\ (forall x, x ∈ ids -> is_Some (chunkNodes g !! x)).
Proof.
  intros Hdoc ids g.
  set (st0 := {| lstChunksIncludingHash := []; batchData := [];
                 firstRelationships := []; nextRelationships := [];
                 offset := 0; graph := g0 |}).
  assert (Hinit : Inv [] st0).
  { split; cbn; try set_solver. }
  pose proof (processChunks_invariant allChunks [] st0 Hinit) as Hloop.
  cbn [app length] in Hloop. fold ids in Hloop.
  set (st := processChunks generateHash batchSize fileName allChunks 0
               allChunks st0) in *.
  assert (Hend : exists st', Inv ids st' /\ batchData st' = [] /\ graph st' = g).
  { subst g. unfold createRelationBetweenChunks. fold st0. fold st. cbn [snd].
    destruct (batchData st) as [|data rest] eqn:Hbatch.
    - exists st. auto.
    - exists (flushBatch fileName st). split; [|split].
      + apply flushBatch_invariant; [exact Hloop | congruence].
      + reflexivity.
      + cbn [flushBatch graph]. now rewrite Hbatch. }
  destruct Hend as (st' & [_ Hnext Hfirst _ Hnodes _ _ Hpending] & Hbatch & Hg).
  destruct (Hpending Hbatch) as [Hf Hn]. rewrite Hf, Hn, Hg in *.
  rewrite Hbatch in Hnodes. unfold nextEdges, firstEdges in *. cbn in Hnext, Hfirst.
  split; [set_solver|]. split; [set_solver|].
  intros x Hx. destruct (Hnodes x Hx) as [?|Hin]; [assumption|].
  cbn in Hin. set_solver.
Qed.

End WithBuilder.

(** *** Walking the chain *)

Lemma consecutive_elem ids a b :
  (a, b) ∈ consecutive ids
  <-> exists k, ids !! k = Some a /\ ids !! S k = Some b.
Proof.
  induction ids as [|x [|y rest] IH].
  - cbn. split; [set_solver | intros (k & Hk & _); discriminate].
  - cbn. split; [set_solver|]. intros ([|k] & _ & Hk); discriminate.
  - change (consecutive (x :: y :: rest))
      with ({[ (x, y) ]} ∪ consecutive (y :: rest)).
    rewrite elem_of_union, elem_of_singleton, IH. split.
    + intros [Heq | (k & Ha & Hb)].
      * inversion Heq; subst. exists 0. split; reflexivity.
      * exists (S k). split; assumption.
    + intros ([|k] & Ha & Hb).
      * left. cbn in Ha, Hb. congruence.
      * right. exists k. split; assumption.
Qed.

Lemma targetsFrom_filter (edges : gset (JsString * JsString))
    (source : JsString) (targets : gset (JsString * JsString)) :
  filter (fun edge => edge.1 = source) edges = targets ->
  targetsFrom edges source = (elements targets).*2.
Proof. intros <-. reflexivity. Qed.

(** In a graph whose NEXT_CHUNK relationships are those of [ids], plus
    relationships that do not leave a chunk of [ids], the successors of the
    [k]-th chunk are the [k+1]-th chunk, if there is one. *)
Lemma targetsFrom_consecutive (others : gset (JsString * JsString)) ids k a :
  NoDup ids ->
  (forall edge, edge ∈ others -> edge.1 ∉ ids) ->
  ids !! k = Some a ->
  targetsFrom (others ∪ consecutive ids) a
  = match ids !! S k with
    | Some b => [b]
    | None => []
    end.
Proof.
  intros Hnodup Hothers Hk.
  rewrite (targetsFrom_filter _ _
             match ids !! S k with
             | Some b => {[ (a, b) ]}
             | None => ∅
             end).
  - destruct (ids !! S k); [now rewrite elements_singleton | now rewrite elements_empty].
  - apply set_eq. intros [p q].
    rewrite elem_of_filter, elem_of_union, consecutive_elem. cbn [fst].
    split.
    + intros [-> [Hin | (j & Hp & Hq)]].
      * exfalso. apply (Hothers _ Hin). cbn. eapply list_elem_of_lookup_2; eauto.
      * rewrite (NoDup_lookup _ _ _ _ Hnodup Hk Hp), Hq. set_solver.
    + destruct (ids !! S k) as [b|] eqn:Hb; [|set_solver].
      intros Heq. apply elem_of_singleton in Heq. inversion Heq; subst.
      split; [reflexivity|]. right. eauto.
Qed.

Lemma followChain_step fuel g current :
  followChain (S fuel) g current
  = match targetsFrom (nextChunk g) current with
    | [] => Some [current]
    | [next] => (current ::.) <$> followChain fuel g next
    | _ => None
    end.
Proof. reflexivity. Qed.

Lemma followChain_walk g : forall rest x,
  (forall k a, (x :: rest) !! k = Some a ->
     targetsFrom (nextChunk g) a
     = match (x :: rest) !! S k with
       | Some b => [b]
       | None => []
       end) ->
  followChain (S (length rest)) g x = Some (x :: rest).
Proof.
  induction rest as [|y rest IH]; intros x Hnext.
  - rewrite followChain_step. now rewrite (Hnext 0 x eq_refl).
  - cbn [length]. rewrite followChain_step, (Hnext 0 x eq_refl).
    cbn [lookup list_lookup]. rewrite IH; [reflexivity|].
    intros k a Hk. exact (Hnext (S k) a Hk).
Qed.

(** *** Chain integrity *)

(** C3 (as amended). A document with at least one chunk, whose chunks have
    pairwise different content hashes, is written to a graph that has no
    FIRST_CHUNK relationship from the document and no NEXT_CHUNK
    relationship leaving one of its chunks.  Then the document has exactly
    one FIRST_CHUNK relationship, to its first chunk, and the walk along
    NEXT_CHUNK from there visits the chunks in input order, each once, and
    ends after the last one. *)
Theorem chain_integrity_distinct_hashes generateHash batchSize document g0 :
  let ids := map (fun chunk => generateHash (text chunk)) (chunks document) in
  let g := processDocument generateHash batchSize document g0 in
  chunks document <> [] ->
  NoDup ids ->
  (forall edge, edge ∈ firstChunk g0 -> edge.1 <> filename document) ->
  (forall edge, edge ∈ nextChunk g0 -> edge.1 ∉ ids) ->
  targetsFrom (firstChunk g) (filename document) = take 1 ids
  /\ (forall firstId, ids !! 0 = Some firstId ->
        followChain (length ids) g firstId = Some ids)
  /\ ChainIntegrity g (filename document) (length (chunks document)).
Proof.
  intros ids g Hchunks Hnodup Hfirst0 Hnext0.
  set (g1 := createDocument (js "document") (filePath document)
               (filename document) (js "general") g0).
  destruct (createRelationBetweenChunks_graph generateHash batchSize
              (filename document) (chunks document) g1)
    as (Hnext & Hfirst & _).
  { unfold g1. cbn [createDocument documentNodes].
    rewrite lookup_insert_eq. eauto. }
  fold ids in Hnext, Hfirst. change (nextChunk g1) with (nextChunk g0) in Hnext.
  change (firstChunk g1) with (firstChunk g0) in Hfirst.
  change (createRelationBetweenChunks generateHash batchSize
            (filename document) (chunks document) g1).2 with g in Hnext, Hfirst.
  destruct ids as [|firstId rest] eqn:Hids.
  { apply map_eq_nil in Hids. contradiction. }
  assert (Htargets : targetsFrom (firstChunk g) (filename document) = [firstId]).
  { rewrite Hfirst.
    rewrite (targetsFrom_filter _ _ {[ (filename document, firstId) ]}).
    - now rewrite elements_singleton.
    - apply set_eq. intros [p q].
      rewrite elem_of_filter, elem_of_union. cbn [fst firstEdgeOf].
      split; [|set_solver].
      intros [-> [Hin|Hin]]; [|exact Hin].
      exfalso. exact (Hfirst0 _ Hin eq_refl). }
  assert (Hwalk : followChain (length (firstId :: rest)) g firstId
                  = Some (firstId :: rest)).
  { apply followChain_walk. intros k a Hk. rewrite Hnext.
    now apply targetsFrom_consecutive. }
  split; [exact Htargets|]. split.
  - intros x Hx. cbn in Hx. now inversion Hx; subst.
  - exists firstId, (length (firstId :: rest)), (firstId :: rest).
    repeat split; try assumption.
    rewrite <- Hids. unfold ids. now rewrite length_map.
Qed.

Lemma chain_integrity_distinct_hashes_witness :
  ChainIntegrity (processDocument (fun content => content) 2 plainDocument
                    emptyGraph)
    (filename plainDocument) 3.
Proof.
  assert (Hnodup : NoDup (map (fun chunk => text chunk) (chunks plainDocument))).
  { apply (bool_decide_unpack _). vm_compute. exact I. }
  assert (Hchunks : chunks plainDocument <> []) by discriminate.
  assert (Hfirst : forall edge : JsString * JsString,
            edge ∈ firstChunk emptyGraph -> edge.1 <> filename plainDocument).
  { intros edge Hin. cbn in Hin. set_solver. }
  assert (Hnext : forall edge : JsString * JsString,
            edge ∈ nextChunk emptyGraph ->
            edge.1 ∉ map (fun chunk => text chunk) (chunks plainDocument)).
  { intros edge Hin. cbn in Hin. set_solver. }
  exact (proj2 (proj2 (chain_integrity_distinct_hashes
                         (fun content => content) 2 plainDocument emptyGraph
                         Hchunks Hnodup Hfirst Hnext))).
Defined.

(** The graph of [repeatingDocument]: the walk from the first chunk comes
    back to it. *)
Lemma repeating_walk_never_ends fuel :
  followChain fuel
    (processDocument (fun content => content) 50 repeatingDocument emptyGraph)
    (js "Scope 1") = None
  /\ followChain fuel
       (processDocument (fun content => content) 50 repeatingDocument emptyGraph)
       (js "Scope 2") = None.
Proof.
  set (g := processDocument _ _ _ _).
  assert (H1 : targetsFrom (nextChunk g) (js "Scope 1") = [js "Scope 2"])
    by (vm_compute; reflexivity).
  assert (H2 : targetsFrom (nextChunk g) (js "Scope 2") = [js "Scope 1"])
    by (vm_compute; reflexivity).
  induction fuel as [|fuel [IH1 IH2]]; [split; reflexivity|].
  rewrite !followChain_step, H1, H2, IH1, IH2. split; reflexivity.
Qed.

(** C3 (as stated) fails: a document of three chunks whose first and third
    chunk have the same text gets two chunk nodes and the relationships
    1 -> 2 and 2 -> 1, so no walk from the first chunk ends. *)
Lemma chain_integrity_fails_on_repeated_text :
  ~ ChainIntegrity
      (processDocument (fun content => content) 50 repeatingDocument emptyGraph)
      (filename repeatingDocument) (length (chunks repeatingDocument)).
Proof.
  intros (firstId & fuel & visited & Hfirst & Hwalk & _).
  assert (Htargets : targetsFrom
            (firstChunk (processDocument (fun content => content) 50
                           repeatingDocument emptyGraph))
            (filename repeatingDocument) = [js "Scope 1"])
    by (vm_compute; reflexivity).
  rewrite Htargets in Hfirst. inversion Hfirst; subst firstId.
  pose proof (proj1 (repeating_walk_never_ends fuel)) as Hnone.
  clear Hfirst Htargets.
  assert (Heq : @None (list JsString) = Some visited).
  { rewrite <- Hwalk, <- Hnone. reflexivity. }
  inversion Heq.
Qed.

End GraphFacts.

(** ** Sorting and slicing *)

Module NumbersFacts.
Import Numbers.

Section Sorting.
Context {A : Type}.
Variable after : A -> A -> bool.

Lemma insertSorted_elem x sorted y :
  y ∈ insertSorted after x sorted <-> y = x \/ y ∈ sorted.
Proof.
  induction sorted as [|z rest IH]; cbn [insertSorted].
  - set_solver.
  - destruct (after z x); [set_solver|].
    rewrite !elem_of_cons, IH. tauto.
Qed.

Lemma sortWith_elem_from l : forall sorted y,
  y ∈ foldl (fun sorted x => insertSorted after x sorted) sorted l
  <-> y ∈ sorted \/ y ∈ l.
Proof.
  induction l as [|x rest IH]; intros sorted y; cbn [foldl].
  - set_solver.
  - rewrite IH, insertSorted_elem, elem_of_cons. tauto.
Qed.

Lemma sortWith_elem l y : y ∈ sortWith after l <-> y ∈ l.
Proof. unfold sortWith. rewrite sortWith_elem_from. set_solver. Qed.

Lemma sortWith_Forall (P : A -> Prop) l :
  Forall P l -> Forall P (sortWith after l).
Proof.
  rewrite !Forall_forall. intros H y Hy. apply H. now apply sortWith_elem.
Qed.

(** A relation that the comparator respects is kept by insertion. *)
Variable before : A -> A -> Prop.
Hypothesis before_trans : forall a b c, before a b -> before b c -> before a c.
Hypothesis after_before : forall a b, after a b = true -> before b a.
Hypothesis not_after_before : forall a b, after a b = false -> before a b.

Lemma insertSorted_sorted x sorted :
  StronglySorted before sorted ->
  StronglySorted before (insertSorted after x sorted).
Proof.
  induction 1 as [|z rest Hrest IH Hz]; cbn [insertSorted].
  - repeat constructor.
  - destruct (after z x) eqn:Hcmp.
    + constructor; [now constructor|].
      constructor; [now apply after_before|].
      eapply Forall_impl; [exact Hz|]. intros w Hw.
      eapply before_trans; [|exact Hw]. now apply after_before.
    + constructor; [exact IH|].
      apply Forall_forall. intros w Hw. apply insertSorted_elem in Hw as [->|Hw].
      * now apply not_after_before.
      * rewrite Forall_forall in Hz. now apply Hz.
Qed.

Lemma sortWith_sorted l : StronglySorted before (sortWith after l).
Proof.
  unfold sortWith.
  assert (H : forall sorted, StronglySorted before sorted ->
            StronglySorted before
              (foldl (fun sorted x => insertSorted after x sorted) sorted l)).
  { induction l as [|x rest IH]; intros sorted Hs; cbn [foldl]; [exact Hs|].
    apply IH. now apply insertSorted_sorted. }
  apply H. constructor.
Qed.

End Sorting.


Lemma slice0_Forall {A} (P : A -> Prop) (l : list A) limit :
  Forall P l -> Forall P (slice0 l limit).
Proof. intros H. unfold slice0. destruct (_ <? _)%Z; now apply Forall_take. Qed.

End NumbersFacts.

(** ** Unified search: fusion, limits and the lexical branch *)

Module UnifiedSearchFacts.
Import Js Numbers NumbersFacts EmbeddingManager Store UnifiedSearch SearchSpec SearchSamples.

(** *** Normalized scores *)

Lemma unit_bounds :
  (0 <= 0)%Q /\ (0 <= 1)%Q /\ (1 <= 1)%Q /\ (0 <= 5 # 10)%Q /\ (5 # 10 <= 1)%Q.
Proof. unfold Qle; cbn; lia. Qed.

Lemma clamp01_range n :
  clamp01 n = NaN
  \/ exists s, clamp01 n = Finite s /\ (0 <= s)%Q /\ (s <= 1)%Q.
Proof.
  destruct unit_bounds as (H00 & H01 & H11 & _).
  destruct n as [x| | |]; cbn; [|right|right|now left].
  - right. destruct (Qle_bool 1 x) eqn:H1; cbn.
    + exists 1%Q. auto.
    + destruct (Qle_bool 0 x) eqn:H0.
      * exists x. split; [reflexivity|]. split; [now apply Qle_bool_iff|].
        apply Qlt_le_weak, Qnot_le_lt. intros Hle.
        apply Qle_bool_iff in Hle. congruence.
      * exists 0%Q. auto.
  - exists 1%Q. auto.
  - exists 0%Q. auto.
Qed.

Lemma normalizeScore_range raw :
  normalizeScore raw = NaN
  \/ exists s, normalizeScore raw = Finite s /\ (0 <= s)%Q /\ (s <= 1)%Q.
Proof.
  destruct unit_bounds as (_ & _ & _ & H0 & H1).
  destruct raw as [n|[low|] [high|]|]; cbn [normalizeScore];
    try apply clamp01_range; right; exists (5 # 10); auto.
Qed.

Lemma deduplicate_Forall (P : ScoredResult -> Prop) results : forall seen,
  Forall P results -> Forall P (deduplicate results seen).
Proof.
  induction results as [|r rest IH]; intros seen Hall; cbn [deduplicate];
    [constructor|].
  inversion Hall; subst. destruct (bool_decide _); [auto|].
  constructor; auto.
Qed.

Lemma fuse_in_range validResults :
  Forall (fun r => normalizedScore r = normalizeScore (score (result r))
                   /\ InUnitRange r)
         (fuse validResults).
Proof.
  unfold fuse. apply Forall_forall. intros r Hr.
  apply list_elem_of_filter in Hr as [Hquality Hr].
  assert (Hnorm : Forall (fun r => normalizedScore r
                                   = normalizeScore (score (result r)))
            (deduplicate
               (sortWith lowerNormalizedScore
                  (map (fun r => {| result := r;
                                    normalizedScore := normalizeScore (score r) |})
                       validResults)) [])).
  { apply deduplicate_Forall, sortWith_Forall, Forall_forall.
    intros x Hx. apply list_elem_of_fmap in Hx as (y & -> & _). reflexivity. }
  rewrite Forall_forall in Hnorm. specialize (Hnorm r Hr).
  split; [exact Hnorm|].
  destruct (normalizeScore_range (score (result r))) as [Hnan|Hrange].
  - unfold passesQuality in Hquality. rewrite Hnorm, Hnan in Hquality.
    discriminate.
  - unfold InUnitRange. now rewrite Hnorm.
Qed.

Lemma optimizeResults_fuse results resultLimit :
  optimizeResults results resultLimit
  = slice0 (fuse (filter (fun r => isValid r = true) results)) resultLimit.
Proof.
  unfold optimizeResults.
  destruct (filter _ results) as [|r rest]; [|reflexivity].
  assert (Hnil : fuse [] = []) by reflexivity.
  rewrite Hnil. unfold slice0. cbn [length Nat.eqb].
  destruct (_ <? _)%Z; now rewrite take_nil.
Qed.

Section WithServices.
Variable embedQuery : JsString -> Outcome Vector.
Variable cosine : Vector -> Vector -> option Q.
Variable store : Store.
Variable strategies : gmap JsString SearchStrategy.

Lemma search_fuse q options :
  search embedQuery cosine store strategies q options
  = match collect embedQuery cosine store q options
            (resolveStrategy strategies (strategy options)) with
    | Resolved candidates =>
        slice0 (fuse (filter (fun r => isValid r = true) candidates))
          (resultLimitOf (resolveStrategy strategies (strategy options)) q)
    | Rejected _ => []
    end.
Proof.
  unfold search. destruct (collect _ _ _ _ _ _); [|reflexivity].
  apply optimizeResults_fuse.
Qed.

End WithServices.

(** C7. Every result returned by [search] carries the normalized score of
    its raw score, and that is a number between 0 and 1.  A finite raw
    number is clamped, the infinities go to the nearer bound, an object is
    resolved to its [low] field or else its [high] field divided by 100
    and clamped, and every other value gives 0.5. *)
Theorem search_normalized_scores_in_unit_range
    embedQuery cosine store strategies q options :
  Forall (fun r => normalizedScore r = normalizeScore (score (result r))
                   /\ InUnitRange r)
         (search embedQuery cosine store strategies q options)
  /\ (forall x, normalizeScore (JsNum (Finite x)) = Finite (clampQ x))
  /\ normalizeScore (JsNum PosInfinity) = Finite 1
  /\ normalizeScore (JsNum NegInfinity) = Finite 0
  /\ (forall low high,
        normalizeScore (JsObject (Some low) high) = clamp01 (divideBy100 low))
  /\ (forall high,
        normalizeScore (JsObject None (Some high)) = clamp01 (divideBy100 high))
  /\ normalizeScore (JsObject None None) = Finite (5 # 10)
  /\ normalizeScore JsOther = Finite (5 # 10).
Proof.
  split; [|repeat split].
  - rewrite search_fuse. destruct (collect _ _ _ _ _ _); [|constructor].
    apply slice0_Forall, fuse_in_range.
  - intros x. unfold clampQ. cbn.
    destruct (Qle_bool 1 x); [reflexivity|]. now destruct (Qle_bool 0 x).
Qed.




(** *** The lexical branch *)

Lemma startsWith_map (f : N -> N) s : forall part,
  startsWith s part = true -> startsWith (map f s) (map f part) = true.
Proof.
  induction s as [|c s IH]; intros [|p part] H; cbn in *;
    try reflexivity; try discriminate.
  apply andb_true_iff in H as [Hc Hrest]. apply N.eqb_eq in Hc. subst.
  rewrite N.eqb_refl. cbn. now apply IH.
Qed.

Lemma contains_map (f : N -> N) s part :
  contains s part = true -> contains (map f s) (map f part) = true.
Proof.
  induction s as [|c s IH]; cbn [contains map]; intros H.
  - apply orb_true_iff in H as [H|H]; [|discriminate].
    apply orb_true_iff. left. exact (startsWith_map f [] part H).
  - apply orb_true_iff in H as [H|H].
    + apply orb_true_iff. left. exact (startsWith_map f (c :: s) part H).
    + apply orb_true_iff. right. exact (IH H).
Qed.

(** C4 (as stated) fails: the text of the first chunk contains the query
    when both are lower-cased, and the branch does not return it. *)
Lemma performTextSearch_is_case_sensitive :
  ~ (forall chunk,
       chunk ∈ chunkRows twoChunkStore ->
       contains (toLower (c_text chunk)) (toLower (query lowercaseQuery)) = true ->
       exists results r,
         performTextSearch twoChunkStore lowercaseQuery None = Resolved results
         /\ r ∈ results /\ content r = c_text chunk).
Proof.
  intros Hclaim.
  assert (Hempty : performTextSearch twoChunkStore lowercaseQuery None
                   = Resolved []) by (vm_compute; reflexivity).
  destruct (Hclaim {| c_id := js "c1"; c_text := js "Emission factors for lignite";
                      c_chunk_index := 1; c_fileName := Some (js "factors.md");
                      c_document_id := None;
                      c_embedding := Some [3 # 5; 4 # 5] |})
    as (results & r & Hrun & Hin & _).
  - unfold twoChunkStore. cbn [chunkRows]. apply elem_of_cons. now left.
  - vm_compute. reflexivity.
  - rewrite Hempty in Hrun. inversion Hrun; subst. inversion Hin.
Qed.

End UnifiedSearchFacts.

(** ** Vector search with context expansion *)

Module VectorSearchFacts.
Import Js Numbers NumbersFacts EmbeddingManager Store VectorSearch SearchSamples.
Import ContextSpec.


(** The order that [sortWith lowerScore] establishes. *)
Lemma sortWith_lowerScore_sorted results :
  StronglySorted (fun a b => (score b <= score a)%Q)
                 (sortWith lowerScore results).
Proof.
  apply sortWith_sorted.
  - intros a b c Hab Hbc. eapply Qle_trans; eassumption.
  - intros a b Hafter. unfold lowerScore in Hafter.
    apply negb_true_iff in Hafter.
    apply Qlt_le_weak, Qnot_le_lt. intros Hle.
    apply Qle_bool_iff in Hle. congruence.
  - intros a b Hafter. unfold lowerScore in Hafter.
    apply negb_false_iff in Hafter. now apply Qle_bool_iff.
Qed.


Lemma removeDuplicatesFrom_covers results : forall seen x,
  x ∈ results -> id x ∉ seen ->
  exists r, r ∈ removeDuplicatesFrom results seen /\ id r = id x.
Proof.
  induction results as [|y rest IH]; intros seen x Hx Hseen;
    [inversion Hx|].
  cbn [removeDuplicatesFrom].
  destruct (bool_decide_reflect (id y ∈ seen)) as [Hy|Hy].
  - apply elem_of_cons in Hx as [->|Hx]; [contradiction|]. now apply IH.
  - destruct (decide (id x = id y)) as [Heq|Hne].
    + exists y. split; [left | congruence].
    + apply elem_of_cons in Hx as [->|Hx]; [congruence|].
      destruct (IH (id y :: seen) x Hx) as (r & Hr & Hid); [set_solver|].
      exists r. split; [now right | exact Hid].
Qed.

Section WithProvider.
Variable embedQuery : JsString -> Outcome Vector.
Variable cosine : Vector -> Vector -> option Q.
Variable store : Store.



Lemma getAdjacentChunks_score chunkId window :
  Forall (fun adj => score adj = adjacentScore)
         (getAdjacentChunks store chunkId window).
Proof.
  unfold getAdjacentChunks. destruct (findChunk store chunkId); [|constructor].
  apply Forall_forall. intros adj Hadj.
  apply list_elem_of_In, in_flat_map in Hadj as (x & _ & Hadj).
  unfold adjacentRow in Hadj. destruct (findChunk store x); [|destruct Hadj].
  destruct Hadj as [<-|[]]. reflexivity.
Qed.

Lemma expand_elem window hits r :
  r ∈ expand store window hits
  <-> exists hit, hit ∈ hits
                  /\ (r = hit \/ r ∈ getAdjacentChunks store (id hit) window).
Proof.
  unfold expand. rewrite list_elem_of_In, in_flat_map. split.
  - intros (hit & Hhit & Hr). exists hit.
    split; [now apply list_elem_of_In|].
    apply list_elem_of_In, elem_of_cons in Hr as [->|Hr]; auto.
  - intros (hit & Hhit & Hr). exists hit.
    split; [now apply list_elem_of_In|].
    apply list_elem_of_In, elem_of_cons. destruct Hr as [->|Hr]; auto.
Qed.

End WithProvider.

(** *** The chunks within the context window *)
















End VectorSearchFacts.

(** ** Facts about [trim] *)

Module TrimFacts.
Import Js JsFacts ChunkerViews.

Lemma trimStart_drop s : trimStart s = drop (leadingWhiteSpace s) s.
Proof.
  unfold leadingWhiteSpace.
  induction s as [|c r IH]; [reflexivity|]. cbn [trimStart].
  destruct (isWhiteSpace c) eqn:Hc.
  - pose proof (trimStart_length r). cbn [length].
    replace (S (length r) - length (trimStart r))
      with (S (length r - length (trimStart r))) by lia.
    exact IH.
  - cbn [length]. now rewrite Nat.sub_diag.
Qed.

Lemma trimStart_head s c r : trimStart s = c :: r -> isWhiteSpace c = false.
Proof.
  induction s as [|x s IH]; cbn [trimStart]; [discriminate|].
  destruct (isWhiteSpace x) eqn:Hx; [exact IH|].
  intros Heq. inversion Heq; subst. exact Hx.
Qed.

Lemma trimStart_covers s p c :
  s !! p = Some c -> isWhiteSpace c = false -> leadingWhiteSpace s <= p.
Proof.
  unfold leadingWhiteSpace. revert p.
  induction s as [|x s IH]; intros p Hp Hc; [discriminate|].
  cbn [trimStart]. destruct (isWhiteSpace x) eqn:Hx.
  - destruct p as [|p]; [cbn in Hp; congruence|].
    specialize (IH p Hp Hc). pose proof (trimStart_length s). cbn [length]. lia.
  - cbn [length]. lia.
Qed.

Lemma trimEnd_snoc t c :
  trimEnd (t ++ [c]) = if isWhiteSpace c then trimEnd t else t ++ [c].
Proof.
  unfold trimEnd. rewrite rev_app_distr. cbn [rev app trimStart].
  destruct (isWhiteSpace c); [reflexivity|].
  cbn [rev]. now rewrite rev_involutive.
Qed.

Lemma trimEnd_take t : trimEnd t = take (length (trimEnd t)) t.
Proof.
  induction t as [|c t IH] using rev_ind; [reflexivity|].
  rewrite trimEnd_snoc. destruct (isWhiteSpace c).
  - rewrite IH at 1. rewrite take_app_le; [reflexivity|].
    rewrite IH, length_take. lia.
  - now rewrite firstn_all.
Qed.

Lemma trimEnd_last t c : last (trimEnd t) = Some c -> isWhiteSpace c = false.
Proof.
  induction t as [|x t IH] using rev_ind; [discriminate|].
  rewrite trimEnd_snoc. destruct (isWhiteSpace x) eqn:Hx; [exact IH|].
  rewrite last_snoc. intros Heq. inversion Heq; subst. exact Hx.
Qed.

Lemma trimEnd_covers t p c :
  t !! p = Some c -> isWhiteSpace c = false -> p < length (trimEnd t).
Proof.
  induction t as [|x t IH] using rev_ind; intros Hp Hc; [discriminate|].
  rewrite trimEnd_snoc.
  destruct (decide (p < length t)) as [Hlt|Hge].
  - rewrite lookup_app_l in Hp by assumption.
    destruct (isWhiteSpace x); [now apply IH|].
    rewrite length_app. lia.
  - rewrite lookup_app_r in Hp by lia.
    destruct (p - length t) as [|k] eqn:Hk; [|destruct k; discriminate].
    cbn in Hp. inversion Hp; subst. rewrite Hc. rewrite length_app. cbn. lia.
Qed.

(** [trim] keeps a contiguous piece of the string that holds every code
    unit that is not white space. *)
Lemma trim_slice s :
  let a := leadingWhiteSpace s in
  let b := a + length (trim s) in
  trim s = slice s a b /\ b <= length s
  /\ forall p c, s !! p = Some c -> isWhiteSpace c = false -> a <= p < b.
Proof.
  intros a b. subst a b. unfold trim.
  pose proof (trimStart_length s) as Hlen.
  pose proof (trim_length (trimStart s)) as Hlen'. 
  split; [|split].
  - unfold slice. rewrite trimEnd_take at 1. rewrite <- trimStart_drop.
    f_equal. lia.
  - unfold leadingWhiteSpace.
    pose proof (trimEnd_take (trimStart s)) as Htake.
    apply (f_equal length) in Htake. rewrite length_take in Htake. lia.
  - intros p c Hp Hc. pose proof (trimStart_covers s p c Hp Hc) as Ha.
    split; [exact Ha|].
    assert (Hq : trimStart s !! (p - leadingWhiteSpace s) = Some c).
    { rewrite trimStart_drop, lookup_drop. rewrite <- Hp. f_equal. lia. }
    pose proof (trimEnd_covers _ _ _ Hq Hc). lia.
Qed.

Lemma trim_Trimmed s : trim s <> [] -> Trimmed (trim s).
Proof.
  intros Hne. unfold trim in *.
  destruct (trimEnd (trimStart s)) as [|first rest] eqn:Hrun; [congruence|].
  destruct (last (first :: rest)) as [final|] eqn:Hlast.
  2: { now apply last_None in Hlast. }
  exists first, final. split; [reflexivity|]. split; [exact Hlast|].
  split.
  - pose proof (trimEnd_take (trimStart s)) as Htake. rewrite Hrun in Htake.
    cbn [length] in Htake.
    destruct (trimStart s) as [|c r] eqn:Hstart; [discriminate|].
    cbn [take] in Htake. inversion Htake; subst.
    eapply trimStart_head; eassumption.
  - apply (trimEnd_last (trimStart s)). now rewrite Hrun.
Qed.

End TrimFacts.

(** ** The chunker: no text is lost *)

Module ChunkerCoverFacts.
Import Js JsFacts TrimFacts Chunker ChunkerSpec ChunkerViews ChunkerFacts.

Lemma slice_slice text st en a b :
  b <= length (slice text st en) ->
  slice (slice text st en) a b = slice text (st + a) (st + b).
Proof.
  intros Hb. pose proof (slice_length text st en) as Hlen.
  unfold slice in *. rewrite length_take in Hb.
  rewrite skipn_firstn_comm, take_take, drop_drop.
  f_equal. lia.
Qed.

(** The chunk cut from a window, when it is not empty. *)
Lemma window_piece text st en :
  trim (slice text st en) <> [] ->
  exists a b, st <= a /\ b <= en
    /\ PieceOf text (trim (slice text st en)) a b
    /\ forall p c, st <= p < en -> text !! p = Some c ->
         isWhiteSpace c = false -> a <= p < b.
Proof.
  intros Hne.
  destruct (trim_slice (slice text st en)) as (Heq & Hb & Hcover).
  set (a := leadingWhiteSpace (slice text st en)) in *.
  set (n := length (trim (slice text st en))) in *.
  assert (0 < n) by (subst n; destruct (trim (slice text st en)); [congruence|simpl; lia]).
  pose proof (slice_length text st en) as Hlen.
  assert (Hlen' : length (slice text st en) <= length text - st).
  { unfold slice. rewrite length_take, length_drop. lia. }
  exists (st + a), (st + (a + n)). split; [lia|]. split; [lia|]. split.
  - split; [lia|]. rewrite Heq at 1. now apply slice_slice.
  - intros p c Hp Hlook Hc.
    assert (Hq : slice text st en !! (p - st) = Some c).
    { unfold slice. rewrite lookup_take_lt by lia. rewrite lookup_drop.
      rewrite <- Hlook. f_equal. lia. }
    specialize (Hcover _ _ Hq Hc). lia.
Qed.

Section WithOptions.
Variable o : ChunkingOptions.

Lemma nextStart_le text startPos endPos :
  nextStart o text startPos endPos <= endPos.
Proof.
  unfold nextStart.
  match goal with |- context [endPos <=? ?x] =>
    destruct (Nat.leb_spec endPos x) end; lia.
Qed.

Lemma pushChunk_covered text chunks startPos endPos :
  CoveredUpTo text chunks startPos ->
  CoveredUpTo text
    (pushChunk chunks (trim (slice text startPos endPos)))
    (Nat.max startPos endPos).
Proof.
  intros [Hpieces Hcover]. unfold pushChunk.
  destruct (trim (slice text startPos endPos)) as [|x r] eqn:Hchunk; cbn [truthy].
  - split; [assumption|]. intros p c Hp Hlook Hc.
    destruct (decide (p < startPos)) as [Hlt|Hge]; [now apply (Hcover p c)|].
    exfalso.
    destruct (trim_slice (slice text startPos endPos)) as (_ & _ & Hin).
    assert (Hq : slice text startPos endPos !! (p - startPos) = Some c).
    { unfold slice. rewrite lookup_take_lt by lia. rewrite lookup_drop.
      rewrite <- Hlook. f_equal. lia. }
    specialize (Hin _ _ Hq Hc). rewrite Hchunk in Hin. cbn in Hin. lia.
  - destruct (window_piece text startPos endPos) as (a & b & Ha & Hb & Hpiece & Hin);
      [rewrite Hchunk; discriminate|].
    rewrite Hchunk in Hpiece.
    split.
    + apply Forall_app. split; [assumption|]. constructor; [eauto|constructor].
    + intros p c Hp Hlook Hc.
      destruct (decide (p < startPos)) as [Hlt|Hge].
      * destruct (Hcover p c Hlt Hlook Hc) as (chunk & a' & b' & Hel & Hpc & Hr).
        exists chunk, a', b'. split; [set_solver|auto].
      * exists (x :: r), a, b. split; [set_solver|]. split; [assumption|].
        apply (Hin p c); [lia|assumption|assumption].
Qed.

Lemma CoveredUpTo_le text chunks m n :
  n <= m -> CoveredUpTo text chunks m -> CoveredUpTo text chunks n.
Proof.
  intros Hle [Hpieces Hcover]. split; [assumption|].
  intros p c Hp. apply Hcover. lia.
Qed.

Lemma CoveredUpTo_all text chunks n :
  length text <= n -> CoveredUpTo text chunks n ->
  Forall (fun chunk => exists a b, PieceOf text chunk a b) chunks
  /\ NoTextLost text chunks.
Proof.
  intros Hle [Hpieces Hcover]. split; [assumption|].
  intros p c Hlook Hc. apply (Hcover p c); [|assumption..].
  apply lookup_lt_Some in Hlook. lia.
Qed.

Lemma chunkLoop_covered fuel : forall text startPos chunks out,
  CoveredUpTo text chunks startPos ->
  chunkLoop o fuel text startPos chunks = Some out ->
  CoveredUpTo text out (length text).
Proof.
  induction fuel as [|fuel IH]; intros text startPos chunks out Hinv Hrun;
    cbn [chunkLoop] in Hrun; [discriminate|].
  destruct (Nat.ltb_spec startPos (length text)).
  - pose proof (pushChunk_covered text chunks startPos
                  (windowEnd o text startPos) Hinv) as Hstep.
    destruct (Nat.leb_spec (length text) (windowEnd o text startPos)).
    + inversion Hrun; subst. eapply CoveredUpTo_le; [|exact Hstep]. lia.
    + eapply IH; [|exact Hrun]. eapply CoveredUpTo_le; [|exact Hstep].
      pose proof (nextStart_le text startPos (windowEnd o text startPos)). lia.
  - inversion Hrun; subst. eapply CoveredUpTo_le; [|exact Hinv]. lia.
Qed.

Lemma whole_covered text :
  CoveredUpTo text (if truthy (trim text) then [trim text] else [])
    (length text).
Proof.
  pose proof (pushChunk_covered text [] 0 (length text)) as Hpush.
  unfold pushChunk in Hpush. cbn [app] in Hpush.
  replace (slice text 0 (length text)) with text in Hpush.
  2: { unfold slice. rewrite Nat.sub_0_r. cbn [drop]. now rewrite firstn_all. }
  eapply CoveredUpTo_le; [|apply Hpush]; [lia|].
  split; [constructor|]. intros p c Hp. lia.
Qed.

Lemma chunkSingleSegment_covered fuel text out :
  chunkSingleSegment o fuel text = Some out ->
  CoveredUpTo text out (length text).
Proof.
  unfold chunkSingleSegment. intros Hrun.
  pose proof (whole_covered text) as Hwhole.
  destruct (truthy text) eqn:Htext; cbn [negb orb] in Hrun.
  2: { inversion Hrun; subst. destruct text; [|discriminate].
       split; [constructor|]. intros p c Hp. cbn in Hp. lia. }
  destruct (Nat.eqb_spec (length (trim text)) 0) as [Hz|Hnz].
  { inversion Hrun; subst. destruct (trim text); [exact Hwhole|discriminate]. }
  destruct (_ <=? _).
  { inversion Hrun; subst.
    destruct (trim text); [cbn in Hnz; lia | exact Hwhole]. }
  eapply chunkLoop_covered; [|exact Hrun].
  split; [constructor|]. intros p c Hp. lia.
Qed.

Lemma chunkText_covered fuel text out :
  length text <= maxTextLength o ->
  chunkText o fuel text = Some out ->
  CoveredUpTo text out (length text).
Proof.
  unfold chunkText. intros Hmax Hrun.
  pose proof (whole_covered text) as Hwhole.
  destruct (truthy text) eqn:Htext; cbn [negb orb] in Hrun.
  2: { inversion Hrun; subst. destruct text; [|discriminate].
       split; [constructor|]. intros p c Hp. cbn in Hp. lia. }
  destruct (Nat.eqb_spec (length (trim text)) 0) as [Hz|Hnz].
  { inversion Hrun; subst. destruct (trim text); [exact Hwhole|discriminate]. }
  destruct (_ <? _).
  { inversion Hrun; subst.
    destruct (trim text); [cbn in Hnz; lia | exact Hwhole]. }
  unfold preprocessLargeText in Hrun.
  destruct (Nat.leb_spec (length text) (maxTextLength o)); [|lia].
  unfold chunkSegments in Hrun. cbn [mbind option_bind foldOpt] in Hrun.
  destruct (chunkSingleSegment o fuel text) as [cs|] eqn:Hseg;
    cbn in Hrun; [|discriminate].
  inversion Hrun; subst. eapply chunkSingleSegment_covered. exact Hseg.
Qed.

End WithOptions.

(** X1. For a text within [maxTextLength], every chunk of [chunkText] is a
    non-empty contiguous piece of the text, and every code unit of the text
    that is not white space lies in one of these pieces: chunking drops
    white space only. *)
Theorem chunkText_loses_no_text o fuel text chunks :
  length text <= maxTextLength o ->
  chunkText o fuel text = Some chunks ->
  Forall (fun chunk => exists a b, PieceOf text chunk a b) chunks
  /\ NoTextLost text chunks.
Proof.
  intros Hmax Hrun.
  apply (CoveredUpTo_all text chunks (length text)); [lia|].
  eapply chunkText_covered; eassumption.
Qed.

Lemma chunkText_loses_no_text_witness :
  NoTextLost sampleText sampleChunks.
Proof.
  apply (chunkText_loses_no_text sampleOptions 100 sampleText sampleChunks).
  - vm_compute. lia.
  - vm_compute. reflexivity.
Defined.

End ChunkerCoverFacts.

(** ** The chunker: shape of chunks and segments *)

Module ChunkerShapeFacts.
Import Js JsFacts TrimFacts Chunker ChunkerSpec ChunkerViews ChunkerFacts.

Section WithOptions.
Variable o : ChunkingOptions.

(** *** Every chunk is the non-empty result of a [trim] *)

Section Forall_trim.
Variable P : JsString -> Prop.
Hypothesis P_trim : forall s, trim s <> [] -> P (trim s).

Lemma pushChunk_trim chunks s :
  Forall P chunks -> Forall P (pushChunk chunks (trim s)).
Proof.
  intros Hall. unfold pushChunk.
  destruct (trim s) eqn:Hs; cbn [truthy]; [assumption|].
  apply Forall_app. split; [assumption|].
  constructor; [|constructor]. rewrite <- Hs. apply P_trim. now rewrite Hs.
Qed.

Lemma chunkLoop_trim fuel : forall text startPos chunks out,
  Forall P chunks ->
  chunkLoop o fuel text startPos chunks = Some out -> Forall P out.
Proof.
  induction fuel as [|fuel IH]; intros text startPos chunks out Hall Hrun;
    cbn [chunkLoop] in Hrun; [discriminate|].
  destruct (startPos <? length text).
  - destruct (length text <=? windowEnd o text startPos).
    + inversion Hrun; subst. now apply pushChunk_trim.
    + eapply IH; [|exact Hrun]. now apply pushChunk_trim.
  - inversion Hrun; subst. assumption.
Qed.

Lemma whole_trim text :
  (negb (truthy text) || (length (trim text) =? 0)) = false -> P (trim text).
Proof.
  intros Hcond. apply orb_false_iff in Hcond as [_ Hlen].
  apply Nat.eqb_neq in Hlen. apply P_trim.
  destruct (trim text); [cbn in Hlen; lia|discriminate].
Qed.

Lemma chunkSingleSegment_trim fuel text out :
  chunkSingleSegment o fuel text = Some out -> Forall P out.
Proof.
  unfold chunkSingleSegment. intros Hrun.
  destruct (negb (truthy text) || (length (trim text) =? 0)) eqn:Hcond.
  { inversion Hrun. constructor. }
  destruct (_ <=? _).
  { inversion Hrun. constructor; [|constructor]. now apply whole_trim. }
  eapply chunkLoop_trim; [|exact Hrun]. constructor.
Qed.

Lemma chunkSegments_trim fuel segments : forall acc out,
  Forall P acc ->
  foldOpt (fun allChunks segment =>
             segmentChunks ← chunkSingleSegment o fuel segment;
             Some (allChunks ++ segmentChunks)) segments acc = Some out ->
  Forall P out.
Proof.
  induction segments as [|seg rest IH]; intros acc out Hacc Hrun;
    cbn [foldOpt] in Hrun.
  - inversion Hrun; subst. assumption.
  - destruct (chunkSingleSegment o fuel seg) as [cs|] eqn:Hseg;
      cbn in Hrun; [|discriminate].
    eapply IH; [|exact Hrun].
    apply Forall_app. split; [assumption|].
    eapply chunkSingleSegment_trim. exact Hseg.
Qed.

Lemma chunkText_trim fuel text out :
  chunkText o fuel text = Some out -> Forall P out.
Proof.
  unfold chunkText. intros Hrun.
  destruct (negb (truthy text) || (length (trim text) =? 0)) eqn:Hcond.
  { inversion Hrun. constructor. }
  destruct (_ <? _).
  { inversion Hrun. constructor; [|constructor]. now apply whole_trim. }
  destruct (preprocessLargeText o text) as [segs|]; cbn in Hrun; [|discriminate].
  eapply chunkSegments_trim; [|exact Hrun]. constructor.
Qed.

End Forall_trim.

Lemma chunkText_nonempty fuel text out :
  chunkText o fuel text = Some out -> Forall (fun chunk => chunk <> []) out.
Proof. apply chunkText_trim. auto. Qed.

(** *** Splitting by a fixed length *)

Lemma slice_drop (text : JsString) a b :
  a <= b -> slice text a b ++ drop b text = drop a text.
Proof.
  intros Hab. unfold slice.
  replace (drop b text) with (drop (b - a) (drop a text)).
  - apply take_drop.
  - rewrite drop_drop. f_equal. lia.
Qed.

Lemma splitByFixedLengthFrom_step fuel text maxSize2 i2 :
  splitByFixedLengthFrom (S fuel) text maxSize2 i2
  = if i2 <? 2 * length text then
      rest ← splitByFixedLengthFrom fuel text maxSize2 (i2 + maxSize2);
      Some (slice text (i2 / 2) ((i2 + maxSize2) / 2) :: rest)
    else Some [].
Proof. reflexivity. Qed.

Lemma splitByFixedLengthFrom_pieces text maxSize2 fuel : forall i2 pieces,
  splitByFixedLengthFrom fuel text maxSize2 i2 = Some pieces ->
  concat pieces = drop (i2 / 2) text
  /\ Forall (fun piece => 2 * length piece <= maxSize2 + 1) pieces
  /\ (2 <= maxSize2 -> Forall (fun piece => piece <> []) pieces).
Proof.
  induction fuel as [|fuel IH]; intros i2 pieces Hrun; [discriminate|].
  rewrite splitByFixedLengthFrom_step in Hrun.
  destruct (Nat.ltb_spec i2 (2 * length text)) as [Hlt|Hge].
  - destruct (splitByFixedLengthFrom fuel text maxSize2 (i2 + maxSize2))
      as [rest|] eqn:Hrest; cbn [mbind option_bind] in Hrun; [|discriminate].
    apply (inj Some) in Hrun. subst pieces.
    destruct (IH _ _ Hrest) as (Hcat & Hlen & Hne).
    pose proof (Nat.div_mod_eq i2 2) as Hi.
    pose proof (Nat.div_mod_eq (i2 + maxSize2) 2) as Hj.
    pose proof (Nat.mod_upper_bound i2 2 ltac:(lia)).
    pose proof (Nat.mod_upper_bound (i2 + maxSize2) 2 ltac:(lia)).
    split; [|split].
    + cbn [concat]. rewrite Hcat. apply slice_drop. lia.
    + constructor; [|assumption].
      pose proof (slice_length text (i2 / 2) ((i2 + maxSize2) / 2)). lia.
    + intros Hpos. constructor; [|auto].
      intros Hempty. apply (f_equal length) in Hempty.
      unfold slice in Hempty. rewrite length_take, length_drop in Hempty.
      cbn [length] in Hempty. lia.
  - inversion Hrun; subst. cbn [concat]. split; [|split; constructor].
    rewrite drop_ge; [reflexivity|].
    pose proof (Nat.div_mod_eq i2 2).
    pose proof (Nat.mod_upper_bound i2 2 ltac:(lia)). lia.
Qed.

(** *** Segments of a large text *)

Lemma flush_fits maxSize2 segments cur :
  Forall (FitsSegment maxSize2) segments -> 2 * length cur <= maxSize2 ->
  Forall (FitsSegment maxSize2) (flush segments cur).
Proof.
  intros Hsegs Hcur. unfold flush. destruct cur; cbn [truthy]; [assumption|].
  apply Forall_app. split; [assumption|]. constructor; [|constructor].
  split; [discriminate|lia].
Qed.

Lemma splitByFixedLength_fits text maxSize2 pieces :
  2 <= maxSize2 ->
  splitByFixedLength text maxSize2 = Some pieces ->
  Forall (FitsSegment maxSize2) pieces.
Proof.
  intros Hpos Hrun.
  destruct (splitByFixedLengthFrom_pieces _ _ _ _ _ Hrun) as (_ & Hlen & Hne).
  specialize (Hne Hpos). rewrite Forall_forall in *.
  intros x Hx. split; auto.
Qed.

Lemma splitLongStep_fits maxSize2 segments cur sentence segments' cur' :
  2 <= maxSize2 ->
  Forall (FitsSegment maxSize2) segments -> 2 * length cur <= maxSize2 ->
  splitLongStep maxSize2 (segments, cur) sentence = Some (segments', cur') ->
  Forall (FitsSegment maxSize2) segments' /\ 2 * length cur' <= maxSize2.
Proof.
  intros Hpos Hsegs Hcur. unfold splitLongStep.
  destruct (Nat.ltb_spec maxSize2 (2 * length sentence)).
  - destruct (splitByFixedLength sentence maxSize2) as [pieces|] eqn:Hp;
      cbn; [|discriminate].
    intros Heq. inversion Heq; subst. split; [|cbn; lia].
    apply Forall_app. split; [now apply flush_fits|].
    eapply splitByFixedLength_fits; eassumption.
  - destruct (Nat.ltb_spec maxSize2 (2 * (length cur + length sentence)));
      intros Heq; inversion Heq; subst.
    + split; [now apply flush_fits | lia].
    + split; [assumption|]. rewrite length_app. lia.
Qed.

Lemma foldOpt_invariant {A B} (f : A -> B -> option A) (I : A -> Prop) l :
  (forall a b a', I a -> f a b = Some a' -> I a') ->
  forall a out, I a -> foldOpt f l a = Some out -> I out.
Proof.
  intros Hf. induction l as [|b r IH]; intros a out Ha Hrun;
    cbn [foldOpt] in Hrun.
  - inversion Hrun; subst. assumption.
  - destruct (f a b) as [a'|] eqn:Hstep; cbn in Hrun; [|discriminate].
    eapply IH; [|exact Hrun]. eapply Hf; eassumption.
Qed.

Lemma splitLongParagraph_fits text maxSize2 pieces :
  2 <= maxSize2 -> text <> [] ->
  splitLongParagraph o text maxSize2 = Some pieces ->
  Forall (FitsSegment maxSize2) pieces.
Proof.
  intros Hpos Htext. unfold splitLongParagraph.
  destruct (Nat.leb_spec (2 * length text) maxSize2).
  { intros Heq. inversion Heq; subst. constructor; [|constructor].
    split; [assumption|lia]. }
  destruct (_ =? 0); [now apply splitByFixedLength_fits|].
  destruct (foldOpt _ _ _) as [[segments cur]|] eqn:Hfold; cbn; [|discriminate].
  intros Heq. inversion Heq; subst.
  apply (foldOpt_invariant _
           (fun st => Forall (FitsSegment maxSize2) st.1 /\ 2 * length st.2 <= maxSize2))
    in Hfold.
  - destruct Hfold. now apply flush_fits.
  - intros [segs c] sentence [segs' c'] [Hs Hc] Hstep.
    eapply splitLongStep_fits; eassumption.
  - split; [constructor|cbn; lia].
Qed.

Lemma targetSegmentSize2_bounds :
  0 < maxTextLength o ->
  2 <= targetSegmentSize2 o /\ targetSegmentSize2 o <= 2 * maxTextLength o.
Proof.
  unfold targetSegmentSize2.
  assert (Hfloor : 2 <= 20000) by (apply Nat.leb_le; vm_compute; reflexivity).
  remember 20000 as floor. lia.
Qed.

Lemma preprocessStep_fits segments cur para segments' cur' :
  0 < maxTextLength o ->
  Forall (FitsSegment (targetSegmentSize2 o)) segments ->
  2 * length cur <= targetSegmentSize2 o ->
  preprocessStep o (segments, cur) para = Some (segments', cur') ->
  Forall (FitsSegment (targetSegmentSize2 o)) segments'
  /\ 2 * length cur' <= targetSegmentSize2 o.
Proof.
  intros Hmax Hsegs Hcur. unfold preprocessStep.
  destruct (targetSegmentSize2_bounds Hmax) as [Hlow _].
  destruct (trim para) as [|x r] eqn:Hpara; cbn [truthy negb].
  { intros Heq. inversion Heq; subst. auto. }
  rewrite <- Hpara.
  destruct (Nat.ltb_spec (targetSegmentSize2 o) (2 * length (trim para))).
  - destruct (splitLongParagraph o (trim para) (targetSegmentSize2 o))
      as [pieces|] eqn:Hp; cbn; [|discriminate].
    intros Heq. inversion Heq; subst. split; [|cbn; lia].
    apply Forall_app. split; [now apply flush_fits|].
    eapply splitLongParagraph_fits; [exact Hlow| |exact Hp].
    rewrite Hpara. discriminate.
  - destruct (Nat.ltb_spec (targetSegmentSize2 o)
                (2 * (length cur + length (trim para) + 2))).
    + intros Heq. inversion Heq; subst. split; [now apply flush_fits|lia].
    + destruct (truthy cur); intros Heq; inversion Heq; subst;
        (split; [assumption|]); [|lia].
      rewrite !length_app. cbn [length]. lia.
Qed.

Lemma preprocessLargeText_fits text segments :
  0 < maxTextLength o -> maxTextLength o < length text ->
  preprocessLargeText o text = Some segments ->
  Forall (FitsSegment (targetSegmentSize2 o)) segments.
Proof.
  intros Hmax Hlong. unfold preprocessLargeText.
  destruct (Nat.leb_spec (length text) (maxTextLength o)); [lia|].
  destruct (foldOpt _ _ _) as [[segs cur]|] eqn:Hfold; cbn; [|discriminate].
  intros Heq. inversion Heq; subst.
  apply (foldOpt_invariant _
           (fun st => Forall (FitsSegment (targetSegmentSize2 o)) st.1
                      /\ 2 * length st.2 <= targetSegmentSize2 o))
    in Hfold.
  - destruct Hfold. now apply flush_fits.
  - intros [s c] para [s' c'] [Hs Hc] Hstep.
    eapply preprocessStep_fits; eassumption.
  - split; [constructor|cbn; lia].
Qed.

Lemma preprocessLargeText_bound text segments :
  0 < maxTextLength o ->
  preprocessLargeText o text = Some segments ->
  Forall (fun segment => length segment <= maxTextLength o) segments.
Proof.
  intros Hmax Hrun.
  destruct (Nat.leb_spec (length text) (maxTextLength o)) as [Hle|Hgt].
  - unfold preprocessLargeText in Hrun.
    destruct (Nat.leb_spec (length text) (maxTextLength o)); [|lia].
    inversion Hrun; subst. constructor; [assumption|constructor].
  - pose proof (preprocessLargeText_fits text segments Hmax Hgt Hrun) as Hfits.
    destruct (targetSegmentSize2_bounds Hmax) as [_ Hup].
    eapply Forall_impl; [exact Hfits|]. intros s [_ Hs]. cbn beta in *. lia.
Qed.

(** *** Iterations needed *)

Lemma chunkText_returns_within text fuel :
  overlap o < chunkSize o -> 0 < maxTextLength o -> length text < fuel ->
  is_Some (chunkText o fuel text).
Proof.
  intros Hov Hmax Hfuel.
  destruct (preprocessLargeText_returns o text Hmax) as [segs Hsegs].
  pose proof (preprocessLargeText_bound text segs Hmax Hsegs) as Hbound.
  assert (Hshort : Forall (fun segment => length segment < fuel) segs).
  { destruct (Nat.leb_spec (length text) (maxTextLength o)) as [Hle|Hgt].
    - unfold preprocessLargeText in Hsegs.
      destruct (Nat.leb_spec (length text) (maxTextLength o)); [|lia].
      inversion Hsegs; subst. constructor; [assumption|constructor].
    - eapply Forall_impl; [exact Hbound|]. cbn beta. intros; lia. }
  unfold chunkText. destruct (_ || _); [eauto|]. destruct (_ <? _); [eauto|].
  rewrite Hsegs. cbn [mbind option_bind]. unfold chunkSegments.
  apply (foldOpt_is_Some _ (fun segment => length segment < fuel));
    [|assumption].
  intros acc segment Hlen.
  destruct (chunkSingleSegment_returns o segment fuel Hov Hlen) as [cs ->].
  cbn. eauto.
Qed.

End WithOptions.

End ChunkerShapeFacts.

(** ** The chunker: statistics and overlapping chunks *)

Module ChunkerReportsFacts.
Import Js JsFacts Numbers Chunker ChunkerSpec ChunkerFacts ChunkerShapeFacts.
Import ChunkerReports ChunkerViews.

Lemma splitLines_length s : forall cur,
  length (splitLines s cur) = S (lineFeeds s).
Proof.
  unfold lineFeeds.
  induction s as [|c r IH]; intros cur; [reflexivity|].
  cbn [splitLines]. rewrite filter_cons.
  destruct (N.eqb_spec c 10) as [->|Hne].
  - rewrite decide_True by reflexivity. cbn [length]. now rewrite IH.
  - rewrite decide_False by assumption. apply IH.
Qed.

Lemma splitParagraphs_length s : forall skip cur,
  1 <= length (splitParagraphs s skip cur) <= S (lineFeeds s).
Proof.
  unfold lineFeeds.
  induction s as [|c r IH]; intros skip cur; [cbn; lia|].
  cbn [splitParagraphs]. rewrite filter_cons.
  destruct skip as [|k].
  - destruct (N.eqb_spec c 10) as [->|Hne].
    + rewrite decide_True by reflexivity. cbn [length].
      destruct (lastLineFeed _ _ _) as [j|].
      * cbn [length]. specialize (IH (S j) []). lia.
      * specialize (IH 0 (cur ++ [10%N])). lia.
    + rewrite decide_False by assumption. apply IH.
  - specialize (IH k cur). destruct (decide (c = 10%N)); cbn [length]; lia.
Qed.

Lemma mathMax_ofNat m n : mathMax (ofNat m) (ofNat n) = ofNat (Nat.max m n).
Proof.
  unfold mathMax, ofNat.
  destruct (Qle_bool (inject_Z (Z.of_nat m)) (inject_Z (Z.of_nat n))) eqn:Hle.
  - apply Qle_bool_iff in Hle. rewrite <- Zle_Qle in Hle.
    do 3 f_equal. lia.
  - assert (Hgt : ~ (inject_Z (Z.of_nat m) <= inject_Z (Z.of_nat n))%Q)
      by (rewrite <- Qle_bool_iff; congruence).
    rewrite <- Zle_Qle in Hgt. do 3 f_equal. lia.
Qed.

Lemma maxOf_cons n rest : maxOf (n :: rest) = ofNat (foldl Nat.max n rest).
Proof.
  unfold maxOf. cbn [foldl].
  change (mathMax NegInfinity (ofNat n)) with (ofNat n).
  revert n. induction rest as [|x rest IH]; intros n; [reflexivity|].
  cbn [foldl]. rewrite mathMax_ofNat. apply IH.
Qed.

Lemma foldl_max_spec rest : forall n,
  n <= foldl Nat.max n rest
  /\ Forall (fun x => x <= foldl Nat.max n rest) rest
  /\ foldl Nat.max n rest ∈ n :: rest.
Proof.
  induction rest as [|x rest IH]; intros n; cbn [foldl].
  - split; [lia|]. split; [constructor|set_solver].
  - destruct (IH (Nat.max n x)) as (Hle & Hall & Hin).
    split; [lia|]. split; [constructor; [lia|assumption]|].
    apply elem_of_cons in Hin as [Heq|Hin]; [|set_solver].
    rewrite Heq. destruct (Nat.max_spec n x) as [[_ ->]|[_ ->]]; set_solver.
Qed.

(** *** White space only *)

Lemma trimStart_blank s : Blank s -> trimStart s = [].
Proof.
  induction 1 as [|c r Hc Hr IH]; [reflexivity|].
  cbn [trimStart]. now rewrite Hc.
Qed.

Lemma trim_blank s : Blank s -> trim s = [].
Proof. intros H. unfold trim. now rewrite trimStart_blank. Qed.

Lemma splitLines_blank s : forall cur,
  Blank s -> Blank cur -> Forall Blank (splitLines s cur).
Proof.
  induction s as [|c r IH]; intros cur Hs Hcur; cbn [splitLines].
  - constructor; [assumption|constructor].
  - inversion Hs as [|? ? Hc Hr]; subst.
    destruct (c =? 10)%N.
    + constructor; [assumption|]. apply IH; [assumption|constructor].
    + apply IH; [assumption|]. apply Forall_app. split; [assumption|].
      constructor; [assumption|constructor].
Qed.

Lemma splitParagraphs_blank s : forall skip cur,
  Blank s -> Blank cur -> Forall Blank (splitParagraphs s skip cur).
Proof.
  induction s as [|c r IH]; intros skip cur Hs Hcur; cbn [splitParagraphs].
  - constructor; [assumption|constructor].
  - inversion Hs as [|? ? Hc Hr]; subst.
    assert (Hsnoc : Blank (cur ++ [c])).
    { apply Forall_app. split; [assumption|]. constructor; [assumption|constructor]. }
    destruct skip as [|k]; [|now apply IH].
    destruct (c =? 10)%N; [|now apply IH].
    destruct (lastLineFeed _ _ _); [|now apply IH].
    constructor; [assumption|]. apply IH; [assumption|constructor].
Qed.

Lemma preprocess_blank o paragraphs : forall st,
  Forall Blank paragraphs -> foldOpt (preprocessStep o) paragraphs st = Some st.
Proof.
  induction paragraphs as [|para rest IH]; intros st Hall; [reflexivity|].
  inversion Hall as [|? ? Hpara Hrest]; subst.
  destruct st as [segments cur]. cbn [foldOpt].
  assert (Hstep : preprocessStep o (segments, cur) para = Some (segments, cur)).
  { unfold preprocessStep. now rewrite (trim_blank para Hpara). }
  rewrite Hstep. cbn [mbind option_bind]. now apply IH.
Qed.

Lemma preprocessLargeText_blank o text :
  maxTextLength o < length text -> Blank text ->
  preprocessLargeText o text = Some [].
Proof.
  intros Hlong Hblank. unfold preprocessLargeText.
  destruct (Nat.leb_spec (length text) (maxTextLength o)); [lia|].
  rewrite preprocess_blank; [reflexivity|].
  destruct (_ <? 5);
    [apply splitLines_blank | apply splitParagraphs_blank];
    first [assumption | constructor].
Qed.

(** *** Overlapping chunks *)

Lemma overlappingFrom_none o chunks :
  overlap o = 0 -> overlappingFrom o chunks = chunks.
Proof.
  intros Hov. induction chunks as [|c rest IH]; [reflexivity|].
  cbn [overlappingFrom]. rewrite Hov. cbn [Nat.min Nat.ltb Nat.leb].
  destruct rest; cbn [app]; now rewrite IH.
Qed.

Lemma overlappingFrom_cons2 o current next rest :
  0 < overlap o -> current <> [] -> next <> [] ->
  overlappingFrom o (current :: next :: rest)
  = current
      :: bridge (Nat.min (overlap o) (Nat.min (length current) (length next)))
           current next
      :: overlappingFrom o (next :: rest).
Proof.
  intros Hov Hc Hn.
  change (overlappingFrom o (current :: next :: rest))
    with (current ::
            (let overlapSize :=
               Nat.min (overlap o) (Nat.min (length current) (length next)) in
             if 0 <? overlapSize
             then [sliceLast current overlapSize ++ slice next 0 overlapSize]
             else []) ++ overlappingFrom o (next :: rest)).
  cbv zeta.
  destruct (Nat.ltb_spec 0 (Nat.min (overlap o)
              (Nat.min (length current) (length next)))) as [Hk|Hk].
  - unfold bridge, sliceLast, slice. now rewrite Nat.sub_0_r.
  - destruct current; [congruence|]. destruct next; [congruence|].
    cbn [length] in Hk. lia.
Qed.

Lemma overlappingFrom_shape o chunks :
  0 < overlap o -> Forall (fun chunk => chunk <> []) chunks ->
  length (overlappingFrom o chunks) = 2 * length chunks - 1
  /\ (forall i, overlappingFrom o chunks !! (2 * i) = chunks !! i)
  /\ (forall i current next,
        chunks !! i = Some current -> chunks !! S i = Some next ->
        overlappingFrom o chunks !! (2 * i + 1)
        = Some (bridge (Nat.min (overlap o)
                          (Nat.min (length current) (length next)))
                  current next)).
Proof.
  intros Hov. induction 1 as [|c rest Hc Hrest IH].
  - split; [reflexivity|]. split; [intros i; reflexivity|].
    intros i current next Hi. discriminate.
  - destruct rest as [|n rest].
    + cbn [overlappingFrom app length]. split; [reflexivity|].
      split.
      * intros [|i]; [reflexivity|].
        replace (2 * S i) with (S (S (2 * i))) by lia. reflexivity.
      * intros [|i] current next Hi Hn; discriminate.
    + inversion Hrest as [|? ? Hn _]; subst.
      rewrite (overlappingFrom_cons2 o c n rest Hov Hc Hn).
      destruct IH as (Hlen & Heven & Hodd).
      split; [|split].
      * cbn [length] in *. lia.
      * intros [|i]; [reflexivity|].
        replace (2 * S i) with (S (S (2 * i))) by lia.
        cbn [lookup list_lookup]. apply (Heven i).
      * intros [|i] current next Hi Hnext.
        -- cbn in Hi, Hnext. inversion Hi; inversion Hnext; subst. reflexivity.
        -- replace (2 * S i + 1) with (S (S (2 * i + 1))) by lia.
           cbn [lookup list_lookup]. now apply Hodd.
Qed.

End ChunkerReportsFacts.

Module ChunkerExtraFacts.
Import Js JsFacts TrimFacts Numbers Chunker ChunkerSpec ChunkerFacts.
Import ChunkerViews ChunkerCoverFacts ChunkerShapeFacts.
Import ChunkerReports ChunkerReportsFacts.

(** X2. Every chunk returned by [chunkText] starts and ends with a code unit
    that is not white space; in particular no chunk is empty. *)
Theorem chunkText_chunks_are_trimmed o fuel text chunks :
  chunkText o fuel text = Some chunks -> Forall Trimmed chunks.
Proof. apply chunkText_trim. apply trim_Trimmed. Qed.

Lemma chunkText_chunks_are_trimmed_witness : Forall Trimmed sampleChunks.
Proof.
  apply (chunkText_chunks_are_trimmed sampleOptions 100 sampleText).
  vm_compute. reflexivity.
Defined.

(** X3. With an overlap below the chunk size and a positive
    [maxTextLength], [chunkText] returns for every text, and the loop over
    any segment makes at most as many iterations as the text has code
    units. *)
Theorem chunkText_ends_within_text_length o text fuel :
  overlap o < chunkSize o -> 0 < maxTextLength o -> length text < fuel ->
  exists chunks, chunkText o fuel text = Some chunks.
Proof.
  intros Hov Hmax Hfuel.
  destruct (chunkText_returns_within o text fuel Hov Hmax Hfuel) as [chunks H].
  now exists chunks.
Qed.

Lemma chunkText_ends_within_text_length_witness :
  exists chunks,
    chunkText sampleOptions (S (length sampleText)) sampleText = Some chunks.
Proof.
  apply (chunkText_ends_within_text_length sampleOptions sampleText);
    vm_compute; lia.
Defined.

(** X4. [splitByFixedLength] with a positive size cuts the text into
    consecutive pieces: put together again they are the text, and no piece
    is longer than the size (rounded up when the size is a half). *)
Theorem splitByFixedLength_pieces_rebuild_text text maxSize2 :
  0 < maxSize2 ->
  exists pieces,
    splitByFixedLength text maxSize2 = Some pieces
    /\ concat pieces = text
    /\ Forall (fun piece => 2 * length piece <= maxSize2 + 1) pieces.
Proof.
  intros Hpos.
  destruct (splitByFixedLength_returns text maxSize2 Hpos) as [pieces Hrun].
  exists pieces. split; [exact Hrun|].
  destruct (splitByFixedLengthFrom_pieces _ _ _ _ _ Hrun) as (Hcat & Hlen & _).
  split; [exact Hcat | exact Hlen].
Qed.

Lemma splitByFixedLength_pieces_rebuild_text_witness :
  exists pieces,
    splitByFixedLength (js "abcdefgh") 6 = Some pieces
    /\ concat pieces = js "abcdefgh".
Proof.
  destruct (splitByFixedLength_pieces_rebuild_text (js "abcdefgh") 6)
    as (pieces & Hrun & Hcat & _); [lia|].
  exists pieces. split; assumption.
Defined.

(** X5. [preprocessLargeText] with a positive [maxTextLength] returns
    segments that are each at most [maxTextLength] long; a text within the
    limit is its own single segment, and the segments of a longer text are
    not empty. *)
Theorem preprocessLargeText_segments_within_limit o text :
  0 < maxTextLength o ->
  exists segments,
    preprocessLargeText o text = Some segments
    /\ Forall (fun segment => length segment <= maxTextLength o) segments
    /\ (length text <= maxTextLength o -> segments = [text])
    /\ (maxTextLength o < length text ->
        Forall (fun segment => segment <> []) segments).
Proof.
  intros Hmax.
  destruct (preprocessLargeText_returns o text Hmax) as [segments Hrun].
  exists segments. split; [exact Hrun|].
  split; [now apply (preprocessLargeText_bound o text)|]. split.
  - intros Hle. unfold preprocessLargeText in Hrun.
    destruct (Nat.leb_spec (length text) (maxTextLength o)); [|lia].
    now inversion Hrun.
  - intros Hlong.
    pose proof (preprocessLargeText_fits o text segments Hmax Hlong Hrun) as Hfits.
    eapply Forall_impl; [exact Hfits|]. now intros s [Hs _].
Qed.

Lemma preprocessLargeText_segments_within_limit_witness :
  exists segments,
    preprocessLargeText smallOptions twoParagraphs = Some segments
    /\ Forall (fun segment => length segment <= 30) segments.
Proof.
  destruct (preprocessLargeText_segments_within_limit smallOptions twoParagraphs)
    as (segments & Hrun & Hbound & _); [vm_compute; lia|].
  exists segments. split; assumption.
Defined.

(** X6. In the statistics of a text the number of lines is one more than
    the number of line feeds, the number of paragraphs lies between 1 and
    the number of lines, and for a positive chunk size the estimated number
    of chunks is the length divided by the chunk size, rounded down, but at
    least 1. *)
Theorem getTextStats_counts o text stats :
  getTextStats o text = Some stats ->
  textLength stats = length text
  /\ lines stats = S (lineFeeds text)
  /\ 1 <= paragraphs stats <= lines stats
  /\ (0 < chunkSize o ->
      estimatedChunks stats = ofNat (Nat.max 1 (length text / chunkSize o))).
Proof.
  intros Hrun.
  assert (Hfields : textLength stats = length text
                    /\ lines stats = length (splitLines text [])
                    /\ paragraphs stats = length (splitParagraphs text 0 [])
                    /\ estimatedChunks stats
                       = mathMax (Finite 1)
                           (floorDivide (length text) (chunkSize o))).
  { unfold getTextStats in Hrun. destruct (_ <? _).
    - destruct (preprocessLargeText o text); cbn in Hrun; [|discriminate].
      inversion Hrun; subst. cbn. auto.
    - inversion Hrun; subst. cbn. auto. }
  destruct Hfields as (Hlen & Hlines & Hparas & Hest).
  rewrite Hlines, Hparas, Hest, splitLines_length.
  split; [exact Hlen|]. split; [reflexivity|].
  split; [apply splitParagraphs_length|].
  intros Hpos. unfold floorDivide.
  destruct (chunkSize o) as [|k] eqn:Hk; [lia|].
  change (Finite 1) with (ofNat 1). apply mathMax_ofNat.
Qed.

Lemma getTextStats_counts_witness :
  exists stats,
    getTextStats smallOptions twoParagraphs = Some stats
    /\ lines stats = 3 /\ 1 <= paragraphs stats <= 3.
Proof.
  destruct (getTextStats smallOptions twoParagraphs) as [stats|] eqn:Hrun;
    [|vm_compute in Hrun; discriminate].
  destruct (getTextStats_counts smallOptions twoParagraphs stats Hrun)
    as (_ & Hlines & Hparas & _).
  exists stats. split; [reflexivity|]. rewrite Hlines in *.
  split; [|exact Hparas]. vm_compute. reflexivity.
Defined.

(** X7. For a text longer than a positive [maxTextLength] the statistics
    count the segments of [preprocessLargeText] and report the length of
    the longest one, which is at most [maxTextLength]; when there is no
    segment, as for a text of white space only, the reported maximum is
    -Infinity.  For a text within the limit both fields are absent. *)
Theorem getTextStats_reports_segments o text :
  0 < maxTextLength o ->
  exists stats,
    getTextStats o text = Some stats
    /\ needsPreprocessing stats = (maxTextLength o <? length text)
    /\ (length text <= maxTextLength o ->
        preprocessedSegments stats = None /\ maxSegmentLength stats = None)
    /\ (maxTextLength o < length text ->
        exists segments,
          preprocessLargeText o text = Some segments
          /\ preprocessedSegments stats = Some (length segments)
          /\ match segments with
             | [] => maxSegmentLength stats = Some NegInfinity
             | _ :: _ =>
                 exists top,
                   maxSegmentLength stats = Some (ofNat top)
                   /\ 0 < top <= maxTextLength o
                   /\ Forall (fun segment => length segment <= top) segments
                   /\ top ∈ map length segments
             end
          /\ (Blank text -> segments = [])).
Proof.
  intros Hmax.
  destruct (preprocessLargeText_returns o text Hmax) as [segments Hsegs].
  unfold getTextStats.
  destruct (Nat.ltb_spec (maxTextLength o) (length text)) as [Hlong|Hshort].
  - rewrite Hsegs. cbn [mbind option_bind]. eexists. split; [reflexivity|].
    cbn [needsPreprocessing preprocessedSegments maxSegmentLength].
    split; [reflexivity|]. split; [lia|]. intros _.
    exists segments. split; [reflexivity|]. split; [reflexivity|].
    split.
    + destruct segments as [|s rest] eqn:Hshape; [reflexivity|].
      rewrite <- Hshape in *.
      pose proof (preprocessLargeText_bound o text segments Hmax Hsegs) as Hbound.
      pose proof (preprocessLargeText_fits o text segments Hmax Hlong Hsegs)
        as Hfits.
      rewrite Hshape in Hbound, Hfits |- *. cbn [map]. rewrite maxOf_cons.
      destruct (foldl_max_spec (map length rest) (length s))
        as (Hfirst & Hall & Hin).
      exists (foldl Nat.max (length s) (map length rest)).
      split; [reflexivity|].
      inversion Hfits as [|? ? [Hs _] _]; subst.
      split; [|split].
      * split; [destruct s; [congruence|cbn [length] in *; lia]|].
        change (length s :: map length rest) with (map length (s :: rest)) in Hin.
        apply list_elem_of_fmap in Hin as (x & -> & Hx).
        rewrite Forall_forall in Hbound. now apply Hbound.
      * constructor; [exact Hfirst|].
        apply Forall_forall. intros x Hx.
        apply (proj1 (Forall_forall _ _) Hall).
        apply list_elem_of_fmap. eauto.
      * exact Hin.
    + intros Hblank.
      rewrite (preprocessLargeText_blank o text Hlong Hblank) in Hsegs.
      now inversion Hsegs.
  - eexists. split; [reflexivity|].
    cbn [needsPreprocessing preprocessedSegments maxSegmentLength].
    split; [reflexivity|]. split; [auto|]. lia.
Qed.

Lemma getTextStats_reports_segments_witness :
  exists stats,
    getTextStats smallOptions blankText = Some stats
    /\ preprocessedSegments stats = Some 0
    /\ maxSegmentLength stats = Some NegInfinity.
Proof.
  destruct (getTextStats_reports_segments smallOptions blankText)
    as (stats & Hrun & _ & _ & Hlong); [vm_compute; lia|].
  destruct Hlong as (segments & _ & Hcount & Hmax & Hblank); [vm_compute; lia|].
  assert (Hnone : segments = []).
  { apply Hblank. unfold blankText. apply Forall_replicate. reflexivity. }
  subst segments. exists stats. repeat split; assumption.
Defined.

(** X8. [createOverlappingChunks] returns the chunks of [chunkText] in
    order; with a positive overlap it puts between every two neighbours
    one more chunk, made of the last [k] code units of the first and the
    first [k] of the second, [k] being the smallest of the overlap and the
    two lengths, so that [n] chunks give [2n - 1]; with overlap 0 it
    returns the chunks unchanged. *)
Theorem createOverlappingChunks_interleaves_bridges o fuel text out :
  createOverlappingChunks o fuel text = Some out ->
  exists chunks,
    chunkText o fuel text = Some chunks
    /\ (overlap o = 0 -> out = chunks)
    /\ (0 < overlap o ->
        length out = 2 * length chunks - 1
        /\ (forall i, out !! (2 * i) = chunks !! i)
        /\ (forall i current next,
              chunks !! i = Some current -> chunks !! S i = Some next ->
              out !! (2 * i + 1)
              = Some (bridge (Nat.min (overlap o)
                                (Nat.min (length current) (length next)))
                        current next))).
Proof.
  unfold createOverlappingChunks. intros Hrun.
  destruct (chunkText o fuel text) as [chunks|] eqn:Hchunks;
    cbn [mbind option_bind] in Hrun; [|discriminate].
  apply (inj Some) in Hrun. subst out.
  exists chunks. split; [reflexivity|].
  split; [apply overlappingFrom_none|].
  intros Hov. apply overlappingFrom_shape; [assumption|].
  eapply chunkText_nonempty. exact Hchunks.
Qed.

Lemma createOverlappingChunks_interleaves_bridges_witness :
  exists out,
    createOverlappingChunks sampleOptions 100 sampleText = Some out
    /\ length out = 2 * length sampleChunks - 1.
Proof.
  destruct (createOverlappingChunks sampleOptions 100 sampleText)
    as [out|] eqn:Hrun; [|vm_compute in Hrun; discriminate].
  destruct (createOverlappingChunks_interleaves_bridges sampleOptions 100
              sampleText out Hrun) as (chunks & Hchunks & _ & Hshape).
  assert (Hsame : chunks = sampleChunks).
  { assert (Hsample : chunkText sampleOptions 100 sampleText = Some sampleChunks)
      by (vm_compute; reflexivity).
    congruence. }
  subst chunks. destruct Hshape as (Hlen & _); [vm_compute; lia|].
  exists out. split; [reflexivity | exact Hlen].
Defined.

End ChunkerExtraFacts.

(** ** The embedding manager: failures, expiry and the health check *)

Module EmbeddingMoreFacts.
Import Js EmbeddingManager EmbeddingSpec EmbeddingFacts BatchFacts.
Import EmbeddingAdmin EmbeddingSamples.

Section WithWorld.
Variable w : World.
Variable cfg : EmbeddingConfig.

(** *** All attempts fail *)

Lemma embedWithRetryFrom_all_rejected text : forall remaining st,
  (forall i, i <= remaining ->
     exists error,
       providerEmbedQuery w (length (providerCalls st) + i) text
       = Rejected error) ->
  exists error,
    providerEmbedQuery w (length (providerCalls st) + remaining) text
    = Rejected error
    /\ embedWithRetryFrom w cfg remaining text st
       = (Rejected error,
          {| cache := cache st; clockReads := clockReads st;
             providerCalls :=
               providerCalls st ++ replicate (S remaining) (EmbedQueryCall text);
             delays :=
               delays st
                 ++ replicate remaining (orDefault (retryDelay cfg) 1000) |}).
Proof.
  induction remaining as [|remaining IH]; intros st Hfail.
  - destruct (Hfail 0) as [error Herror]; [lia|].
    exists error. split; [exact Herror|].
    rewrite Nat.add_0_r in Herror.
    cbn [embedWithRetryFrom]. unfold bind, callEmbedQuery. rewrite Herror.
    unfold ret. cbn [replicate]. now rewrite app_nil_r.
  - destruct (Hfail 0) as [first Hfirst]; [lia|].
    rewrite Nat.add_0_r in Hfirst.
    rewrite (embedWithRetryFrom_rejected w cfg remaining text st first Hfirst).
    match goal with |- context [embedWithRetryFrom w cfg remaining text ?s] =>
      destruct (IH s) as (error & Herror & Hrun) end.
    { intros i Hi. cbn [providerCalls]. rewrite length_app. cbn [length].
      destruct (Hfail (S i)) as [e He]; [lia|]. exists e.
      rewrite <- He. f_equal. lia. }
    cbn [providerCalls] in Herror. rewrite length_app in Herror.
    cbn [length] in Herror.
    exists error. split; [rewrite <- Herror; f_equal; lia|].
    rewrite Hrun. cbn [cache clockReads providerCalls delays].
    f_equal. f_equal.
    + rewrite <- app_assoc. reflexivity.
    + rewrite <- app_assoc. reflexivity.
Qed.

(** *** Lookups of entries that have expired *)

Lemma getFromCache_expired key st entry :
  cache st !! key = Some entry ->
  (ttl entry <= dateNow w (clockReads st) - timestamp entry)%Z ->
  getFromCache w key st
  = (None, {| cache := delete key (cache st); clockReads := S (clockReads st);
              providerCalls := providerCalls st; delays := delays st |}).
Proof.
  intros Hentry Hold. unfold getFromCache. rewrite Hentry.
  unfold bind, readClock, ret. cbn [cache clockReads providerCalls delays].
  destruct (Z.ltb_spec (dateNow w (clockReads st) - timestamp entry) (ttl entry));
    [lia|reflexivity].
Qed.

Lemma getFromCache_hit key st entry :
  cache st !! key = Some entry ->
  (dateNow w (clockReads st) - timestamp entry < ttl entry)%Z ->
  getFromCache w key st
  = (embedding entry,
     {| cache := cache st; clockReads := S (clockReads st);
        providerCalls := providerCalls st; delays := delays st |}).
Proof.
  intros Hentry Hfresh. unfold getFromCache. rewrite Hentry.
  unfold bind, readClock, ret. cbn [cache clockReads providerCalls delays].
  destruct (Z.ltb_spec (dateNow w (clockReads st) - timestamp entry) (ttl entry));
    [reflexivity|lia].
Qed.

(** What a cache lookup can do to the cache: nothing, or delete the key. *)
Lemma getFromCache_cache key st :
  cache (getFromCache w key st).2 = cache st
  \/ cache (getFromCache w key st).2 = delete key (cache st).
Proof.
  unfold getFromCache. destruct (cache st !! key) as [entry|]; [|now left].
  unfold bind, readClock, ret. cbn [cache clockReads providerCalls delays].
  destruct (_ <? _)%Z; [now left | now right].
Qed.

Lemma getFromCache_delays key st :
  delays (getFromCache w key st).2 = delays st.
Proof.
  unfold getFromCache. destruct (cache st !! key) as [entry|]; [|reflexivity].
  unfold bind, readClock, ret. cbn [cache clockReads providerCalls delays].
  now destruct (_ <? _)%Z.
Qed.

Lemma cacheLookups_cache texts : forall st key entry,
  cache (cacheLookups w texts st).2 !! key = Some entry ->
  cache st !! key = Some entry.
Proof.
  induction texts as [|text rest IH]; intros st key entry; [auto|].
  rewrite cacheLookups_cons. cbn [snd]. intros Hentry.
  apply IH in Hentry.
  destruct (getFromCache_cache (generateCacheKey text) st) as [Heq|Heq];
    rewrite Heq in Hentry; [assumption|].
  apply lookup_delete_Some in Hentry. tauto.
Qed.

Lemma cacheLookups_delays texts : forall st,
  delays (cacheLookups w texts st).2 = delays st.
Proof.
  induction texts as [|text rest IH]; intros st; [reflexivity|].
  rewrite cacheLookups_cons. cbn [snd]. rewrite IH. apply getFromCache_delays.
Qed.

End WithWorld.

(** The entries written by the second loop of [embedDocuments]: each has
    the 24 h TTL and the time of one of the clock readings of the loop. *)
Lemma writeBack_entries w uncachedTexts newEmbeddings key :
  forall uncachedIndices j results st,
    j + length uncachedIndices <= length uncachedTexts ->
    let st' := (writeBack w uncachedIndices j uncachedTexts newEmbeddings
                  results st).2 in
    clockReads st' = clockReads st + length uncachedIndices
    /\ providerCalls st' = providerCalls st
    /\ ((exists k entry r,
           keyWritten uncachedTexts j (length uncachedIndices) key k
           /\ cache st' !! key = Some entry
           /\ embedding entry = newEmbeddings !! k
           /\ ttl entry = cacheTTL
           /\ clockReads st <= r < clockReads st'
           /\ timestamp entry = dateNow w r)
        \/ ((forall k,
               ~ keyWritten uncachedTexts j (length uncachedIndices) key k)
            /\ cache st' !! key = cache st !! key)).
Proof.
  induction uncachedIndices as [|index rest IH]; intros j results st Hrange.
  - cbn [writeBack length]. unfold ret. cbn [snd].
    split; [lia|]. split; [reflexivity|].
    right. split; [|reflexivity]. intros k [Hk _]. lia.
  - cbn [writeBack]. unfold bind. rewrite setCache_run. cbn [snd].
    cbn [length] in *. unfold keyWritten in *.
    match goal with |- context [writeBack w rest (S j) _ _ ?r ?s] =>
      destruct (IH (S j) r s) as (Hreads & Hcalls & Hcase)
    end; [lia|].
    cbn [clockReads providerCalls cache] in Hreads, Hcalls, Hcase.
    split; [lia|]. split; [exact Hcalls|].
    destruct Hcase as [(k & entry & r & Hk & Hentry & Hemb & Httl & Hr & Htime)
                      | [Hnone Hsame]].
    + left. exists k, entry, r. destruct Hk as [Hk Htext].
      repeat split; try assumption; lia.
    + destruct (uncachedTexts !! j) as [textj|] eqn:Htextj.
      2: { apply lookup_ge_None in Htextj. lia. }
      change (default [] (Some textj)) with textj in *.
      destruct (decide (generateCacheKey textj = key)) as [Heq|Hne].
      * left. exists j. eexists. exists (clockReads st). split; [|split].
        -- split; [lia|]. exists textj. split; assumption.
        -- rewrite Hsame, Heq. apply lookup_insert_eq.
        -- cbn [embedding ttl timestamp]. repeat split; lia.
      * right. split.
        -- intros k [Hk (text & Htext & Hkey)].
           destruct (decide (k = j)) as [Hkj|Hkj].
           ++ rewrite Hkj in Htext. congruence.
           ++ apply (Hnone k). split; [lia|]. exists text. split; assumption.
        -- rewrite Hsame. now apply lookup_insert_ne.
Qed.

(** X9. When the text has no cache entry and the provider rejects every
    one of the [retryAttempts || 3] attempts, [embedQuery] rejects with the
    error of the last attempt, after exactly that many provider calls with
    a pause of [retryDelay || 1000] ms between two of them, and the cache
    is left as it was. *)
Theorem embedQuery_gives_up_after_last_attempt w cfg text st :
  let attempts := orDefault (retryAttempts cfg) 3 in
  cache st !! generateCacheKey text = None ->
  (forall i, i < attempts ->
     exists error,
       providerEmbedQuery w (length (providerCalls st) + i) text
       = Rejected error) ->
  exists lastError,
    providerEmbedQuery w (length (providerCalls st) + (attempts - 1)) text
    = Rejected lastError
    /\ (embedQuery w cfg text st).1 = Rejected lastError
    /\ providerCalls (embedQuery w cfg text st).2
       = providerCalls st ++ replicate attempts (EmbedQueryCall text)
    /\ delays (embedQuery w cfg text st).2
       = delays st ++ replicate (attempts - 1) (orDefault (retryDelay cfg) 1000)
    /\ cache (embedQuery w cfg text st).2 = cache st.
Proof.
  intros attempts Habsent Hfail.
  assert (Hpos : 0 < attempts).
  { subst attempts. unfold orDefault.
    destruct (retryAttempts cfg) as [[|n]|]; lia. }
  destruct (embedWithRetryFrom_all_rejected w cfg text (attempts - 1) st)
    as (lastError & Hlast & Hrun).
  { intros i Hi. apply Hfail. lia. }
  exists lastError. split; [exact Hlast|].
  unfold embedQuery, bind. rewrite (getFromCache_absent w _ _ Habsent).
  unfold embedWithRetry. fold attempts. rewrite Hrun. unfold ret.
  cbn [fst snd cache providerCalls delays].
  replace (S (attempts - 1)) with attempts by lia.
  repeat split.
Qed.

Lemma embedQuery_gives_up_after_last_attempt_witness :
  (embedQuery downWorld twoAttempts (js "what is LCA?") emptyState).1
    = Rejected (js "503 Service Unavailable")
  /\ delays (embedQuery downWorld twoAttempts (js "what is LCA?") emptyState).2
     = [250].
Proof.
  destruct (embedQuery_gives_up_after_last_attempt downWorld twoAttempts
              (js "what is LCA?") emptyState)
    as (lastError & Hlast & Hrun & _ & Hdelays & _).
  - apply lookup_empty.
  - intros i _. eexists. reflexivity.
  - cbn in Hlast. inversion Hlast; subst lastError.
    split; [exact Hrun | exact Hdelays].
Defined.

(** X10. A cache entry answers [embedQuery] as long as less than its
    [ttl] has passed since it was written: then the stored vector is
    returned and the provider is not called.  From then on the entry is
    deleted at the lookup, the provider is asked, and its answer is stored
    under the key with a new timestamp and the 24 h [cacheTTL]. *)
Theorem embedQuery_entry_lives_for_its_ttl w cfg text st entry v0 :
  cache st !! generateCacheKey text = Some entry ->
  embedding entry = Some v0 ->
  let age := (dateNow w (clockReads st) - timestamp entry)%Z in
  ((age < ttl entry)%Z ->
   (embedQuery w cfg text st).1 = Resolved v0
   /\ providerCalls (embedQuery w cfg text st).2 = providerCalls st
   /\ cache (embedQuery w cfg text st).2 = cache st)
  /\ ((ttl entry <= age)%Z ->
      forall v,
        providerEmbedQuery w (length (providerCalls st)) text = Resolved v ->
        (embedQuery w cfg text st).1 = Resolved v
        /\ providerCalls (embedQuery w cfg text st).2
           = providerCalls st ++ [EmbedQueryCall text]
        /\ cache (embedQuery w cfg text st).2
           = <[generateCacheKey text :=
                 {| embedding := Some v;
                    timestamp := dateNow w (S (clockReads st));
                    ttl := cacheTTL |}]> (cache st)).
Proof.
  intros Hentry Hv0 age. split.
  - intros Hfresh. unfold embedQuery, bind.
    rewrite (getFromCache_hit w _ _ _ Hentry Hfresh), Hv0. unfold ret.
    cbn [fst snd providerCalls cache]. repeat split.
  - intros Hold v Hprov. unfold embedQuery, bind.
    rewrite (getFromCache_expired w _ _ _ Hentry Hold).
    unfold embedWithRetry.
    rewrite (embedWithRetryFrom_resolved w cfg _ text _ v) by exact Hprov.
    rewrite setCache_run. unfold ret.
    cbn [fst snd providerCalls cache clockReads].
    split; [reflexivity|]. split; [reflexivity|].
    apply insert_delete_eq.
Qed.

Lemma embedQuery_entry_lives_for_its_ttl_witness :
  let st1 := (embedQuery slowWorld threeAttempts reportA emptyState).2 in
  (embedQuery slowWorld threeAttempts reportA st1).1 = Resolved [1 # 1].
Proof.
  intros st1.
  assert (Hentry : cache st1 !! generateCacheKey reportA
                   = Some {| embedding := Some [0 # 1]; timestamp := 0;
                             ttl := cacheTTL |})
    by (vm_compute; reflexivity).
  destruct (embedQuery_entry_lives_for_its_ttl slowWorld threeAttempts reportA
              st1 _ [0 # 1] Hentry eq_refl) as [_ Hold].
  destruct (Hold ltac:(vm_compute; discriminate) [1 # 1] eq_refl) as (Hrun & _).
  exact Hrun.
Defined.

(** X11. Once [healthCheck] has stored the embedding of its test text, every
    [healthCheck] made before that entry expires reports healthy with the
    same embedding size and does not call the provider, whatever the
    provider would answer; and [healthCheck] reports unhealthy exactly
    when [embedQuery] rejects. *)
Theorem healthCheck_is_answered_by_cache w w' cfg st v :
  cache st !! generateCacheKey (js "health check") = None ->
  providerEmbedQuery w (length (providerCalls st)) (js "health check")
    = Resolved v ->
  let st1 := (healthCheck w cfg st).2 in
  (healthCheck w cfg st).1 = Healthy (length v) (S (size (cache st)))
  /\ ((dateNow w' (clockReads st1) - dateNow w (clockReads st) < cacheTTL)%Z ->
      (healthCheck w' cfg st1).1 = Healthy (length v) (S (size (cache st)))
      /\ providerCalls (healthCheck w' cfg st1).2 = providerCalls st1)
  /\ (forall st0,
        (exists error, (healthCheck w' cfg st0).1 = Unhealthy error)
        <-> exists error,
              (embedQuery w' cfg (js "health check") st0).1 = Rejected error).
Proof.
  intros Habsent Hprov st1.
  assert (Hfirst : healthCheck w cfg st
                   = (Healthy (length v) (S (size (cache st))),
                      (embedQuery w cfg (js "health check") st).2)).
  { unfold healthCheck, bind.
    rewrite (embedQuery_miss_resolved w cfg _ st v Habsent Hprov).
    cbn [snd cache]. now rewrite map_size_insert_None. }
  subst st1. rewrite Hfirst. cbn [fst snd].
  split; [reflexivity|]. split.
  - rewrite (embedQuery_miss_resolved w cfg _ st v Habsent Hprov). cbn [snd].
    set (entry := {| embedding := Some v; timestamp := dateNow w (clockReads st);
                     ttl := cacheTTL |}).
    set (st1 := {| cache := _; clockReads := S (clockReads st) |}).
    intros Hfresh.
    assert (Hentry : cache st1 !! generateCacheKey (js "health check")
                     = Some entry) by apply lookup_insert_eq.
    unfold healthCheck, embedQuery, bind.
    rewrite (getFromCache_hit w' _ _ entry Hentry Hfresh).
    unfold ret. cbn [fst snd embedding entry cache providerCalls st1].
    split; [|reflexivity]. now rewrite map_size_insert_None.
  - intros st0. unfold healthCheck, bind.
    destruct (embedQuery w' cfg (js "health check") st0) as [[v0|e] st2];
      cbn [fst snd]; unfold ret; cbn [fst]; split;
      intros [error Herror]; try discriminate; eauto.
Qed.

Lemma healthCheck_is_answered_by_cache_witness :
  (healthCheck downWorld threeAttempts
     (healthCheck steadyWorld threeAttempts emptyState).2).1 = Healthy 2 1.
Proof.
  destruct (healthCheck_is_answered_by_cache steadyWorld downWorld threeAttempts
              emptyState [1 # 2; 1 # 4]) as (_ & Hsecond & _).
  - apply lookup_empty.
  - reflexivity.
  - destruct Hsecond as [Hrun _]; [vm_compute; reflexivity | exact Hrun].
Defined.

(** X12. After [clearCache] the cache is empty and the next [embedQuery]
    asks the provider, also for a text that was cached before. *)
Theorem clearCache_forgets_every_entry w cfg text st v :
  providerEmbedQuery w (length (providerCalls st)) text = Resolved v ->
  let cleared := (clearCache st).2 in
  cache cleared = ∅
  /\ providerCalls cleared = providerCalls st
  /\ (embedQuery w cfg text cleared).1 = Resolved v
  /\ providerCalls (embedQuery w cfg text cleared).2
     = providerCalls st ++ [EmbedQueryCall text]
  /\ size (cache (embedQuery w cfg text cleared).2) = 1.
Proof.
  intros Hprov cleared. subst cleared. unfold clearCache, withCache.
  cbn [snd cache providerCalls].
  split; [reflexivity|]. split; [reflexivity|].
  rewrite (embedQuery_miss_resolved w cfg text _ v);
    [|apply lookup_empty|exact Hprov].
  cbn [fst snd providerCalls cache]. repeat split.
  rewrite map_size_insert_None by apply lookup_empty. now rewrite map_size_empty.
Qed.

Lemma clearCache_forgets_every_entry_witness :
  let st1 := (embedQuery steadyWorld threeAttempts reportA emptyState).2 in
  providerCalls
    (embedQuery steadyWorld threeAttempts reportA (clearCache st1).2).2
  = [EmbedQueryCall reportA; EmbedQueryCall reportA].
Proof.
  intros st1.
  destruct (clearCache_forgets_every_entry steadyWorld threeAttempts reportA
              st1 [1 # 2; 1 # 4] eq_refl) as (_ & _ & _ & Hcalls & _).
  exact Hcalls.
Defined.

(** X13. [embedDocuments] does not retry: when the provider rejects the one
    call for the texts not found in the cache, the error is passed on after
    that single call, without a pause, and no entry has been added to the
    cache. *)
Theorem embedDocuments_passes_provider_error_on w texts st error :
  let hits := (cacheLookups w texts st).1 in
  let uncached := uncachedOf texts hits in
  uncached <> [] ->
  providerEmbedDocuments w (length (providerCalls st)) uncached
    = Rejected error ->
  (embedDocuments w texts st).1 = Rejected error
  /\ providerCalls (embedDocuments w texts st).2
     = providerCalls st ++ [EmbedDocumentsCall uncached]
  /\ delays (embedDocuments w texts st).2 = delays st
  /\ (forall key entry,
        cache (embedDocuments w texts st).2 !! key = Some entry ->
        cache st !! key = Some entry).
Proof.
  intros hits uncached Hne Hprov.
  destruct (checkCache_spec w (length texts) texts 0 [] [] [] st)
    as (results1 & Hloop1 & _ & _); [simpl; lia | reflexivity |].
  fold hits in Hloop1. cbn [app] in Hloop1. fold uncached in Hloop1.
  pose proof (cacheLookups_calls w texts st) as Hcalls.
  pose proof (cacheLookups_delays w texts st) as Hdelays.
  pose proof (cacheLookups_cache w texts st) as Hcache.
  assert (Hrun : embedDocuments w texts st
                 = (Rejected error,
                    {| cache := cache (cacheLookups w texts st).2;
                       clockReads := clockReads (cacheLookups w texts st).2;
                       providerCalls :=
                         providerCalls (cacheLookups w texts st).2
                           ++ [EmbedDocumentsCall uncached];
                       delays := delays (cacheLookups w texts st).2 |})).
  { unfold embedDocuments, bind. rewrite Hloop1. cbv beta iota.
    destruct uncached as [|text0 rest0] eqn:Hshape; [congruence|].
    cbn [length Nat.ltb Nat.leb]. unfold callEmbedDocuments.
    rewrite Hcalls, Hprov. reflexivity. }
  rewrite Hrun. cbn [fst snd providerCalls delays cache].
  rewrite Hcalls, Hdelays. repeat split. exact Hcache.
Qed.

Lemma embedDocuments_passes_provider_error_on_witness :
  (embedDocuments downWorld batchTexts emptyState).1
    = Rejected (js "503 Service Unavailable").
Proof.
  destruct (embedDocuments_passes_provider_error_on downWorld batchTexts
              emptyState (js "503 Service Unavailable")) as (Hrun & _).
  - vm_compute. discriminate.
  - reflexivity.
  - exact Hrun.
Defined.

(** X30. [embedDocuments] warms the cache for [embedQuery]: after a batch
    whose uncached texts the provider has embedded, [embedQuery] for one of
    these texts is answered from the cache without a provider call, as long
    as less than the 24 h TTL has passed since the clock readings of the
    batch.  The answer is the vector of the batch for a text with the same
    cache key, which is the text itself when no other text of the batch
    shares its key. *)
Theorem embedDocuments_warms_cache_for_embedQuery
    w cfg texts st newEmbeddings j text :
  let hits := (cacheLookups w texts st).1 in
  let uncached := uncachedOf texts hits in
  let st' := (embedDocuments w texts st).2 in
  providerEmbedDocuments w (length (providerCalls st)) uncached
    = Resolved newEmbeddings ->
  length newEmbeddings = length uncached ->
  uncached !! j = Some text ->
  (forall r, r < clockReads st' ->
     (dateNow w (clockReads st') - dateNow w r < cacheTTL)%Z) ->
  exists k text' v,
    uncached !! k = Some text'
    /\ generateCacheKey text' = generateCacheKey text
    /\ newEmbeddings !! k = Some v
    /\ (embedQuery w cfg text st').1 = Resolved v
    /\ providerCalls (embedQuery w cfg text st').2 = providerCalls st'
    /\ ((forall i other, uncached !! i = Some other ->
           generateCacheKey other = generateCacheKey text -> i = j) ->
        k = j).
Proof.
  intros hits uncached st' Hprov Hsame Htext Hfresh.
  pose proof (cacheLookups_length w texts st) as Hhits. fold hits in Hhits.
  destruct (checkCache_spec w (length texts) texts 0 [] [] [] st)
    as (results1 & Hloop1 & _ & _); [simpl; lia | reflexivity |].
  fold hits in Hloop1. cbn [app] in Hloop1. fold uncached in Hloop1.
  pose proof (cacheLookups_calls w texts st) as Hcalls.
  set (st1 := (cacheLookups w texts st).2) in *.
  set (st2 := {| cache := cache st1; clockReads := clockReads st1;
                 providerCalls := providerCalls st1
                                    ++ [EmbedDocumentsCall uncached];
                 delays := delays st1 |}).
  set (indices := uncachedIndicesOf 0 hits) in *.
  assert (Hstate : st' = (writeBack w indices 0 uncached newEmbeddings
                            results1 st2).2).
  { subst st'. unfold embedDocuments, bind. rewrite Hloop1. cbv beta iota.
    destruct uncached as [|text0 rest0] eqn:Hshape; [discriminate|].
    cbn [length Nat.ltb Nat.leb]. unfold callEmbedDocuments.
    unfold st2. rewrite Hcalls, Hprov.
    now destruct (writeBack w indices 0 _ newEmbeddings results1 _). }
  assert (Hindices : length indices = length uncached).
  { apply uncachedIndicesOf_length. symmetry. exact Hhits. }
  destruct (writeBack_entries w uncached newEmbeddings (generateCacheKey text)
              indices 0 results1 st2) as (Hreads & _ & Hcase); [lia|].
  rewrite <- Hstate in Hreads, Hcase.
  destruct Hcase as [(k & entry & r & Hk & Hentry & Hemb & Httl & Hr & Htime)
                    | [Hnone _]].
  2: { exfalso. apply (Hnone j). split.
       - apply lookup_lt_Some in Htext. lia.
       - exists text. split; [exact Htext | reflexivity]. }
  destruct Hk as [Hk (text' & Htext' & Hkey)].
  destruct (newEmbeddings !! k) as [v|] eqn:Hv.
  2: { apply lookup_ge_None in Hv. lia. }
  exists k, text', v. split; [exact Htext'|]. split; [exact Hkey|].
  split; [exact Hv|].
  assert (Hhit : getFromCache w (generateCacheKey text) st'
                 = (Some v,
                    {| cache := cache st'; clockReads := S (clockReads st');
                       providerCalls := providerCalls st';
                       delays := delays st' |})).
  { rewrite (getFromCache_hit w _ _ entry Hentry).
    - now rewrite Hemb.
    - rewrite Htime, Httl. apply Hfresh. lia. }
  unfold embedQuery, bind. rewrite Hhit. unfold ret.
  cbn [fst snd providerCalls].
  split; [reflexivity|]. split; [reflexivity|].
  intros Hunique. now apply (Hunique k text').
Qed.

Lemma embedDocuments_warms_cache_for_embedQuery_witness :
  let st' := (embedDocuments lengthWorld batchTexts emptyState).2 in
  exists v,
    (embedQuery lengthWorld threeAttempts (js "third one") st').1 = Resolved v
    /\ providerCalls (embedQuery lengthWorld threeAttempts (js "third one")
                        st').2
       = providerCalls st'.
Proof.
  intros st'.
  destruct (embedDocuments_warms_cache_for_embedQuery lengthWorld
              threeAttempts batchTexts emptyState
              (map (fun text => [inject_Z (Z.of_nat (length text))]) batchTexts)
              2 (js "third one"))
    as (k & text' & v & _ & _ & _ & Hrun & Hcalls & _).
  - reflexivity.
  - reflexivity.
  - reflexivity.
  - intros r _.
    assert (Hreads : clockReads
                       (embedDocuments lengthWorld batchTexts emptyState).2 = 3)
      by (vm_compute; reflexivity).
    rewrite Hreads. cbn [lengthWorld dateNow]. unfold cacheTTL. lia.
  - exists v. split; [exact Hrun | exact Hcalls].
Defined.

End EmbeddingMoreFacts.

(** ** Sorting keeps the elements *)

Module SortingFacts.
Import Numbers NumbersFacts.

Section Sorting.
Context {A : Type}.
Variable after : A -> A -> bool.

Lemma insertSorted_perm x sorted : insertSorted after x sorted ≡ₚ x :: sorted.
Proof.
  induction sorted as [|y rest IH]; cbn [insertSorted]; [reflexivity|].
  destruct (after y x); [reflexivity|].
  rewrite IH. apply Permutation_swap.
Qed.

Lemma sortWith_perm l : sortWith after l ≡ₚ l.
Proof.
  unfold sortWith.
  assert (H : forall sorted,
            foldl (fun sorted x => insertSorted after x sorted) sorted l
            ≡ₚ sorted ++ l).
  { induction l as [|x rest IH]; intros sorted; cbn [foldl].
    - now rewrite app_nil_r.
    - rewrite IH, insertSorted_perm. cbn [app]. apply Permutation_middle. }
  apply (H []).
Qed.

(** Sorting a list of elements on which the comparator is an order. *)
Variable P : A -> Prop.
Variable before : A -> A -> Prop.
Hypothesis before_trans :
  forall a b c, P a -> P b -> P c -> before a b -> before b c -> before a c.
Hypothesis after_before : forall a b, P a -> P b -> after a b = true -> before b a.
Hypothesis not_after_before :
  forall a b, P a -> P b -> after a b = false -> before a b.

Lemma insertSorted_sorted_on x sorted :
  P x -> Forall P sorted -> StronglySorted before sorted ->
  StronglySorted before (insertSorted after x sorted).
Proof.
  intros Hx Hall Hsorted. revert Hall.
  induction Hsorted as [|z rest Hrest IH Hz]; intros Hall; cbn [insertSorted].
  - repeat constructor.
  - inversion Hall as [|? ? HPz HPrest]; subst.
    destruct (after z x) eqn:Hcmp.
    + constructor; [now constructor|].
      constructor; [now apply after_before|].
      rewrite Forall_forall in Hz, HPrest |- *. intros w Hw.
      apply (before_trans x z w); auto.
    + constructor; [now apply IH|].
      apply Forall_forall. intros w Hw. apply insertSorted_elem in Hw as [->|Hw].
      * now apply not_after_before.
      * rewrite Forall_forall in Hz. now apply Hz.
Qed.

Lemma sortWith_sorted_on l :
  Forall P l -> StronglySorted before (sortWith after l).
Proof.
  unfold sortWith. intros Hl.
  assert (H : forall sorted, Forall P sorted -> StronglySorted before sorted ->
            StronglySorted before
              (foldl (fun sorted x => insertSorted after x sorted) sorted l)).
  { induction Hl as [|x rest Hx Hrest IH]; intros sorted HP Hs; cbn [foldl];
      [exact Hs|].
    apply IH.
    - apply Forall_forall. intros y Hy. apply insertSorted_elem in Hy as [->|Hy];
        [assumption|]. rewrite Forall_forall in HP. now apply HP.
    - now apply insertSorted_sorted_on. }
  apply H; constructor.
Qed.

End Sorting.

Lemma Forall_sublist {A} (P : A -> Prop) (l k : list A) :
  sublist k l -> Forall P l -> Forall P k.
Proof.
  induction 1 as [|x k l Hsub IH|x k l Hsub IH]; intros Hall.
  - constructor.
  - inversion Hall; subst. constructor; auto.
  - inversion Hall; subst. auto.
Qed.

Lemma StronglySorted_sublist {A} (R : A -> A -> Prop) (l k : list A) :
  sublist k l -> StronglySorted R l -> StronglySorted R k.
Proof.
  induction 1 as [|x k l Hsub IH|x k l Hsub IH]; intros Hsorted.
  - constructor.
  - apply StronglySorted_cons in Hsorted as [Hx Hl].
    constructor; [auto|]. eapply Forall_sublist; eassumption.
  - apply StronglySorted_cons in Hsorted as [_ Hl]. auto.
Qed.

Lemma slice0_sublist {A} (l : list A) limit : sublist (slice0 l limit) l.
Proof. unfold slice0. destruct (_ <? _)%Z; apply sublist_take. Qed.

End SortingFacts.

(** ** Vector search: the best matches, and what expansion keeps *)

Module VectorRankingFacts.
Import Js Numbers NumbersFacts SortingFacts EmbeddingManager Store VectorSearch.
Import SearchSamples VectorSearchFacts RankingSpec.

Lemma removeDuplicatesFrom_NoDup results : forall seen,
  NoDup (map id (removeDuplicatesFrom results seen))
  /\ Forall (fun r => id r ∉ seen) (removeDuplicatesFrom results seen).
Proof.
  induction results as [|x rest IH]; intros seen; cbn [removeDuplicatesFrom map].
  - split; constructor.
  - destruct (bool_decide_reflect (id x ∈ seen)) as [Hx|Hx]; [apply IH|].
    destruct (IH (id x :: seen)) as [Hnodup Hfresh].
    cbn [map]. split.
    + constructor; [|exact Hnodup].
      intros Hin. apply list_elem_of_fmap in Hin as (r & Heq & Hr).
      rewrite Forall_forall in Hfresh. apply (Hfresh r Hr). rewrite Heq.
      set_solver.
    + constructor; [exact Hx|].
      eapply Forall_impl; [exact Hfresh|]. cbn beta. set_solver.
Qed.

Lemma removeDuplicatesFrom_first results : forall seen r,
  r ∈ removeDuplicatesFrom results seen ->
  (id r ∉ seen) /\ FirstWithId results r.
Proof.
  induction results as [|x rest IH]; intros seen r Hr;
    cbn [removeDuplicatesFrom] in Hr; [inversion Hr|].
  destruct (bool_decide_reflect (id x ∈ seen)) as [Hx|Hx].
  - destruct (IH seen r Hr) as (Hfresh & i & Hi & Hbefore).
    split; [exact Hfresh|]. exists (S i). split; [exact Hi|].
    intros [|j] y Hj Hy.
    + cbn in Hy. inversion Hy; subst. congruence.
    + cbn in Hy. apply (Hbefore j); [lia|exact Hy].
  - apply elem_of_cons in Hr as [->|Hr].
    + split; [exact Hx|]. exists 0. split; [reflexivity|]. intros j y Hj. lia.
    + destruct (IH (id x :: seen) r Hr) as (Hfresh & i & Hi & Hbefore).
      split; [set_solver|]. exists (S i). split; [exact Hi|].
      intros [|j] y Hj Hy.
      * cbn in Hy. inversion Hy; subst. set_solver.
      * cbn in Hy. apply (Hbefore j); [lia|exact Hy].
Qed.



(** X15. With context expansion, [searchWithContext] returns every id at
    most once, each entry is the first one with its id in the expansion
    (the hits in rank order, each followed by its neighbours), and every
    hit is represented by an entry with its id: so a hit that is also a
    neighbour of a better hit is returned as that neighbour, with the
    fixed score.  Without expansion, or without hits, the hits are
    returned as they are. *)
Theorem searchWithContext_keeps_first_entry_per_id
    embedQuery cosine store q options hits :
  search embedQuery cosine store q options = Resolved hits ->
  exists out,
    searchWithContext embedQuery cosine store q options = Resolved out
    /\ (includeAdjacentChunks options = false \/ hits = [] -> out = hits)
    /\ (includeAdjacentChunks options = true -> hits <> [] ->
        NoDup (map id out)
        /\ Forall (FirstWithId
                     (expand store (orZ (contextWindow options) 2) hits))
                  out
        /\ Forall (fun hit => exists r, r ∈ out /\ id r = id hit) hits
        /\ StronglySorted byScore out).
Proof.
  intros Hsearch. unfold searchWithContext. rewrite Hsearch.
  destruct (includeAdjacentChunks options) eqn:Hadj; cbn [negb orb].
  - destruct hits as [|hit rest] eqn:Hshape; cbn [length Nat.eqb].
    + exists []. split; [reflexivity|]. split; [auto|]. congruence.
    + rewrite <- Hshape in *. clear Hshape.
      set (window := orZ (contextWindow options) 2).
      eexists. split; [reflexivity|]. split.
      { intros [Hfalse| ->]; [discriminate|]. reflexivity. }
      intros _ _. split; [|split; [|split]].
      * rewrite (sortWith_perm lowerScore).
        apply (removeDuplicatesFrom_NoDup (expand store window hits) []).
      * apply Forall_forall. intros r Hr. apply sortWith_elem in Hr.
        now apply (removeDuplicatesFrom_first _ [] r).
      * apply Forall_forall. intros x Hx.
        destruct (removeDuplicatesFrom_covers (expand store window hits) [] x)
          as (r & Hr & Hid); [|set_solver|].
        { apply expand_elem. exists x. auto. }
        exists r. split; [now apply sortWith_elem | exact Hid].
      * apply sortWith_lowerScore_sorted.
  - exists hits. split; [reflexivity|]. split; [auto|]. discriminate.
Qed.

Lemma searchWithContext_keeps_first_entry_per_id_witness :
  exists out,
    searchWithContext queryEmbedding unitCosine chainStore (js "emission")
      contextOptions = Resolved out
    /\ map (fun r => (id r, score r)) out
       = [ (js "c1", 1%Q); (js "c2", 8 # 10); (js "c3", 8 # 10) ].
Proof.
  destruct (search queryEmbedding unitCosine chainStore (js "emission")
              contextOptions) as [hits|] eqn:Hsearch;
    [|vm_compute in Hsearch; discriminate].
  destruct (searchWithContext_keeps_first_entry_per_id queryEmbedding unitCosine
              chainStore (js "emission") contextOptions hits Hsearch)
    as (out & Hrun & _).
  exists out. split; [exact Hrun|].
  assert (Hout : searchWithContext queryEmbedding unitCosine chainStore
                   (js "emission") contextOptions
                 = Resolved
                     (sortWith lowerScore
                        (removeDuplicates
                           (expand chainStore 2
                              (default [] (match search queryEmbedding unitCosine
                                                   chainStore (js "emission")
                                                   contextOptions with
                                           | Resolved h => Some h
                                           | Rejected _ => None
                                           end))))))
    by (vm_compute; reflexivity).
  rewrite Hout in Hrun. apply (f_equal (fun o => match o with
                                                 | Resolved l => l
                                                 | Rejected _ => []
                                                 end)) in Hrun.
  rewrite <- Hrun. vm_compute. reflexivity.
Defined.

End VectorRankingFacts.

(** ** Unified search: order, duplicates, fallback and the registry *)

Module FusionFacts.
Import Js Numbers NumbersFacts SortingFacts EmbeddingManager Store UnifiedSearch.
Import SearchSpec SearchSamples UnifiedSearchFacts StrategyRegistry FusionSpec.

(** *** Scores of the candidates *)

Lemma clamp01_finite x : exists s, clamp01 (Finite x) = Finite s.
Proof.
  destruct (clamp01_range (Finite x)) as [Hnan|(s & Hs & _)]; [|eauto].
  cbn in Hnan. destruct (Qle_bool 1 x); cbn in Hnan;
    [discriminate|]. destruct (Qle_bool 0 x); discriminate.
Qed.

Lemma lowerNormalizedScore_order :
  let P := fun r : ScoredResult => exists x, normalizedScore r = Finite x in
  (forall a b c, P a -> P b -> P c ->
     byNormalizedScore a b -> byNormalizedScore b c -> byNormalizedScore a c)
  /\ (forall a b, P a -> P b ->
        lowerNormalizedScore a b = true -> byNormalizedScore b a)
  /\ (forall a b, P a -> P b ->
        lowerNormalizedScore a b = false -> byNormalizedScore a b).
Proof.
  intros P. split; [|split].
  - intros a b c _ _ _ (x & y & Ha & Hb & Hxy) (y' & z & Hb' & Hc & Hyz).
    rewrite Hb in Hb'. inversion Hb'; subst y'.
    exists x, z. split; [assumption|]. split; [assumption|].
    eapply Qle_trans; eassumption.
  - intros a b [x Ha] [y Hb] Hafter. unfold lowerNormalizedScore in Hafter.
    rewrite Ha, Hb in Hafter. cbn in Hafter.
    exists y, x. split; [assumption|]. split; [assumption|].
    apply negb_true_iff in Hafter.
    assert (Hlt : (0 < y - x)%Q).
    { apply Qnot_le_lt. intros Hle. apply Qle_bool_iff in Hle. congruence. }
    apply Qlt_le_weak. apply (Qplus_lt_l _ _ x) in Hlt. ring_simplify in Hlt.
    exact Hlt.
  - intros a b [x Ha] [y Hb] Hafter. unfold lowerNormalizedScore in Hafter.
    rewrite Ha, Hb in Hafter. cbn in Hafter.
    exists x, y. split; [assumption|]. split; [assumption|].
    apply negb_false_iff, Qle_bool_iff in Hafter.
    apply (Qplus_le_l _ _ x) in Hafter. ring_simplify in Hafter. exact Hafter.
Qed.

Lemma deduplicate_sublist results : forall seen,
  sublist (deduplicate results seen) results.
Proof.
  induction results as [|r rest IH]; intros seen; cbn [deduplicate];
    [constructor|].
  destruct (bool_decide _); [apply sublist_cons | apply sublist_skip]; apply IH.
Qed.

Lemma deduplicate_NoDup results : forall seen,
  NoDup (map dedupKey (deduplicate results seen))
  /\ Forall (fun r => dedupKey r ∉ seen) (deduplicate results seen).
Proof.
  induction results as [|x rest IH]; intros seen; cbn [deduplicate map].
  - split; constructor.
  - destruct (bool_decide_reflect (dedupKey x ∈ seen)) as [Hx|Hx]; [apply IH|].
    destruct (IH (dedupKey x :: seen)) as [Hnodup Hfresh].
    cbn [map]. split.
    + constructor; [|exact Hnodup].
      intros Hin. apply list_elem_of_fmap in Hin as (r & Heq & Hr).
      rewrite Forall_forall in Hfresh. apply (Hfresh r Hr). rewrite Heq.
      set_solver.
    + constructor; [exact Hx|].
      eapply Forall_impl; [exact Hfresh|]. cbn beta. set_solver.
Qed.

Lemma fuse_sublist validResults :
  sublist (fuse validResults)
    (sortWith lowerNormalizedScore
       (map (fun r => {| result := r;
                         normalizedScore := normalizeScore (score r) |})
            validResults)).
Proof.
  unfold fuse.
  match goal with |- sublist (filter _ ?l) _ =>
    transitivity l; [apply sublist_filter | apply deduplicate_sublist] end.
Qed.

Lemma fuse_sorted validResults :
  Forall FiniteScore validResults ->
  StronglySorted byNormalizedScore (fuse validResults).
Proof.
  intros Hfinite.
  eapply StronglySorted_sublist; [apply fuse_sublist|].
  destruct lowerNormalizedScore_order as (Htrans & Hafter & Hnot).
  apply (sortWith_sorted_on lowerNormalizedScore
           (fun r => exists x, normalizedScore r = Finite x));
    [exact Htrans | exact Hafter | exact Hnot |].
  apply Forall_forall. intros r Hr.
  apply list_elem_of_fmap in Hr as (x & -> & Hx).
  rewrite Forall_forall in Hfinite. destruct (Hfinite x Hx) as [s Hs].
  cbn [normalizedScore]. rewrite Hs. cbn [normalizeScore]. apply clamp01_finite.
Qed.

Lemma fuse_NoDup validResults : NoDup (map dedupKey (fuse validResults)).
Proof.
  unfold fuse.
  match goal with |- NoDup (map _ (filter _ ?l)) =>
    apply (sublist_NoDup _ (map dedupKey l)) end.
  - apply deduplicate_NoDup.
  - apply (fmap_sublist dedupKey), sublist_filter.
Qed.

Lemma fuse_valid validResults :
  Forall (fun r => isValid r = true) validResults ->
  Forall (fun r => isValid (result r) = true) (fuse validResults).
Proof.
  intros Hvalid.
  eapply Forall_sublist; [apply fuse_sublist|].
  apply sortWith_Forall, Forall_forall. intros r Hr.
  apply list_elem_of_fmap in Hr as (x & -> & Hx).
  rewrite Forall_forall in Hvalid. now apply Hvalid.
Qed.

Section WithServices.
Variable embedQuery : JsString -> Outcome Vector.
Variable cosine : Vector -> Vector -> option Q.
Variable store : Store.
Variable strategies : gmap JsString SearchStrategy.

Lemma performVectorSearch_finite q given results :
  performVectorSearch embedQuery cosine store q given = Resolved results ->
  Forall FiniteScore results.
Proof.
  unfold performVectorSearch. intros Hrun.
  match type of Hrun with
  | match ?answer with _ => _ end = _ => destruct answer; [|discriminate]
  end.
  inversion Hrun; subst. apply Forall_forall. intros r Hr.
  apply list_elem_of_fmap in Hr as (x & -> & _). eexists. reflexivity.
Qed.

Lemma performTextSearch_finite q given results :
  performTextSearch store q given = Resolved results ->
  Forall FiniteScore results.
Proof.
  unfold performTextSearch, performTextSearchWith. intros Hrun.
  destruct (limitRows _ _); [|discriminate].
  inversion Hrun; subst. apply Forall_forall. intros r Hr.
  apply list_elem_of_fmap in Hr as (x & -> & _). eexists. reflexivity.
Qed.

Lemma collect_finite q options strategy results :
  collect embedQuery cosine store q options strategy = Resolved results ->
  Forall FiniteScore results.
Proof.
  unfold collect. intros Hrun.
  assert (Hpart : forall part,
            (if useVectorSearch strategy then
               match performVectorSearch embedQuery cosine store q
                       (vectorSearchOptions strategy) with
               | Resolved vectorResults => Resolved vectorResults
               | Rejected _ =>
                   if negb (useTextSearch strategy)
                      && negb (bool_decide (fallbackToText options = Some false))
                   then performTextSearch store q
                          (Some {| textLimit := Some (orZ (limit q) 10) |})
                   else Resolved []
               end
             else Resolved []) = Resolved part ->
            Forall FiniteScore part).
  { intros part Hpart. destruct (useVectorSearch strategy).
    - destruct (performVectorSearch _ _ _ _ _) eqn:Hv.
      + inversion Hpart; subst. eapply performVectorSearch_finite; eassumption.
      + destruct (_ && _).
        * eapply performTextSearch_finite; eassumption.
        * inversion Hpart. constructor.
    - inversion Hpart. constructor. }
  match type of Hrun with
  | match ?part with _ => _ end = _ =>
      destruct part as [vectorPart|] eqn:Hv; [|discriminate]
  end.
  specialize (Hpart vectorPart eq_refl).
  destruct (useTextSearch strategy); [|now inversion Hrun; subst].
  destruct (performTextSearch store q (textSearchOptions strategy)) eqn:Ht;
    inversion Hrun; subst; [|assumption].
  apply Forall_app. split; [assumption|].
  eapply performTextSearch_finite; eassumption.
Qed.

Lemma vectorSearch_rejected q options error :
  embedQuery q = Rejected error ->
  VectorSearch.search embedQuery cosine store q options = Rejected error
  /\ VectorSearch.searchWithContext embedQuery cosine store q options
     = Rejected error.
Proof.
  intros Hfail. unfold VectorSearch.searchWithContext, VectorSearch.search.
  now rewrite Hfail.
Qed.

Lemma performVectorSearch_rejected q given error :
  embedQuery (query q) = Rejected error ->
  performVectorSearch embedQuery cosine store q given = Rejected error.
Proof.
  intros Hfail. unfold performVectorSearch.
  match goal with |- context [VectorSearch.searchWithContext _ _ _ _ ?o] =>
    destruct (vectorSearch_rejected (query q) o error Hfail) as [-> ->] end.
  now destruct (default false _).
Qed.

End WithServices.

(** X16. The results of [search] are in descending order of their
    normalized scores, no two of them have the same deduplication key
    (source and first 100 code units of the content), and each has a
    content that is not blank. *)
Theorem search_results_ranked_and_distinct
    embedQuery cosine store strategies q options :
  let results := search embedQuery cosine store strategies q options in
  StronglySorted byNormalizedScore results
  /\ NoDup (map dedupKey results)
  /\ Forall (fun r => isValid (result r) = true) results.
Proof.
  intros results. subst results. rewrite search_fuse.
  destruct (collect _ _ _ _ _ _) as [candidates|] eqn:Hcollect.
  2: { split; [constructor|]. split; constructor. }
  pose proof (collect_finite _ _ _ _ _ _ _ Hcollect) as Hfinite.
  set (valid := filter (fun r => isValid r = true) candidates).
  assert (Hvalid : Forall (fun r => isValid r = true) valid).
  { apply Forall_forall. intros r Hr.
    now apply list_elem_of_filter in Hr as [? _]. }
  assert (Hfinite' : Forall FiniteScore valid).
  { eapply Forall_sublist; [apply sublist_filter | exact Hfinite]. }
  split; [|split].
  - eapply StronglySorted_sublist; [apply slice0_sublist|].
    now apply fuse_sorted.
  - eapply sublist_NoDup; [apply fuse_NoDup|].
    apply (fmap_sublist dedupKey), slice0_sublist.
  - eapply Forall_sublist; [apply slice0_sublist|]. now apply fuse_valid.
Qed.

(** X17. When the embedding of the query fails, a strategy that uses the
    vector search without the text search answers with the optimized
    results of the text search, run with the limit of the query (10 when
    there is none); with [fallbackToText: false], or when that text search
    fails too, the answer is empty.  [search] itself does not fail. *)
Theorem search_falls_back_to_text_search
    embedQuery cosine store strategies q options error :
  let chosen := resolveStrategy strategies (strategy options) in
  embedQuery (query q) = Rejected error ->
  useVectorSearch chosen = true ->
  useTextSearch chosen = false ->
  search embedQuery cosine store strategies q options
  = if bool_decide (fallbackToText options = Some false) then []
    else match performTextSearch store q (fallbackOptions q) with
         | Resolved textResults =>
             optimizeResults textResults (resultLimitOf chosen q)
         | Rejected _ => []
         end.
Proof.
  intros chosen Hfail Hvector Htext. unfold search, collect. fold chosen.
  rewrite Hvector, Htext.
  rewrite (performVectorSearch_rejected embedQuery cosine store q _ error Hfail).
  cbn [negb andb]. unfold fallbackOptions.
  destruct (bool_decide (fallbackToText options = Some false)); cbn [negb].
  - reflexivity.
  - now destruct (performTextSearch _ _ _).
Qed.

Lemma search_falls_back_to_text_search_witness :
  map (fun r => searchMethod (metadata (result r)))
      (search failingEmbedding unitCosine twoChunkStore searchStrategies
         exactQuery vectorOnlyOptions)
  = [js "text"]
  /\ search failingEmbedding unitCosine twoChunkStore searchStrategies
       exactQuery noFallback = [].
Proof.
  pose proof (search_falls_back_to_text_search failingEmbedding unitCosine
                twoChunkStore searchStrategies exactQuery vectorOnlyOptions
                (js "embedding provider unavailable")
                eq_refl eq_refl eq_refl) as Hdefault.
  pose proof (search_falls_back_to_text_search failingEmbedding unitCosine
                twoChunkStore searchStrategies exactQuery noFallback
                (js "embedding provider unavailable")
                eq_refl eq_refl eq_refl) as Hnone.
  split.
  - rewrite Hdefault. vm_compute. reflexivity.
  - rewrite Hnone. reflexivity.
Defined.

(** X18. A strategy added with [addStrategy] is found under its name by
    [getStrategy] and by [resolveStrategy], and the other names keep their
    strategies.  A name that is not registered resolves to the strategy
    registered as [vector-with-context], so adding a strategy with that
    name changes what every unknown name, and a missing strategy option,
    resolves to. *)
Theorem addStrategy_registers_under_its_name added strategies :
  let strategies' := addStrategy added strategies in
  getStrategy strategies' (name added) = Some added
  /\ resolveStrategy strategies' (Some (inl (name added))) = added
  /\ (forall other, other <> name added ->
        getStrategy strategies' other = getStrategy strategies other)
  /\ (name added = js "vector-with-context" ->
      resolveStrategy strategies' None = added
      /\ forall unknown, getStrategy strategies' unknown = None ->
           resolveStrategy strategies' (Some (inl unknown)) = added).
Proof.
  intros strategies'. subst strategies'. unfold addStrategy, getStrategy.
  split; [apply lookup_insert_eq|].
  split; [unfold resolveStrategy; now rewrite lookup_insert_eq|].
  split; [intros other Hother; now apply lookup_insert_ne|].
  intros Hname. unfold resolveStrategy. rewrite <- Hname, lookup_insert_eq.
  split; [reflexivity|]. intros unknown ->. reflexivity.
Qed.

Lemma addStrategy_registers_under_its_name_witness :
  resolveStrategy (addStrategy textFirst searchStrategies)
    (Some (inl (js "no-such-strategy"))) = textFirst.
Proof.
  destruct (addStrategy_registers_under_its_name textFirst searchStrategies)
    as (_ & _ & _ & Hdefault).
  destruct (Hdefault eq_refl) as [_ Hunknown].
  apply Hunknown. vm_compute. reflexivity.
Defined.

End FusionFacts.

(** ** The lexical branch *)

Module TextSearchFacts.
Import Js Numbers NumbersFacts SortingFacts EmbeddingManager Store
       UnifiedSearch UnifiedSearchFacts SearchSamples TextSearchSpec.

(** *** Sorting and mapping *)

Lemma insertSorted_map {A B} (f : A -> B) (after : B -> B -> bool) x sorted :
  insertSorted after (f x) (map f sorted)
  = map f (insertSorted (fun a b => after (f a) (f b)) x sorted).
Proof.
  induction sorted as [|y rest IH]; cbn [insertSorted map]; [reflexivity|].
  destruct (after (f y) (f x)); cbn [map]; [reflexivity|]. now rewrite IH.
Qed.

Lemma sortWith_map {A B} (f : A -> B) (after : B -> B -> bool) l :
  sortWith after (map f l)
  = map f (sortWith (fun a b => after (f a) (f b)) l).
Proof.
  unfold sortWith.
  assert (H : forall sorted,
            foldl (fun sorted x => insertSorted after x sorted)
                  (map f sorted) (map f l)
            = map f (foldl (fun sorted x =>
                              insertSorted (fun a b => after (f a) (f b))
                                x sorted) sorted l)).
  { induction l as [|x rest IH]; intros sorted; cbn [foldl map];
      [reflexivity|].
    rewrite insertSorted_map. apply IH. }
  apply (H []).
Qed.

Lemma filter_map_rows {A B} (f : A -> B) (p : B -> bool) l :
  filter (fun y => p y = true) (map f l)
  = map f (filter (fun x => p (f x) = true) l).
Proof.
  induction l as [|x rest IH]; [reflexivity|]. cbn [map].
  destruct (p (f x)) eqn:Hx.
  - rewrite !filter_cons_True by exact Hx. cbn [map]. now rewrite IH.
  - rewrite !filter_cons_False by (rewrite Hx; discriminate). exact IH.
Qed.

(** *** The rows of the query *)

Lemma textRowsWith_rows lower store text :
  textRowsWith store lower text
  = map (rowOf lower text) (matchingChunks store text).
Proof.
  unfold textRowsWith, matchingChunks.
  induction (chunkRows store) as [|chunk rest IH]; [reflexivity|].
  cbn [flat_map].
  destruct (contains (c_text chunk) text) eqn:Hchunk.
  - rewrite filter_cons_True by exact Hchunk. cbn [map app]. now rewrite IH.
  - rewrite filter_cons_False by (rewrite Hchunk; discriminate). exact IH.
Qed.

Lemma matchingChunks_none store text :
  Forall (fun chunk => contains (c_text chunk) text = false) (chunkRows store) ->
  matchingChunks store text = [].
Proof.
  unfold matchingChunks.
  induction 1 as [|chunk rest Hchunk _ IH]; [reflexivity|].
  rewrite filter_cons_False by (rewrite Hchunk; discriminate). exact IH.
Qed.

(** Lower-casing code unit by code unit keeps a literal match. *)
Lemma toLower_keeps_match text part :
  contains text part = true -> contains (toLower text) (toLower part) = true.
Proof. apply contains_map. Qed.

(** *** The ranking *)

Lemma RankedBefore_trans lower text a b c :
  RankedBefore lower text a b -> RankedBefore lower text b c ->
  RankedBefore lower text a c.
Proof.
  unfold RankedBefore.
  intros [Hab|[Hab Hiab]] [Hbc|[Hbc Hibc]].
  - left. eapply Qlt_trans; eassumption.
  - left. now rewrite <- Hbc.
  - left. now rewrite Hab.
  - right. split; [now rewrite Hab | lia].
Qed.

Lemma chunkAfter_before lower text a b :
  chunkAfter lower text a b = true -> RankedBefore lower text b a.
Proof.
  unfold chunkAfter, textRowAfter, RankedBefore.
  cbn [rowOf rowScore rowChunkIndex]. intros Hafter.
  apply orb_true_iff in Hafter as [Hlt|Heq].
  - left. apply negb_true_iff in Hlt. apply Qnot_le_lt. intros Hle.
    apply Qle_bool_iff in Hle. congruence.
  - right. apply andb_true_iff in Heq as [Heq Hindex].
    apply Qeq_bool_iff in Heq. apply Nat.ltb_lt in Hindex.
    split; [now symmetry | lia].
Qed.

Lemma not_chunkAfter_before lower text a b :
  chunkAfter lower text a b = false -> RankedBefore lower text a b.
Proof.
  unfold chunkAfter, textRowAfter, RankedBefore.
  cbn [rowOf rowScore rowChunkIndex]. intros Hafter.
  apply orb_false_iff in Hafter as [Hle Heq].
  apply negb_false_iff, Qle_bool_iff in Hle.
  destruct (Qlt_le_dec (caseScore lower text b) (caseScore lower text a))
    as [Hlt|Hge]; [now left|].
  right. assert (Hsame : (caseScore lower text a == caseScore lower text b)%Q)
    by now apply Qle_antisym.
  split; [exact Hsame|].
  apply andb_false_iff in Heq as [Hneq|Hindex].
  - apply Qeq_bool_iff in Hsame. congruence.
  - apply Nat.ltb_ge in Hindex. exact Hindex.
Qed.

(** C4 (as amended). The lexical branch matches the query as a literal
    substring of the chunk text, with the case of the letters as given.
    For a row limit that is not negative it does not fail, and it answers
    with the results made from the first [limit] chunks of a ranking of
    exactly the chunks whose text contains the query (by descending score,
    then ascending chunk index), leaving out the chunks with a blank text
    or an empty id; so it answers with the empty list when no chunk text
    contains the query.  The score of a chunk is 0.8 when its lower-cased
    text contains the lower-cased query and 0.3, which is less, otherwise;
    where lower-casing keeps a literal match, as it does code unit by code
    unit, every result has the score 0.8. *)
Theorem performTextSearch_literal_match lower store q given :
  let rowLimit := orZ match given with
                      | Some options => textLimit options
                      | None => None
                      end (orZ (limit q) 10) in
  (0 <= rowLimit)%Z ->
  exists ranked results,
    performTextSearchWith store lower q given = Resolved results
    /\ results
       = map (textResult lower (query q))
           (filter (fun chunk => presentable chunk = true)
                   (take (Z.to_nat rowLimit) ranked))
    /\ ranked ≡ₚ matchingChunks store (query q)
    /\ StronglySorted (RankedBefore lower (query q)) ranked
    /\ Forall (fun r => contains (content r) (query q) = true) results
    /\ (Forall (fun chunk => contains (c_text chunk) (query q) = false)
          (chunkRows store) -> results = [])
    /\ (weakScore < exactScore)%Q
    /\ ((forall text,
           contains text (query q) = true ->
           contains (lower text) (lower (query q)) = true) ->
        Forall (fun r => score r = JsNum (Finite exactScore)) results).
Proof.
  intros rowLimit Hlimit.
  set (ranked := sortWith (chunkAfter lower (query q))
                   (matchingChunks store (query q))).
  set (kept := filter (fun chunk => presentable chunk = true)
                 (take (Z.to_nat rowLimit) ranked)).
  assert (Hperm : ranked ≡ₚ matchingChunks store (query q))
    by apply sortWith_perm.
  assert (Hmatch : forall chunk, chunk ∈ kept ->
            contains (c_text chunk) (query q) = true).
  { intros chunk Hchunk. unfold kept in Hchunk.
    apply list_elem_of_filter in Hchunk as [_ Hchunk].
    apply elem_of_take in Hchunk as (i & Hchunk & _).
    apply list_elem_of_lookup_2 in Hchunk. rewrite Hperm in Hchunk.
    unfold matchingChunks in Hchunk.
    now apply list_elem_of_filter in Hchunk as [? _]. }
  assert (Hrun : performTextSearchWith store lower q given
                 = Resolved (map (textResult lower (query q)) kept)).
  { unfold performTextSearchWith, limitRows. fold rowLimit.
    destruct (Z.ltb_spec rowLimit 0); [lia|].
    rewrite textRowsWith_rows, sortWith_map. fold (chunkAfter lower (query q)).
    fold ranked. rewrite <- fmap_take.
    rewrite (filter_map_rows (rowOf lower (query q))
               (fun row => truthy (rowContent row)
                           && (0 <? length (trim (rowContent row)))
                           && truthy (rowSource row))).
    cbn [rowOf rowContent rowSource]. fold kept. f_equal.
    rewrite <- list_fmap_compose. fold presentable.
    change (filter (fun x => presentable x = true)
              (take (Z.to_nat rowLimit) ranked)) with kept.
    apply list_fmap_ext. intros i chunk Hchunk.
    apply list_elem_of_lookup_2 in Hchunk. unfold kept in Hchunk.
    apply list_elem_of_filter in Hchunk as [Hok _].
    unfold presentable in Hok. apply andb_true_iff in Hok as [_ Hid].
    unfold compose, fromText, rowOf, textResult, orUnknown.
    cbn [rowContent rowSource rowScore]. now rewrite Hid. }
  exists ranked, (map (textResult lower (query q)) kept).
  split; [exact Hrun|]. split; [reflexivity|]. split; [exact Hperm|].
  split.
  { apply sortWith_sorted.
    - apply RankedBefore_trans.
    - apply chunkAfter_before.
    - apply not_chunkAfter_before. }
  split.
  { apply Forall_forall. intros r Hr.
    apply list_elem_of_fmap in Hr as (chunk & -> & Hchunk).
    cbn [textResult content]. now apply Hmatch. }
  split.
  { intros Hnone. unfold kept, ranked.
    rewrite (matchingChunks_none _ _ Hnone). unfold sortWith. cbn [foldl].
    now rewrite take_nil. }
  split; [reflexivity|].
  intros Hkeeps. apply Forall_forall. intros r Hr.
  apply list_elem_of_fmap in Hr as (chunk & -> & Hchunk).
  cbn [textResult score]. unfold caseScore.
  now rewrite (Hkeeps _ (Hmatch chunk Hchunk)).
Qed.

Lemma performTextSearch_literal_match_witness :
  exists results,
    performTextSearch twoChunkStore exactQuery None = Resolved results
    /\ map content results = [js "Emission factors for lignite"]
    /\ Forall (fun r => score r = JsNum (Finite exactScore)) results.
Proof.
  assert (Hlimit : (0 <= orZ None (orZ (limit exactQuery) 10))%Z)
    by (vm_compute; discriminate).
  destruct (performTextSearch_literal_match toLower twoChunkStore exactQuery
              None Hlimit)
    as (ranked & results & Hrun & _ & _ & _ & _ & _ & _ & Hscores).
  exists results. split; [exact Hrun|].
  split; [|apply Hscores; intros text; apply toLower_keeps_match].
  assert (Hone : performTextSearchWith twoChunkStore toLower exactQuery None
                 = Resolved [textResult toLower (query exactQuery)
                               {| c_id := js "c1";
                                  c_text := js "Emission factors for lignite";
                                  c_chunk_index := 1;
                                  c_fileName := Some (js "factors.md");
                                  c_document_id := None;
                                  c_embedding := Some [3 # 5; 4 # 5] |}])
    by (vm_compute; reflexivity).
  rewrite Hone in Hrun. injection Hrun as <-. reflexivity.
Defined.

End TextSearchFacts.

(** ** The graph service: nodes, repeated runs and batches *)

Module GraphContentsFacts.
Import Js GraphWriter GraphSpec GraphFacts GraphService GraphContents.

Lemma Graph_eq g g' :
  documentNodes g = documentNodes g' -> chunkNodes g = chunkNodes g' ->
  partOf g = partOf g' -> firstChunk g = firstChunk g' ->
  nextChunk g = nextChunk g' -> g = g'.
Proof. destruct g, g'. cbn. intros; subst. reflexivity. Qed.

(** *** Writes of one batch *)

Lemma mergeChunks_written batch : forall g,
  chunkNodes (foldl mergeChunk g batch) = writeRows batch (chunkNodes g).
Proof.
  unfold writeRows.
  induction batch as [|data rest IH]; intros g; [reflexivity|].
  cbn [foldl]. rewrite IH. reflexivity.
Qed.

Lemma mergeChunks_partOf fileName batch : forall g,
  is_Some (documentNodes g !! fileName) ->
  Forall (fun data => f_name data = fileName) batch ->
  partOf (foldl mergeChunk g batch)
  = partOf g ∪ list_to_set (map (fun data => (id data, fileName)) batch).
Proof.
  induction batch as [|data rest IH]; intros g Hdoc Hall; cbn [foldl map].
  - cbn. set_solver.
  - inversion Hall as [|? ? Hname Hrest]; subst.
    rewrite IH; [|exact Hdoc|exact Hrest].
    cbn [mergeChunk partOf]. rewrite decide_True by exact Hdoc.
    cbn [list_to_set]. set_solver.
Qed.

Lemma mergeFirstChunks_frame fileName rels : forall g,
  documentNodes (foldl (mergeFirstChunk fileName) g rels) = documentNodes g
  /\ chunkNodes (foldl (mergeFirstChunk fileName) g rels) = chunkNodes g
  /\ partOf (foldl (mergeFirstChunk fileName) g rels) = partOf g.
Proof.
  induction rels as [|r rest IH]; intros g; cbn [foldl]; [auto|].
  destruct (IH (mergeFirstChunk fileName g r)) as (-> & -> & ->).
  unfold mergeFirstChunk. destruct (decide _); auto.
Qed.

Lemma mergeNextChunks_frame rels : forall g,
  documentNodes (foldl mergeNextChunk g rels) = documentNodes g
  /\ chunkNodes (foldl mergeNextChunk g rels) = chunkNodes g
  /\ partOf (foldl mergeNextChunk g rels) = partOf g.
Proof.
  induction rels as [|r rest IH]; intros g; cbn [foldl]; [auto|].
  destruct (IH (mergeNextChunk g r)) as (-> & -> & ->).
  unfold mergeNextChunk. destruct (decide _); auto.
Qed.

Lemma createChunksAndRelationshipsOptimized_nodes fileName batch firsts nexts g :
  is_Some (documentNodes g !! fileName) ->
  Forall (fun data => f_name data = fileName) batch ->
  let g' := createChunksAndRelationshipsOptimized fileName batch firsts nexts g in
  documentNodes g' = documentNodes g
  /\ chunkNodes g' = writeRows batch (chunkNodes g)
  /\ partOf g'
     = partOf g ∪ list_to_set (map (fun data => (id data, fileName)) batch).
Proof.
  intros Hdoc Hall g'. subst g'. unfold createChunksAndRelationshipsOptimized.
  destruct batch as [|data batch']; [cbn; split; [|split]; set_solver|].
  set (batch := data :: batch') in *.
  set (g1 := foldl mergeChunk g batch).
  set (g2 := match firsts with
             | [] => g1
             | _ => foldl (mergeFirstChunk fileName) g1 firsts
             end).
  assert (Hg2 : g2 = foldl (mergeFirstChunk fileName) g1 firsts)
    by (unfold g2; now destruct firsts).
  assert (Hg3 : match nexts with
                | [] => g2
                | _ => foldl mergeNextChunk g2 nexts
                end = foldl mergeNextChunk g2 nexts) by now destruct nexts.
  rewrite Hg3.
  destruct (mergeNextChunks_frame nexts g2) as (-> & -> & ->).
  rewrite Hg2.
  destruct (mergeFirstChunks_frame fileName firsts g1) as (-> & -> & ->).
  unfold g1.
  destruct (mergeChunks_other batch g) as (-> & _ & _).
  rewrite mergeChunks_written, (mergeChunks_partOf fileName) by assumption.
  auto.
Qed.

(** *** The loop of [createRelationBetweenChunks] *)

Lemma offsetOf_S allChunks i chunk :
  allChunks !! i = Some chunk ->
  offsetOf allChunks (S i) = offsetOf allChunks i + length (text chunk).
Proof.
  intros Hi. unfold offsetOf. rewrite (take_S_r _ _ _ Hi).
  rewrite sum_list_with_app. cbn. lia.
Qed.

Lemma idsOf_S generateHash allChunks i chunk :
  allChunks !! i = Some chunk ->
  idsOf generateHash (take (S i) allChunks)
  = idsOf generateHash (take i allChunks) ++ [generateHash (text chunk)].
Proof.
  intros Hi. unfold idsOf. now rewrite (take_S_r _ _ _ Hi), map_app.
Qed.

Lemma idsOf_last generateHash allChunks i previous :
  allChunks !! i = Some previous ->
  last (idsOf generateHash (take (S i) allChunks))
  = Some (generateHash (text previous)).
Proof. intros Hi. rewrite (idsOf_S _ _ _ _ Hi). apply last_snoc. Qed.

Lemma mergedNodes_snoc generateHash fileName allChunks rest :
  forall i chunk nodes,
    mergedNodes generateHash fileName allChunks i (rest ++ [chunk]) nodes
    = <[generateHash (text chunk) :=
          nodeOf fileName allChunks (i + length rest) chunk]>
        (mergedNodes generateHash fileName allChunks i rest nodes).
Proof.
  induction rest as [|x rest IH]; intros i chunk nodes; cbn [mergedNodes app length].
  - now rewrite Nat.add_0_r.
  - rewrite IH. do 2 f_equal. lia.
Qed.

Section WithService.
Variable generateHash : JsString -> JsString.
Variable batchSize : nat.
Variable fileName : JsString.
Variable allChunks : list ChunkNode.
Variable g0 : Graph.
Hypothesis document_exists : is_Some (documentNodes g0 !! fileName).

Local Abbreviation EdgesInv n :=
  (BuilderInvariant fileName g0 (idsOf generateHash (take n allChunks))).
Local Abbreviation NodesInv :=
  (NodesInvariant generateHash fileName allChunks g0).

(** The relationships: the id of the previous chunk is the last of the ids
    processed so far. *)
Lemma pushRows_edges n chunk st :
  allChunks !! n = Some chunk ->
  EdgesInv n st ->
  EdgesInv (S n) (pushRows generateHash fileName allChunks n chunk st).
Proof.
  intros Hchunk [Hlst Hnext Hfirst Hdoc Hnodes Hfrows Hnrows Hpending].
  rewrite (idsOf_S _ _ _ _ Hchunk).
  set (done := idsOf generateHash (take n allChunks)) in *.
  assert (Hprevious : forall m, n = S m ->
            match allChunks !! (n - 1) with
            | Some previous => generateHash (text previous)
            | None => []
            end = match last done with Some a => a | None => [] end).
  { intros m ->. replace (S m - 1) with m by lia.
    destruct (allChunks !! m) as [previous|] eqn:Hm.
    - unfold done. now rewrite (idsOf_last _ _ _ _ Hm).
    - apply lookup_ge_None in Hm. apply lookup_lt_Some in Hchunk. lia. }
  assert (Hempty : n = 0 -> done = []).
  { intros ->. reflexivity. }
  assert (Hfull : forall m, n = S m -> exists b, last done = Some b).
  { intros m ->. apply lookup_lt_Some in Hchunk.
    destruct (allChunks !! m) as [previous|] eqn:Hm.
    - unfold done. rewrite (idsOf_last _ _ _ _ Hm). eauto.
    - apply lookup_ge_None in Hm. lia. }
  split; cbn [pushRows lstChunksIncludingHash batchData firstRelationships
              nextRelationships graph].
  - now rewrite fmap_app, Hlst.
  - rewrite consecutive_snoc. destruct n as [|m]; cbn [Nat.eqb].
    + rewrite (Hempty eq_refl) in *. cbn in *. set_solver.
    + rewrite (Hprevious m eq_refl). destruct (Hfull m eq_refl) as [b Hb].
      rewrite Hb. unfold nextEdges in *. rewrite map_app, list_to_set_app_L.
      cbn [map list_to_set previous_chunk_id current_chunk_id]. set_solver.
  - destruct n as [|m]; cbn [Nat.eqb].
    + rewrite (Hempty eq_refl) in *. cbn [app firstEdgeOf] in *.
      unfold firstEdges in *. rewrite map_app, list_to_set_app_L.
      cbn [map list_to_set chunk_id]. set_solver.
    + destruct (Hfull m eq_refl) as [b Hb].
      destruct done as [|a done']; [discriminate|].
      cbn [app firstEdgeOf] in *. exact Hfirst.
  - exact Hdoc.
  - intros x Hx. apply elem_of_app in Hx as [Hx|Hx].
    + destruct (Hnodes x Hx); [now left|right]. rewrite map_app. set_solver.
    + right. rewrite map_app. cbn [map id]. set_solver.
  - intros r Hr. destruct n as [|m]; cbn [Nat.eqb] in Hr.
    + apply elem_of_app in Hr as [Hr|Hr]; [specialize (Hfrows r Hr); set_solver|].
      apply list_elem_of_singleton in Hr. subst r. cbn. set_solver.
    + specialize (Hfrows r Hr). set_solver.
  - intros r Hr. destruct n as [|m]; cbn [Nat.eqb] in Hr.
    + destruct (Hnrows r Hr). set_solver.
    + apply elem_of_app in Hr as [Hr|Hr]; [destruct (Hnrows r Hr); set_solver|].
      apply list_elem_of_singleton in Hr. subst r.
      cbn [previous_chunk_id current_chunk_id]. rewrite (Hprevious m eq_refl).
      destruct (Hfull m eq_refl) as [b Hb]. rewrite Hb.
      apply last_Some_elem_of in Hb. set_solver.
  - intros Hnil. now apply app_nil in Hnil as [_ ?].
Qed.

Lemma pushRows_nodes n chunk st :
  allChunks !! n = Some chunk ->
  NodesInv n st ->
  NodesInv (S n) (pushRows generateHash fileName allChunks n chunk st).
Proof.
  intros Hchunk [Hdoc Hnodes Hpart Hoffset Hrows].
  assert (Hnew : (if 0 <? n
                  then offset st + match allChunks !! (n - 1) with
                                   | Some lastChunk => length (text lastChunk)
                                   | None => 0
                                   end
                  else offset st) = offsetOf allChunks n).
  { rewrite Hoffset. destruct n as [|m]; [reflexivity|].
    cbn [Nat.ltb Nat.leb]. replace (S m - 1) with m by lia.
    destruct (allChunks !! m) as [lastChunk|] eqn:Hm.
    - now rewrite (offsetOf_S _ _ _ Hm).
    - apply lookup_ge_None in Hm. apply lookup_lt_Some in Hchunk. lia. }
  split; cbn [pushRows batchData graph offset].
  - exact Hdoc.
  - unfold writeRows in *. rewrite foldl_snoc, Hnodes.
    rewrite (take_S_r _ _ _ Hchunk), mergedNodes_snoc.
    cbn [id nodeOfRow pg_content position data_length f_name content_offset
         data_tokens data_embedding].
    rewrite Hnew. unfold nodeOf. rewrite length_take_le, Nat.add_0_l;
      [reflexivity|]. apply lookup_lt_Some in Hchunk. lia.
  - rewrite map_app, list_to_set_app_L. cbn [map id].
    rewrite (idsOf_S _ _ _ _ Hchunk), map_app, list_to_set_app_L. cbn [map].
    rewrite (assoc_L (∪)), Hpart. set_solver.
  - rewrite Hnew. f_equal. lia.
  - apply Forall_app. split; [exact Hrows|]. constructor; [reflexivity|constructor].
Qed.

Lemma flushBatch_nodes n st :
  NodesInv n st -> NodesInv n (flushBatch fileName st).
Proof.
  intros [Hdoc Hnodes Hpart Hoffset Hrows].
  destruct (createChunksAndRelationshipsOptimized_nodes fileName (batchData st)
              (firstRelationships st) (nextRelationships st) (graph st))
    as (Hd & Hc & Hp); [now rewrite Hdoc | exact Hrows |].
  split; cbn [flushBatch batchData graph offset].
  - now rewrite Hd.
  - rewrite Hc. exact Hnodes.
  - rewrite Hp. cbn [map list_to_set]. rewrite <- Hpart. set_solver.
  - exact Hoffset.
  - constructor.
Qed.

Lemma processChunk_both n chunk st :
  allChunks !! n = Some chunk ->
  EdgesInv n st /\ NodesInv n st ->
  EdgesInv (S n)
    (processChunk generateHash batchSize fileName allChunks n chunk st)
  /\ NodesInv (S n)
       (processChunk generateHash batchSize fileName allChunks n chunk st).
Proof.
  intros Hchunk [Hedges Hnodes]. unfold processChunk.
  pose proof (pushRows_edges n chunk st Hchunk Hedges) as Hpush.
  pose proof (pushRows_nodes n chunk st Hchunk Hnodes) as Hpush'.
  destruct (_ <=? _); [|now split].
  split; [|now apply flushBatch_nodes].
  apply (flushBatch_invariant generateHash); [exact Hpush|].
  cbn [pushRows batchData]. now destruct (batchData st).
Qed.

Lemma processChunks_both rest : forall n st,
  drop n allChunks = rest ->
  EdgesInv n st /\ NodesInv n st ->
  EdgesInv (n + length rest)
    (processChunks generateHash batchSize fileName allChunks n rest st)
  /\ NodesInv (n + length rest)
       (processChunks generateHash batchSize fileName allChunks n rest st).
Proof.
  induction rest as [|chunk rest IH]; intros n st Hdrop Hinv;
    cbn [processChunks length].
  - now rewrite Nat.add_0_r.
  - assert (Hchunk : allChunks !! n = Some chunk).
    { rewrite <- (Nat.add_0_r n), <- lookup_drop, Hdrop. reflexivity. }
    replace (n + S (length rest)) with (S n + length rest) by lia.
    apply IH; [|now apply processChunk_both].
    apply (f_equal (drop 1)) in Hdrop. rewrite drop_drop in Hdrop.
    rewrite <- Nat.add_1_r. exact Hdrop.
Qed.

(** The graph after the loop and the last batch. *)
Lemma createRelationBetweenChunks_writes :
  let ids := idsOf generateHash allChunks in
  let g := (createRelationBetweenChunks generateHash batchSize fileName
              allChunks g0).2 in
  documentNodes g = documentNodes g0
  /\ chunkNodes g
     = mergedNodes generateHash fileName allChunks 0 allChunks (chunkNodes g0)
  /\ partOf g = partOf g0 ∪ list_to_set (map (fun x => (x, fileName)) ids)
  /\ firstChunk g = firstChunk g0 ∪ firstEdgeOf fileName ids
  /\ nextChunk g = nextChunk g0 ∪ consecutive ids.
Proof.
  intros ids g.
  set (st0 := {| lstChunksIncludingHash := []; batchData := [];
                 firstRelationships := []; nextRelationships := [];
                 offset := 0; graph := g0 |}).
  assert (Hinit : EdgesInv 0 st0 /\ NodesInv 0 st0).
  { change (idsOf generateHash (take 0 allChunks)) with (@nil JsString).
    split; [split; cbn; try set_solver
           |split; cbn; first [reflexivity | constructor | set_solver]]. }
  pose proof (processChunks_both allChunks 0 st0 eq_refl Hinit) as Hloop.
  cbn [Nat.add] in Hloop. rewrite firstn_all in Hloop. fold ids in Hloop.
  set (st := processChunks generateHash batchSize fileName allChunks 0
               allChunks st0) in *.
  assert (Hend : exists st',
            (BuilderInvariant fileName g0 ids st'
             /\ NodesInv (length allChunks) st')
            /\ batchData st' = [] /\ graph st' = g).
  { subst g. unfold createRelationBetweenChunks. fold st0. fold st. cbn [snd].
    destruct (batchData st) as [|data rest] eqn:Hbatch.
    - exists st. auto.
    - exists (flushBatch fileName st). split; [|split].
      + destruct Hloop as [Hedges Hnodes]. split.
        * apply (flushBatch_invariant generateHash); [exact Hedges | congruence].
        * now apply flushBatch_nodes.
      + reflexivity.
      + cbn [flushBatch graph]. now rewrite Hbatch. }
  destruct Hend as (st' & ([_ Hnext Hfirst _ _ _ _ Hpending]
                           & [Hdoc Hnodes Hpart _ _]) & Hbatch & Hg).
  destruct (Hpending Hbatch) as [Hf Hn].
  rewrite Hf, Hn, Hbatch, Hg, firstn_all in *. fold ids in Hpart.
  unfold nextEdges, firstEdges in *. cbn in Hnodes, Hpart, Hnext, Hfirst.
  split; [exact Hdoc|]. split; [exact Hnodes|].
  split; [rewrite <- Hpart; set_solver|]. split; set_solver.
Qed.

End WithService.

(** The graph after a document has been processed. *)
Lemma processDocument_withDocument generateHash batchSize document g :
  processDocument generateHash batchSize document g
  = withDocument generateHash document g.
Proof.
  unfold processDocument.
  set (g1 := createDocument _ _ _ _ g).
  assert (Hdoc : is_Some (documentNodes g1 !! filename document)).
  { unfold g1. cbn [createDocument documentNodes]. rewrite lookup_insert_eq. eauto. }
  destruct (createRelationBetweenChunks_writes generateHash batchSize
              (filename document) (chunks document) g1 Hdoc)
    as (Hd & Hc & Hp & Hf & Hn).
  apply Graph_eq; cbn [withDocument documentNodes chunkNodes partOf firstChunk
                       nextChunk].
  - rewrite Hd. reflexivity.
  - rewrite Hc. reflexivity.
  - rewrite Hp. reflexivity.
  - rewrite Hf. reflexivity.
  - rewrite Hn. reflexivity.
Qed.

(** *** Nodes by id *)

Lemma mergedNodes_lookup generateHash fileName allChunks rest :
  forall i nodes j chunk,
    rest !! j = Some chunk ->
    (forall k later, j < k -> rest !! k = Some later ->
       generateHash (text later) <> generateHash (text chunk)) ->
    mergedNodes generateHash fileName allChunks i rest nodes
      !! generateHash (text chunk)
    = Some (nodeOf fileName allChunks (i + j) chunk).
Proof.
  induction rest as [|x rest IH] using rev_ind;
    intros i nodes j chunk Hj Hlast; [discriminate|].
  rewrite mergedNodes_snoc.
  destruct (decide (j = length rest)) as [->|Hne].
  - rewrite list_lookup_middle in Hj by reflexivity. inversion Hj; subst.
    apply lookup_insert_eq.
  - assert (Hj' : rest !! j = Some chunk).
    { apply lookup_lt_Some in Hj as Hlt. rewrite length_app in Hlt. cbn in Hlt.
      rewrite lookup_app_l in Hj by lia. exact Hj. }
    rewrite lookup_insert_ne.
    + apply IH; [exact Hj'|]. intros k later Hk Hlater.
      apply (Hlast k); [exact Hk|].
      rewrite lookup_app_l; [exact Hlater|]. now apply lookup_lt_Some in Hlater.
    + apply lookup_lt_Some in Hj'. apply (Hlast (length rest)); [lia|].
      now rewrite list_lookup_middle.
Qed.

(** *** Merging twice *)

Lemma mergedNodes_union generateHash fileName allChunks rest :
  forall i nodes,
    mergedNodes generateHash fileName allChunks i rest nodes
    = mergedNodes generateHash fileName allChunks i rest ∅ ∪ nodes.
Proof.
  induction rest as [|x rest IH] using rev_ind; intros i nodes.
  - cbn. now rewrite (left_id_L ∅ (∪)).
  - rewrite !mergedNodes_snoc, IH.
    rewrite !insert_union_singleton_l. now rewrite (assoc_L (∪)).
Qed.

Lemma mergedNodes_twice generateHash fileName allChunks rest i nodes :
  mergedNodes generateHash fileName allChunks i rest
    (mergedNodes generateHash fileName allChunks i rest nodes)
  = mergedNodes generateHash fileName allChunks i rest nodes.
Proof.
  rewrite (mergedNodes_union _ _ _ _ _
             (mergedNodes generateHash fileName allChunks i rest nodes)).
  rewrite (mergedNodes_union _ _ _ _ _ nodes).
  now rewrite (assoc_L (∪)), (idemp_L (∪)).
Qed.

(** X19. After the graph service has processed a document, the node of a
    chunk whose content hash is not that of a later chunk of the document
    holds the text, length, tokens and embedding of the chunk, the file
    name, its position counted from 1 (also as [chunk_index]), and as
    [content_offset] the sum of the lengths of the texts before it; the
    chunk is PART_OF the document, whose node holds the type, the path and
    the domain. *)
Theorem processDocument_writes_chunk_nodes
    generateHash batchSize document g i chunk :
  chunks document !! i = Some chunk ->
  (forall k later, i < k -> chunks document !! k = Some later ->
     generateHash (text later) <> generateHash (text chunk)) ->
  let g' := processDocument generateHash batchSize document g in
  chunkNodes g' !! generateHash (text chunk)
    = Some {| c_text := text chunk; c_position := i + 1;
              c_length := chunk_length chunk;
              c_fileName := filename document;
              c_content_offset := offsetOf (chunks document) i;
              c_tokens := tokens chunk; c_chunk_index := i + 1;
              c_embedding := embedding chunk |}
  /\ (generateHash (text chunk), filename document) ∈ partOf g'
  /\ documentNodes g' !! filename document
     = Some {| d_type := js "document"; d_uri := filePath document;
               d_domain := js "general" |}.
Proof.
  intros Hchunk Hlast g'. subst g'. rewrite processDocument_withDocument.
  cbn [withDocument chunkNodes partOf documentNodes].
  split; [|split].
  - now rewrite (mergedNodes_lookup _ _ _ _ 0 _ i chunk Hchunk Hlast).
  - apply elem_of_union. right. apply elem_of_list_to_set.
    apply list_elem_of_fmap. exists (generateHash (text chunk)).
    split; [reflexivity|]. apply list_elem_of_fmap. exists chunk.
    split; [reflexivity|]. eapply list_elem_of_lookup_2. exact Hchunk.
  - apply lookup_insert_eq.
Qed.

Lemma processDocument_writes_chunk_nodes_witness :
  chunkNodes (processDocument (fun content => content) 2 embeddedDocument
                emptyGraph) !! js "Scope 3"
  = Some {| c_text := js "Scope 3"; c_position := 3; c_length := 7;
            c_fileName := js "report.md"; c_content_offset := 14;
            c_tokens := 2; c_chunk_index := 3;
            c_embedding := Some [1 # 3; 2 # 3] |}.
Proof.
  destruct (processDocument_writes_chunk_nodes (fun content => content) 2
              embeddedDocument emptyGraph 2
              {| text := js "Scope 3"; chunk_length := 7; tokens := 2;
                 embedding := Some [1 # 3; 2 # 3] |})
    as (Hnode & _).
  - reflexivity.
  - intros k later Hk Hlater. destruct k as [|[|[|k]]]; try lia; discriminate.
  - cbn [text] in Hnode. rewrite Hnode. reflexivity.
Defined.

(** X20. Processing a document again, with whatever batch size, leaves the
    graph as it was after the first time: no node or relationship is
    added or changed. *)
Theorem processDocument_is_idempotent
    generateHash batchSize batchSize' document g :
  processDocument generateHash batchSize' document
    (processDocument generateHash batchSize document g)
  = processDocument generateHash batchSize document g.
Proof.
  rewrite !processDocument_withDocument.
  apply Graph_eq; cbn [withDocument documentNodes chunkNodes partOf firstChunk
                       nextChunk].
  - apply insert_insert_eq.
  - apply mergedNodes_twice.
  - set_solver.
  - set_solver.
  - set_solver.
Qed.

(** X21. The graph written for a document does not depend on the batch
    size, a batch size of 0 (every chunk is its own batch) included. *)
Theorem processDocument_ignores_batch_size
    generateHash batchSize batchSize' document g :
  processDocument generateHash batchSize document g
  = processDocument generateHash batchSize' document g.
Proof.
  rewrite (processDocument_withDocument generateHash batchSize).
  rewrite (processDocument_withDocument generateHash batchSize').
  reflexivity.
Qed.

(** X29. The graph service links the chunks of a document in their order
    and adds no other relationship between them: after processing, the
    NEXT_CHUNK relationships are those of before and one from the id of each
    chunk to the id of the chunk that follows it, and the FIRST_CHUNK
    relationships are those of before and one from the document to the id
    of its first chunk (none for a document without chunks). *)
Theorem processDocument_links_chunks_in_order
    generateHash batchSize document g :
  let ids := idsOf generateHash (chunks document) in
  let g' := processDocument generateHash batchSize document g in
  (forall a b,
     (a, b) ∈ nextChunk g'
     <-> (a, b) ∈ nextChunk g
         \/ exists k, ids !! k = Some a /\ ids !! S k = Some b)
  /\ (forall d c,
        (d, c) ∈ firstChunk g'
        <-> (d, c) ∈ firstChunk g
            \/ (d = filename document /\ head ids = Some c)).
Proof.
  intros ids g'. subst g'. rewrite processDocument_withDocument.
  cbn [withDocument nextChunk firstChunk]. fold ids. split.
  - intros a b. rewrite elem_of_union, consecutive_elem. reflexivity.
  - intros d c. rewrite elem_of_union.
    destruct ids as [|firstId rest]; cbn [firstEdgeOf head].
    + rewrite elem_of_empty. split; [intros [?|[]]; auto|].
      intros [?|[_ ?]]; [auto|discriminate].
    + rewrite elem_of_singleton. split.
      * intros [?|Heq]; [auto|]. inversion Heq; subst. auto.
      * intros [?|[-> Heq]]; [auto|]. inversion Heq; subst. auto.
Qed.

End GraphContentsFacts.

(** ** The document processor: chunks of words *)

Module DocumentFacts.
Import Js JsFacts ChunkerViews TrimFacts DocumentProcessor DocumentSpec.

(** *** Words *)

Lemma splitWhiteSpace_words s : forall cur inRun,
  Forall (fun c => isWhiteSpace c = false) cur ->
  Forall (Forall (fun c => isWhiteSpace c = false))
         (splitWhiteSpace s cur inRun).
Proof.
  induction s as [|c r IH]; intros cur inRun Hcur; cbn [splitWhiteSpace].
  - constructor; [assumption|constructor].
  - destruct (isWhiteSpace c) eqn:Hc.
    + destruct inRun; [now apply IH|].
      constructor; [assumption|]. apply IH. constructor.
    + apply IH. apply Forall_app. split; [assumption|].
      constructor; [assumption|constructor].
Qed.

Lemma splitWhiteSpace_nonempty s cur inRun :
  0 < length (splitWhiteSpace s cur inRun).
Proof.
  revert cur inRun. induction s as [|c r IH]; intros cur inRun;
    cbn [splitWhiteSpace]; [cbn; lia|].
  destruct (isWhiteSpace c); [destruct inRun|]; cbn [length]; auto; lia.
Qed.

Lemma joinWords_elem word words c :
  word ∈ words -> c ∈ word -> c ∈ joinWords words.
Proof.
  induction words as [|w rest IH]; intros Hword Hc; [inversion Hword|].
  apply elem_of_cons in Hword as [->|Hword].
  - destruct rest; cbn [joinWords]; [assumption|]. set_solver.
  - destruct rest as [|w' rest']; [inversion Hword|].
    change (joinWords (w :: w' :: rest'))
      with (w ++ 32%N :: joinWords (w' :: rest')).
    specialize (IH Hword Hc). set_solver.
Qed.

Lemma sliceWords_length words b e :
  e <= length words -> length (sliceWords words b e) = e - b.
Proof.
  intros He. unfold sliceWords. rewrite length_take, length_drop. lia.
Qed.

Lemma sliceWords_lookup words b e k word :
  b <= k < e -> words !! k = Some word -> word ∈ sliceWords words b e.
Proof.
  intros Hk Hword. unfold sliceWords.
  apply (list_elem_of_lookup_2 _ (k - b)).
  rewrite lookup_take_lt by lia. rewrite lookup_drop.
  rewrite <- Hword. f_equal. lia.
Qed.

(** A window with a word that is not empty gives a chunk. *)
Lemma window_not_blank words b e k word :
  Forall (Forall (fun c => isWhiteSpace c = false)) words ->
  b <= k < e -> words !! k = Some word -> word <> [] ->
  truthy (trim (joinWords (sliceWords words b e))) = true.
Proof.
  intros Hwords Hk Hword Hne.
  destruct word as [|c rest] eqn:Hshape; [congruence|]. rewrite <- Hshape in *.
  assert (Hc : c ∈ word) by (rewrite Hshape; set_solver).
  assert (Hclean : isWhiteSpace c = false).
  { rewrite Forall_forall in Hwords.
    specialize (Hwords word (list_elem_of_lookup_2 _ _ _ Hword)).
    rewrite Forall_forall in Hwords. now apply Hwords. }
  pose proof (joinWords_elem word (sliceWords words b e) c
                (sliceWords_lookup words b e k word Hk Hword) Hc) as Hin.
  apply list_elem_of_lookup in Hin as [p Hp].
  destruct (trim_slice (joinWords (sliceWords words b e))) as (_ & _ & Hcover).
  specialize (Hcover p c Hp Hclean).
  destruct (trim (joinWords (sliceWords words b e))); [cbn in Hcover; lia|].
  reflexivity.
Qed.

Section WithConfig.
Variable generateHash : JsString -> JsString.
Variable chunkSize : nat.
Variable overlap : nat.

Lemma chunkWords_step fuel filename words limit startIndex chunkIndex
    contentOffset iterationCount chunks :
  chunkWords generateHash chunkSize overlap (S fuel) filename words limit
    startIndex chunkIndex contentOffset iterationCount chunks
  = if (startIndex <? length words) && belowLimit iterationCount limit then
      let endIndex := Nat.min (startIndex + chunkSize) (length words) in
      if endIndex <=? startIndex then Some chunks
      else
        let window := sliceWords words startIndex endIndex in
        let chunkText := joinWords window in
        let nextStartIndex :=
          if endIndex <=? startIndex + overlap then endIndex
          else endIndex - overlap in
        if truthy (trim chunkText) then
          chunkWords generateHash chunkSize overlap fuel filename words limit
            nextStartIndex (chunkIndex + 1) (contentOffset + length chunkText)
            (iterationCount + 1)
            (chunks ++ [makeChunk generateHash filename chunkText
                          (length window) chunkIndex contentOffset])
        else
          chunkWords generateHash chunkSize overlap fuel filename words limit
            nextStartIndex chunkIndex contentOffset (iterationCount + 1) chunks
    else Some chunks.
Proof. reflexivity. Qed.

(** *** The loop ends *)

Lemma chunkWords_returns filename words limit fuel :
  forall startIndex chunkIndex contentOffset iterationCount chunks,
    length words - startIndex < fuel ->
    is_Some (chunkWords generateHash chunkSize overlap fuel filename words
               limit startIndex chunkIndex contentOffset iterationCount chunks).
Proof.
  induction fuel as [|fuel IH];
    intros startIndex chunkIndex contentOffset iterationCount chunks Hfuel;
    [lia|].
  rewrite chunkWords_step.
  destruct (Nat.ltb_spec startIndex (length words)); cbn [andb]; [|eauto].
  destruct (belowLimit iterationCount limit); [|eauto].
  cbv zeta.
  destruct (Nat.leb_spec (Nat.min (startIndex + chunkSize) (length words))
              startIndex); [eauto|].
  destruct (Nat.leb_spec (Nat.min (startIndex + chunkSize) (length words))
              (startIndex + overlap));
    destruct (truthy _); apply IH; lia.
Qed.

(** *** Numbering *)

Lemma lengthBefore_snoc chunks chunk i :
  i <= length chunks ->
  lengthBefore (chunks ++ [chunk]) i = lengthBefore chunks i.
Proof. intros Hi. unfold lengthBefore. now rewrite take_app_le. Qed.

Lemma lengthBefore_all chunks chunk :
  lengthBefore (chunks ++ [chunk]) (S (length chunks))
  = lengthBefore chunks (length chunks) + length (p_text chunk).
Proof.
  unfold lengthBefore. rewrite firstn_all.
  rewrite take_app_ge by lia.
  replace (S (length chunks) - length chunks) with 1 by lia.
  rewrite sum_list_with_app. cbn. lia.
Qed.

Lemma Numbered_push filename words chunks chunkIndex contentOffset s e :
  s < e -> e <= Nat.min (s + chunkSize) (length words) ->
  trim (joinWords (sliceWords words s e)) <> [] ->
  Numbered generateHash filename chunkSize chunks chunkIndex contentOffset ->
  Numbered generateHash filename chunkSize
    (chunks ++ [makeChunk generateHash filename
                  (joinWords (sliceWords words s e))
                  (length (sliceWords words s e)) chunkIndex contentOffset])
    (chunkIndex + 1)
    (contentOffset + length (joinWords (sliceWords words s e))).
Proof.
  intros Hse He Htext (Hindex & Hoffset & Hall).
  split; [rewrite length_app; cbn; lia|]. split.
  - rewrite length_app, Nat.add_1_r. rewrite lengthBefore_all.
    cbn [p_text makeChunk]. lia.
  - intros i chunk Hi.
    destruct (decide (i < length chunks)) as [Hlt|Hge].
    + rewrite lookup_app_l in Hi by assumption.
      destruct (Hall i chunk Hi) as (H1 & H2 & H3 & Hrest).
      split; [exact H1|]. split; [exact H2|]. split; [|exact Hrest].
      rewrite lengthBefore_snoc by lia. exact H3.
    + apply lookup_lt_Some in Hi as Hbound. rewrite length_app in Hbound.
      cbn in Hbound. assert (i = length chunks) by lia. subst i.
      rewrite list_lookup_middle in Hi by reflexivity.
      inversion Hi; subst chunk. unfold WellNumbered.
      cbn [makeChunk chunk_index position content_offset p_length p_text p_id
           document_id fileName n_tokens tokens].
      rewrite lengthBefore_snoc by lia.
      rewrite sliceWords_length by lia.
      repeat split; try assumption; try lia.
Qed.

Lemma chunkWords_numbered filename words limit fuel :
  forall startIndex chunkIndex contentOffset iterationCount chunks out,
    Numbered generateHash filename chunkSize chunks chunkIndex contentOffset ->
    chunkWords generateHash chunkSize overlap fuel filename words limit
      startIndex chunkIndex contentOffset iterationCount chunks = Some out ->
    forall i chunk, out !! i = Some chunk ->
      WellNumbered generateHash filename chunkSize out i chunk.
Proof.
  induction fuel as [|fuel IH];
    intros startIndex chunkIndex contentOffset iterationCount chunks out
           Hinv Hrun; [discriminate|].
  rewrite chunkWords_step in Hrun.
  destruct (_ && _).
  2: { apply (inj Some) in Hrun. subst out. apply Hinv. }
  cbv zeta in Hrun.
  destruct (Nat.leb_spec (Nat.min (startIndex + chunkSize) (length words))
              startIndex).
  { apply (inj Some) in Hrun. subst out. apply Hinv. }
  destruct (truthy _) eqn:Htext.
  - eapply IH; [|exact Hrun].
    apply Numbered_push; [lia|lia| |exact Hinv].
    intros Hnil. rewrite Hnil in Htext. discriminate.
  - eapply IH; [exact Hinv | exact Hrun].
Qed.

(** *** No word is lost when the overlap is below the chunk size *)

Lemma WordsCovered_step filename words chunks chunkIndex contentOffset s e s' :
  Forall (Forall (fun c => isWhiteSpace c = false)) words ->
  s < e -> e <= length words -> s' <= e ->
  WordsCovered words chunks s ->
  WordsCovered words
    (if truthy (trim (joinWords (sliceWords words s e)))
     then chunks ++ [makeChunk generateHash filename
                       (joinWords (sliceWords words s e))
                       (length (sliceWords words s e)) chunkIndex contentOffset]
     else chunks) s'.
Proof.
  intros Hwords Hse He Hs' Hcover k word Hk Hword Hne.
  destruct (decide (k < s)) as [Hlt|Hge].
  - destruct (Hcover k word Hlt Hword Hne) as (chunk & a & b & Hin & Hw & Hrange).
    exists chunk, a, b. split; [|auto].
    destruct (truthy _); [set_solver|assumption].
  - rewrite (window_not_blank words s e k word Hwords) by (auto; lia).
    exists (makeChunk generateHash filename (joinWords (sliceWords words s e))
              (length (sliceWords words s e)) chunkIndex contentOffset), s, e.
    split; [set_solver|]. split; [|lia].
    split; [lia|]. cbn [makeChunk p_text tokens].
    split; [reflexivity|]. now apply sliceWords_length.
Qed.

Lemma chunkWords_covered filename words fuel :
  overlap < chunkSize ->
  Forall (Forall (fun c => isWhiteSpace c = false)) words ->
  let d := chunkSize - overlap in
  let C := (length words + d - 1) / d in
  forall startIndex chunkIndex contentOffset iterationCount chunks out,
    (length words <= startIndex
     \/ startIndex = iterationCount * d
     \/ (length words <= startIndex + overlap /\ iterationCount <= C)) ->
    WordsCovered words chunks startIndex ->
    chunkWords generateHash chunkSize overlap fuel filename words
      (maxIterations chunkSize overlap (length words))
      startIndex chunkIndex contentOffset iterationCount chunks = Some out ->
    WordsCovered words out (length words).
Proof.
  intros Hov Hwords d C.
  assert (Hd : 0 < d) by (unfold d; lia).
  assert (HC : length words <= C * d).
  { unfold C. pose proof (Nat.div_mod_eq (length words + d - 1) d) as Hdiv.
    pose proof (Nat.mod_upper_bound (length words + d - 1) d ltac:(lia)). nia. }
  assert (Hlimit : maxIterations chunkSize overlap (length words)
                   = Some (Z.of_nat C + 10)%Z).
  { unfold maxIterations. destruct (Nat.ltb_spec overlap chunkSize); [|lia].
    reflexivity. }
  rewrite Hlimit.
  induction fuel as [|fuel IH];
    intros startIndex chunkIndex contentOffset iterationCount chunks out
           Hphase Hcover Hrun; [discriminate|].
  rewrite chunkWords_step in Hrun.
  destruct (Nat.ltb_spec startIndex (length words)) as [Hlt|Hge]; cbn [andb] in Hrun.
  2: { apply (inj Some) in Hrun. subst out.
       intros k word Hk. apply Hcover. lia. }
  assert (Hbelow : belowLimit iterationCount (Some (Z.of_nat C + 10)%Z) = true).
  { cbn [belowLimit]. apply Z.ltb_lt.
    destruct Hphase as [Hdone|[Heq|[_ Hcount]]]; [lia| |lia].
    assert (iterationCount < C) by nia. lia. }
  rewrite Hbelow in Hrun. cbv zeta in Hrun.
  set (e := Nat.min (startIndex + chunkSize) (length words)) in *.
  assert (He : startIndex < e) by (unfold e; lia).
  destruct (Nat.leb_spec e startIndex); [lia|].
  set (s' := if e <=? startIndex + overlap then e else e - overlap) in *.
  assert (Hs' : s' <= e) by (unfold s'; destruct (_ <=? _); lia).
  pose proof (WordsCovered_step filename words chunks chunkIndex contentOffset
                startIndex e s' Hwords He ltac:(unfold e; lia) Hs' Hcover)
    as Hstep.
  assert (Hphase' : length words <= s'
                    \/ s' = (iterationCount + 1) * d
                    \/ (length words <= s' + overlap
                        /\ iterationCount + 1 <= C)).
  { unfold s'. destruct (Nat.leb_spec e (startIndex + overlap)) as [Hclip|Hfree].
    - left. unfold e in *. lia.
    - destruct (Nat.leb_spec (startIndex + chunkSize) (length words)).
      + destruct Hphase as [Hdone|[Heq|[Hnear _]]]; [lia| |unfold e in *; lia].
        right. left. unfold e. subst d. nia.
      + right. right. split; [unfold e; lia|].
        destruct Hphase as [Hdone|[Heq|[Hnear _]]]; [lia| |unfold e in *; lia].
        assert (iterationCount < C) by nia. lia. }
  destruct (truthy _); eapply IH; eauto.
Qed.

(** *** The limit on the iterations *)

Lemma chunkWords_count filename words m fuel :
  forall startIndex chunkIndex contentOffset iterationCount chunks out,
    chunkWords generateHash chunkSize overlap fuel filename words (Some m)
      startIndex chunkIndex contentOffset iterationCount chunks = Some out ->
    length out <= length chunks + Z.to_nat (m - Z.of_nat iterationCount).
Proof.
  induction fuel as [|fuel IH];
    intros startIndex chunkIndex contentOffset iterationCount chunks out Hrun;
    [discriminate|].
  rewrite chunkWords_step in Hrun.
  destruct (startIndex <? length words); cbn [andb] in Hrun.
  2: { apply (inj Some) in Hrun. subst out. lia. }
  cbn [belowLimit] in Hrun.
  destruct (Z.ltb_spec (Z.of_nat iterationCount) m).
  2: { apply (inj Some) in Hrun. subst out. lia. }
  cbv zeta in Hrun.
  destruct (_ <=? startIndex).
  { apply (inj Some) in Hrun. subst out. lia. }
  destruct (truthy _); apply IH in Hrun;
    rewrite ?length_app in Hrun; cbn [length] in Hrun; lia.
Qed.

End WithConfig.

(** X22. The word chunker returns for every content and every setting of
    chunk size and overlap: the start index grows at each turn of its
    loop, which therefore makes at most as many turns as there are
    words. *)
Theorem createChunks_always_returns
    generateHash chunkSize overlap content filename fuel :
  length (splitWhiteSpace content [] false) < fuel ->
  exists chunks,
    createChunks generateHash chunkSize overlap fuel content filename
    = Some chunks.
Proof.
  intros Hfuel. unfold createChunks.
  destruct (chunkWords_returns generateHash chunkSize overlap filename
              (splitWhiteSpace content [] false)
              (maxIterations chunkSize overlap
                 (length (splitWhiteSpace content [] false)))
              fuel 0 0 0 0 []) as [chunks Hrun]; [lia|].
  now exists chunks.
Qed.

Lemma createChunks_always_returns_witness :
  exists chunks,
    createChunks (fun content => content) 4 4 11 tenWords (js "ten.txt")
    = Some chunks.
Proof.
  apply (createChunks_always_returns (fun content => content) 4 4 tenWords
           (js "ten.txt") 11).
  vm_compute. lia.
Defined.

(** X23. The chunks of the word chunker are numbered in order: the [i]-th
    has [chunk_index] [i] and [position] [i + 1], its [content_offset] is
    the total length of the texts of the chunks before it, its [length] is
    the length of its text, its id the hash of its text, and it counts
    between 1 and [chunkSize] words; its text is not blank. *)
Theorem createChunks_numbers_chunks
    generateHash chunkSize overlap fuel content filename chunks :
  createChunks generateHash chunkSize overlap fuel content filename
    = Some chunks ->
  forall i chunk, chunks !! i = Some chunk ->
    WellNumbered generateHash filename chunkSize chunks i chunk.
Proof.
  unfold createChunks. intros Hrun.
  eapply chunkWords_numbered; [|exact Hrun].
  split; [reflexivity|]. split; [reflexivity|]. intros i chunk Hi. discriminate.
Qed.

Lemma createChunks_numbers_chunks_witness :
  exists chunks,
    createChunks (fun content => content) 4 1 11 tenWords (js "ten.txt")
      = Some chunks
    /\ forall i chunk, chunks !! i = Some chunk ->
         WellNumbered (fun content => content) (js "ten.txt") 4 chunks i chunk.
Proof.
  destruct (createChunks (fun content => content) 4 1 11 tenWords (js "ten.txt"))
    as [chunks|] eqn:Hrun; [|vm_compute in Hrun; discriminate].
  exists chunks. split; [reflexivity|].
  apply (createChunks_numbers_chunks (fun content => content) 4 1 11
           tenWords (js "ten.txt") chunks).
  exact Hrun.
Defined.

(** X24. With an overlap below the chunk size no word is lost: every word
    of the content that is not empty is one of the words of some chunk,
    and the limit on the number of iterations is never reached. *)
Theorem createChunks_loses_no_word
    generateHash chunkSize overlap fuel content filename chunks :
  overlap < chunkSize ->
  createChunks generateHash chunkSize overlap fuel content filename
    = Some chunks ->
  NoWordLost (splitWhiteSpace content [] false) chunks.
Proof.
  unfold createChunks. intros Hov Hrun k word Hword Hne.
  assert (Hcover : WordsCovered (splitWhiteSpace content [] false) chunks
                     (length (splitWhiteSpace content [] false))).
  { apply (chunkWords_covered generateHash chunkSize overlap filename
             (splitWhiteSpace content [] false) fuel Hov
             (splitWhiteSpace_words content [] false ltac:(constructor))
             0 0 0 0 [] chunks); [auto | | exact Hrun].
    intros k' word' Hk'. lia. }
  apply (Hcover k word); [|assumption..].
  apply lookup_lt_Some in Hword. exact Hword.
Qed.

Lemma createChunks_loses_no_word_witness :
  exists chunks,
    createChunks (fun content => content) 4 1 11 tenWords (js "ten.txt")
      = Some chunks
    /\ NoWordLost (splitWhiteSpace tenWords [] false) chunks.
Proof.
  destruct (createChunks (fun content => content) 4 1 11 tenWords (js "ten.txt"))
    as [chunks|] eqn:Hrun; [|vm_compute in Hrun; discriminate].
  exists chunks. split; [reflexivity|].
  apply (createChunks_loses_no_word (fun content => content) 4 1 11 tenWords
           (js "ten.txt") chunks); [lia | exact Hrun].
Defined.

(** X25. With an overlap above the chunk size the bound on the iterations
    is [10 - floor(n / (overlap - chunkSize))] for [n] words, so at most
    that many chunks are made and the words after them are dropped; from
    [10 * (overlap - chunkSize)] words on the content gives no chunk at
    all. *)
Theorem createChunks_stops_early_when_overlap_is_larger
    generateHash chunkSize overlap fuel content filename chunks :
  chunkSize < overlap ->
  createChunks generateHash chunkSize overlap fuel content filename
    = Some chunks ->
  length chunks
    <= 10 - length (splitWhiteSpace content [] false) / (overlap - chunkSize)
  /\ (10 * (overlap - chunkSize) <= length (splitWhiteSpace content [] false)
      -> chunks = []).
Proof.
  unfold createChunks. intros Hov Hrun.
  remember (length (splitWhiteSpace content [] false)) as n eqn:Hn.
  assert (Hlimit : maxIterations chunkSize overlap n
                   = Some (10 - Z.of_nat (n / (overlap - chunkSize)))%Z).
  { unfold maxIterations. destruct (Nat.ltb_spec overlap chunkSize); [lia|].
    destruct (Nat.eqb_spec overlap chunkSize); [lia|]. reflexivity. }
  rewrite Hlimit in Hrun.
  apply chunkWords_count in Hrun. cbn [length] in Hrun.
  assert (Hcount : length chunks <= 10 - n / (overlap - chunkSize)) by lia.
  split; [exact Hcount|]. intros Hmany.
  assert (10 <= n / (overlap - chunkSize)).
  { apply Nat.div_le_lower_bound; lia. }
  destruct chunks; [reflexivity|]. cbn [length] in Hcount. lia.
Qed.

Lemma createChunks_stops_early_when_overlap_is_larger_witness :
  createChunks (fun content => content) 1 2 11 tenWords (js "ten.txt")
  = Some [].
Proof.
  destruct (createChunks (fun content => content) 1 2 11 tenWords (js "ten.txt"))
    as [chunks|] eqn:Hrun; [|vm_compute in Hrun; discriminate].
  destruct (createChunks_stops_early_when_overlap_is_larger
              (fun content => content) 1 2 11 tenWords (js "ten.txt") chunks)
    as [_ Hnone]; [lia | exact Hrun |].
  rewrite Hnone; [reflexivity|]. vm_compute. lia.
Defined.

End DocumentFacts.

(** ** The enhanced document processor *)

Module EnhancedDocumentFacts.
Import Js JsFacts Chunker ChunkerReports ChunkerViews TrimFacts
       ChunkerShapeFacts EmbeddingManager EmbeddingSpec EmbeddingSamples EmbeddingFacts
       EmbeddingMoreFacts DocumentProcessor DocumentSpec
       EnhancedDocumentProcessor EnhancedDocumentSpec.

Lemma Trimmed_truthy s : Trimmed s -> truthy (trim s) = true.
Proof.
  intros (first & final & Hhead & _ & Hfirst & _).
  destruct s as [|c r]; [discriminate|]. cbn in Hhead.
  apply (inj Some) in Hhead. subst c.
  destruct (trim_slice (first :: r)) as (_ & _ & Hcover).
  specialize (Hcover 0 first eq_refl Hfirst).
  destruct (trim (first :: r)); [cbn in Hcover; lia|reflexivity].
Qed.

Lemma calculateContentOffset_sum textChunks i :
  calculateContentOffset textChunks i
  = sum_list_with (fun chunk : JsString => length chunk) (take i textChunks).
Proof.
  unfold calculateContentOffset.
  assert (Hgen : forall (l : list JsString) a,
            foldl (fun offset chunk => offset + length chunk) a l
            = a + sum_list_with (fun chunk : JsString => length chunk) l).
  { induction l as [|x l IH]; intros a; cbn [foldl sum_list_with]; [lia|].
    rewrite IH. lia. }
  now rewrite Hgen.
Qed.

Section WithServices.
Variable world : World.
Variable config : EmbeddingConfig.
Variable generateHash : JsString -> JsString.

Lemma Converted_push filename textChunks chunkIndex chunks chunkText v :
  textChunks !! chunkIndex = Some chunkText ->
  Converted generateHash filename textChunks chunkIndex chunks ->
  Converted generateHash filename textChunks (chunkIndex + 1)
    (chunks ++ [makeNode generateHash filename textChunks chunkIndex
                  chunkText v]).
Proof.
  intros Hchunk [Hlen Hall]. split; [rewrite length_app; cbn; lia|].
  intros i node Hi.
  destruct (decide (i < length chunks)) as [Hlt|Hge].
  - rewrite lookup_app_l in Hi by assumption. now apply Hall.
  - apply lookup_lt_Some in Hi as Hbound. rewrite length_app in Hbound.
    cbn in Hbound. assert (i = length chunks) by lia. subst i.
    rewrite list_lookup_middle in Hi by reflexivity.
    apply (inj Some) in Hi. subst node. rewrite Hlen.
    exists chunkText. split; [exact Hchunk|].
    cbn [makeNode p_text chunk_index position p_length content_offset p_id
         document_id fileName].
    rewrite calculateContentOffset_sum. repeat split.
Qed.

(** When no chunk is blank the loop makes one node for each chunk. *)
Lemma convert_nodes filename textChunks : forall rest chunkIndex chunks st,
  Forall (fun chunk => truthy (trim chunk) = true) rest ->
  drop chunkIndex textChunks = rest ->
  Converted generateHash filename textChunks chunkIndex chunks ->
  Converted generateHash filename textChunks (length textChunks)
    (convert world config generateHash filename textChunks rest chunkIndex
       chunks st).1.
Proof.
  induction rest as [|chunkText rest IH];
    intros chunkIndex chunks st Hfull Hdrop Hinv; cbn [convert].
  - unfold ret. cbn [fst].
    assert (length textChunks <= chunkIndex).
    { apply (f_equal length) in Hdrop. rewrite length_drop in Hdrop.
      cbn in Hdrop. lia. }
    destruct Hinv as [Hlen Hall].
    assert (Hbound : chunkIndex <= length textChunks).
    { destruct chunks as [|node chunks'] using rev_ind; [cbn in Hlen; lia|].
      destruct (Hall (length chunks') node) as (chunk & Hchunk & _).
      { now rewrite list_lookup_middle. }
      apply lookup_lt_Some in Hchunk. rewrite length_app in Hlen.
      cbn in Hlen. lia. }
    replace (length textChunks) with chunkIndex by lia. now split.
  - inversion Hfull as [|? ? Hhead Htail]; subst. rewrite Hhead.
    unfold bind at 1.
    destruct (embeddingFor world config chunkText st) as [v st'].
    apply IH; [exact Htail| |].
    + apply (f_equal (drop 1)) in Hdrop. rewrite drop_drop in Hdrop.
      exact Hdrop.
    + apply Converted_push; [|exact Hinv].
      rewrite <- (Nat.add_0_r chunkIndex), <- lookup_drop, Hdrop.
      reflexivity.
Qed.

Lemma embeddingFor_valid chunkText st :
  match (embeddingFor world config chunkText st).1 with
  | Some v => v <> []
  | None => True
  end.
Proof.
  unfold embeddingFor, bind.
  destruct (embedQuery world config chunkText st) as [[v|error] st'];
    unfold ret; cbn [fst]; [|exact I].
  destruct v; cbn [length Nat.eqb]; [exact I|discriminate].
Qed.

Lemma convert_embeddings filename textChunks :
  forall rest chunkIndex chunks st,
    Forall HasEmbedding chunks ->
    Forall HasEmbedding
      (convert world config generateHash filename textChunks rest chunkIndex
         chunks st).1.
Proof.
  induction rest as [|chunkText rest IH]; intros chunkIndex chunks st Hall;
    cbn [convert]; [exact Hall|].
  destruct (truthy (trim chunkText)); [|now apply IH].
  unfold bind at 1.
  pose proof (embeddingFor_valid chunkText st) as Hvalid.
  destruct (embeddingFor world config chunkText st) as [v st'].
  apply IH. apply Forall_app. split; [exact Hall|].
  constructor; [exact Hvalid|constructor].
Qed.

(** A provider that rejects every call, on a cache without entries. *)
Lemma embeddingFor_down chunkText st :
  (forall i text, exists error,
      providerEmbedQuery world i text = Rejected error) ->
  cache st = ∅ ->
  (embeddingFor world config chunkText st).1 = None
  /\ cache (embeddingFor world config chunkText st).2 = ∅
  /\ length (providerCalls (embeddingFor world config chunkText st).2)
     = length (providerCalls st) + orDefault (retryAttempts config) 3.
Proof.
  intros Hdown Hempty.
  assert (Hpos : 0 < orDefault (retryAttempts config) 3).
  { unfold orDefault. destruct (retryAttempts config) as [[|n]|]; lia. }
  destruct (embedWithRetryFrom_all_rejected world config chunkText
              (orDefault (retryAttempts config) 3 - 1) st)
    as (lastError & _ & Hrun).
  { intros i _. apply Hdown. }
  unfold embeddingFor, embedQuery, bind.
  rewrite (getFromCache_absent world _ st)
    by (rewrite Hempty; apply lookup_empty).
  unfold embedWithRetry. rewrite Hrun. unfold ret.
  cbn [fst snd cache providerCalls].
  split; [reflexivity|]. split; [exact Hempty|].
  rewrite length_app, length_replicate. lia.
Qed.

Lemma convert_down filename textChunks :
  (forall i text, exists error,
      providerEmbedQuery world i text = Rejected error) ->
  forall rest chunkIndex chunks st,
    Forall (fun chunk => truthy (trim chunk) = true) rest ->
    cache st = ∅ ->
    Forall (fun node => DocumentProcessor.embedding node = None) chunks ->
    Forall (fun node => DocumentProcessor.embedding node = None)
      (convert world config generateHash filename textChunks rest chunkIndex
         chunks st).1
    /\ length (providerCalls
                 (convert world config generateHash filename textChunks rest
                    chunkIndex chunks st).2)
       = length (providerCalls st)
         + length rest * orDefault (retryAttempts config) 3.
Proof.
  intros Hdown.
  induction rest as [|chunkText rest IH];
    intros chunkIndex chunks st Hfull Hempty Hall; cbn [convert].
  - unfold ret. cbn [fst snd length]. split; [exact Hall|lia].
  - inversion Hfull as [|? ? Hhead Htail]; subst. rewrite Hhead.
    unfold bind at 1. unfold bind at 1.
    destruct (embeddingFor_down chunkText st Hdown Hempty)
      as (Hnone & Hcache & Hcalls).
    destruct (embeddingFor world config chunkText st) as [v st'].
    cbn [fst snd] in Hnone, Hcache, Hcalls. subst v.
    destruct (IH (chunkIndex + 1)
                (chunks ++ [makeNode generateHash filename textChunks
                              chunkIndex chunkText None]) st' Htail Hcache)
      as [Hnodes Hcount].
    { apply Forall_app. split; [exact Hall|].
      constructor; [reflexivity|constructor]. }
    split; [exact Hnodes|]. rewrite Hcount, Hcalls. cbn [length]. lia.
Qed.

End WithServices.

Lemma chunkText_truthy o fuel content textChunks :
  chunkText o fuel content = Some textChunks ->
  Forall (fun chunk => truthy (trim chunk) = true) textChunks.
Proof.
  intros Hrun.
  apply (chunkText_trim o (fun chunk => truthy (trim chunk) = true))
    with (fuel := fuel) (text := content); [|exact Hrun].
  intros s Hs. apply Trimmed_truthy. now apply trim_Trimmed.
Qed.

(** The nodes made for all the chunks carry the chunks as their texts. *)
Lemma Converted_texts generateHash filename textChunks nodes :
  Converted generateHash filename textChunks (length textChunks) nodes ->
  map p_text nodes = textChunks.
Proof.
  intros [Hlen Hall]. apply list_eq. intros i. rewrite list_lookup_fmap.
  destruct (nodes !! i) as [node|] eqn:Hnode;
    cbn [fmap option_fmap option_map].
  - destruct (Hall i node Hnode) as (chunk & Hchunk & Htext & _).
    now rewrite Hchunk, Htext.
  - apply lookup_ge_None in Hnode. rewrite Hlen in Hnode.
    symmetry. now apply lookup_ge_None.
Qed.

(** X26. The enhanced processor makes exactly one node for each chunk of
    [chunkText], in the order of the chunks and whatever the embedding
    provider answers: the [i]-th node carries the [i]-th chunk as its text,
    [chunk_index] [i], [position] [i + 1], the length of the chunk, the
    total length of the chunks before it as [content_offset], and the
    hashes of the chunk and of the file name as ids. *)
Theorem createChunks_makes_one_node_per_chunk
    world config o generateHash fuel content filename textChunks run st :
  chunkText o fuel content = Some textChunks ->
  EnhancedDocumentProcessor.createChunks world config o generateHash fuel
    content filename = Some run ->
  length (run st).1 = length textChunks
  /\ map p_text (run st).1 = textChunks
  /\ forall i node, (run st).1 !! i = Some node ->
       NodeOf generateHash filename textChunks i node.
Proof.
  intros Hchunks Hrun. unfold EnhancedDocumentProcessor.createChunks in Hrun.
  rewrite Hchunks in Hrun. cbn [mbind option_bind] in Hrun.
  destruct (getTextStats o content); [|discriminate].
  apply (inj Some) in Hrun. subst run.
  destruct (convert_nodes world config generateHash filename textChunks
              textChunks 0 [] st) as [Hlen Hall].
  { eapply chunkText_truthy. exact Hchunks. }
  { reflexivity. }
  { split; [reflexivity|]. intros i node Hi. discriminate. }
  split; [exact Hlen|]. split; [|exact Hall].
  apply list_eq. intros i. rewrite list_lookup_fmap.
  destruct (_ !! i) as [node|] eqn:Hnode; cbn [fmap option_fmap option_map].
  - destruct (Hall i node Hnode) as (chunk & Hchunk & Htext & _).
    now rewrite Hchunk, Htext.
  - apply lookup_ge_None in Hnode. rewrite Hlen in Hnode.
    symmetry. now apply lookup_ge_None.
Qed.

Lemma createChunks_makes_one_node_per_chunk_witness :
  exists run textChunks,
    EnhancedDocumentProcessor.createChunks downWorld twoAttempts
      smallOptions (fun content => content) 40 twoParagraphs
      (js "two.txt") = Some run
    /\ chunkText smallOptions 40 twoParagraphs = Some textChunks
    /\ map p_text (run emptyState).1 = textChunks.
Proof.
  destruct (chunkText smallOptions 40 twoParagraphs) as [textChunks|]
    eqn:Hchunks; [|vm_compute in Hchunks; discriminate].
  assert (Hrun : EnhancedDocumentProcessor.createChunks downWorld twoAttempts
                   smallOptions (fun content => content) 40 twoParagraphs
                   (js "two.txt")
                 = Some (convert downWorld twoAttempts (fun content => content)
                           (js "two.txt") textChunks textChunks 0 [])).
  { unfold EnhancedDocumentProcessor.createChunks. rewrite Hchunks.
    cbn [mbind option_bind].
    destruct (getTextStats smallOptions twoParagraphs) eqn:Hstats;
      [reflexivity | vm_compute in Hstats; discriminate]. }
  eexists. exists textChunks. split; [exact Hrun|]. split; [reflexivity|].
  destruct (createChunks_makes_one_node_per_chunk downWorld twoAttempts
              smallOptions (fun content => content) 40 twoParagraphs
              (js "two.txt") textChunks _ emptyState Hchunks Hrun)
    as (_ & Htexts & _).
  exact Htexts.
Defined.

(** X27. A node of the enhanced processor never carries an empty
    embedding: its [embedding] is either absent or a vector with at least
    one component. *)
Theorem createChunks_never_stores_empty_embedding
    world config o generateHash fuel content filename run st :
  EnhancedDocumentProcessor.createChunks world config o generateHash fuel
    content filename = Some run ->
  Forall HasEmbedding (run st).1.
Proof.
  unfold EnhancedDocumentProcessor.createChunks. intros Hrun.
  destruct (chunkText o fuel content) as [textChunks|];
    cbn [mbind option_bind] in Hrun; [|discriminate].
  destruct (getTextStats o content); [|discriminate].
  apply (inj Some) in Hrun. subst run.
  apply convert_embeddings. constructor.
Qed.

Lemma createChunks_never_stores_empty_embedding_witness :
  exists run,
    EnhancedDocumentProcessor.createChunks steadyWorld threeAttempts
      smallOptions (fun content => content) 40 twoParagraphs
      (js "two.txt") = Some run
    /\ Forall HasEmbedding (run emptyState).1.
Proof.
  destruct (chunkText smallOptions 40 twoParagraphs) as [textChunks|]
    eqn:Hchunks; [|vm_compute in Hchunks; discriminate].
  assert (Hrun : EnhancedDocumentProcessor.createChunks steadyWorld
                   threeAttempts smallOptions (fun content => content) 40
                   twoParagraphs (js "two.txt")
                 = Some (convert steadyWorld threeAttempts
                           (fun content => content) (js "two.txt") textChunks
                           textChunks 0 [])).
  { unfold EnhancedDocumentProcessor.createChunks. rewrite Hchunks.
    cbn [mbind option_bind].
    destruct (getTextStats smallOptions twoParagraphs) eqn:Hstats;
      [reflexivity | vm_compute in Hstats; discriminate]. }
  eexists. split; [exact Hrun|].
  apply (createChunks_never_stores_empty_embedding steadyWorld threeAttempts
           smallOptions (fun content => content) 40 twoParagraphs
           (js "two.txt") _ emptyState Hrun).
Defined.

(** X28. A provider that is down does not stop the enhanced processor:
    starting from an empty cache, every chunk still gets its node, in
    order and with the chunk as its text, each without an embedding, after
    [retryAttempts || 3] provider calls per chunk. *)
Theorem createChunks_survives_provider_failure
    world config o generateHash fuel content filename textChunks run st :
  (forall i text, exists error,
      providerEmbedQuery world i text = Rejected error) ->
  cache st = ∅ ->
  chunkText o fuel content = Some textChunks ->
  EnhancedDocumentProcessor.createChunks world config o generateHash fuel
    content filename = Some run ->
  length (run st).1 = length textChunks
  /\ map p_text (run st).1 = textChunks
  /\ Forall (fun node => DocumentProcessor.embedding node = None) (run st).1
  /\ length (providerCalls (run st).2)
     = length (providerCalls st)
       + length textChunks * orDefault (retryAttempts config) 3.
Proof.
  intros Hdown Hempty Hchunks Hrun.
  unfold EnhancedDocumentProcessor.createChunks in Hrun.
  rewrite Hchunks in Hrun. cbn [mbind option_bind] in Hrun.
  destruct (getTextStats o content); [|discriminate].
  apply (inj Some) in Hrun. subst run.
  pose proof (chunkText_truthy o fuel content textChunks Hchunks) as Hfull.
  pose proof (convert_nodes world config generateHash filename textChunks
                textChunks 0 [] st Hfull eq_refl) as Hnodes.
  destruct Hnodes as [Hlen Hall].
  { split; [reflexivity|]. intros i node Hi. discriminate. }
  split; [exact Hlen|].
  split; [apply (Converted_texts generateHash filename); now split|].
  apply convert_down; [exact Hdown|exact Hfull|exact Hempty|constructor].
Qed.

Lemma createChunks_survives_provider_failure_witness :
  exists run textChunks,
    EnhancedDocumentProcessor.createChunks downWorld twoAttempts
      smallOptions (fun content => content) 40 twoParagraphs
      (js "two.txt") = Some run
    /\ chunkText smallOptions 40 twoParagraphs = Some textChunks
    /\ map p_text (run emptyState).1 = textChunks
    /\ Forall (fun node => DocumentProcessor.embedding node = None)
         (run emptyState).1
    /\ length (providerCalls (run emptyState).2) = length textChunks * 2.
Proof.
  destruct (chunkText smallOptions 40 twoParagraphs) as [textChunks|]
    eqn:Hchunks; [|vm_compute in Hchunks; discriminate].
  assert (Hrun : EnhancedDocumentProcessor.createChunks downWorld twoAttempts
                   smallOptions (fun content => content) 40 twoParagraphs
                   (js "two.txt")
                 = Some (convert downWorld twoAttempts (fun content => content)
                           (js "two.txt") textChunks textChunks 0 [])).
  { unfold EnhancedDocumentProcessor.createChunks. rewrite Hchunks.
    cbn [mbind option_bind].
    destruct (getTextStats smallOptions twoParagraphs) eqn:Hstats;
      [reflexivity | vm_compute in Hstats; discriminate]. }
  exists (convert downWorld twoAttempts (fun content => content)
            (js "two.txt") textChunks textChunks 0 []), textChunks.
  split; [exact Hrun|]. split; [reflexivity|].
  destruct (createChunks_survives_provider_failure downWorld twoAttempts
              smallOptions (fun content => content) 40 twoParagraphs
              (js "two.txt") textChunks
              (convert downWorld twoAttempts (fun content => content)
                 (js "two.txt") textChunks textChunks 0 []) emptyState)
    as (_ & Htexts & Hnone & Hcalls).
  - intros i text. eexists. reflexivity.
  - reflexivity.
  - exact Hchunks.
  - exact Hrun.
  - split; [exact Htexts|]. split; [exact Hnone | exact Hcalls].
Defined.

End EnhancedDocumentFacts.
